(** * Research-paper-explorer: the in-memory index and query engine

    A shallow embedding of [src/main.py] (the title index [AVLTree], the
    author index [RBTree], the arXiv fetcher and the tree builder), of
    [src/advanced_search.py] (the class [AdvancedSearchEngine] and the
    query templates) and of the loops of [src/app.py] that call them,
    with the properties the specification states about them and further
    properties read off the code.

    Conventions.  A Python [str] is a [string]: a sequence of characters
    whose code points are below 256.  Python integers are [Z].  Python
    [None] children of the title tree are the constructor [ANone].  The
    author tree lives in a store of nodes addressed by natural numbers,
    since its nodes carry parent references and are updated in place. *)

From Stdlib Require Import ZArith Lia Bool Ascii String QArith.
From stdpp Require Import gmap strings list sorting.

Local Open Scope Z_scope.

(** ** Strings as Python compares them *)

Module PyStr.

(** [a < b] on [str]: lexicographic on code points. *)
Definition lt (a b : string) : bool :=
  match String.compare a b with Lt => true | _ => false end.

(** [a > b] is [b < a]. *)
Definition gt (a b : string) : bool := lt b a.

Definition le (a b : string) : bool := negb (lt b a).

(** [s.startswith(p)] *)
Fixpoint startswith (s p : string) : bool :=
  match p with
  | EmptyString => true
  | String c p' =>
      match s with
      | EmptyString => false
      | String d s' => if Ascii.eqb c d then startswith s' p' else false
      end
  end.

Lemma compare_refl a : String.compare a a = Eq.
Proof.
  induction a as [|c a IH]; simpl; [done|].
  unfold Ascii.compare. by rewrite N.compare_refl.
Qed.

Lemma ascii_compare_eq c d : Ascii.compare c d = Eq -> c = d.
Proof. apply Ascii.compare_eq_iff. Qed.

Lemma compare_eq a b : String.compare a b = Eq -> a = b.
Proof. apply String.compare_eq_iff. Qed.

Lemma compare_lt_trans a b c :
  String.compare a b = Lt -> String.compare b c = Lt ->
  String.compare a c = Lt.
Proof.
  revert b c. induction a as [|x a IH]; intros [|y b] [|z c]; simpl; try done.
  unfold Ascii.compare.
  destruct (N.compare_spec (Ascii.N_of_ascii x) (Ascii.N_of_ascii y)) as [E1|L1|G1];
    destruct (N.compare_spec (Ascii.N_of_ascii y) (Ascii.N_of_ascii z)) as [E2|L2|G2];
    try done; intros H1 H2.
  - rewrite E1, E2, N.compare_refl. eauto.
  - rewrite E1. by apply N.compare_lt_iff in L2 as ->.
  - rewrite <- E2. by apply N.compare_lt_iff in L1 as ->.
  - assert (Ascii.N_of_ascii x < Ascii.N_of_ascii z)%N as L by lia.
    by apply N.compare_lt_iff in L as ->.
Qed.

Lemma lt_irrefl a : lt a a = false.
Proof. unfold lt. by rewrite compare_refl. Qed.

Lemma lt_trans a b c : lt a b = true -> lt b c = true -> lt a c = true.
Proof.
  unfold lt. intros H1 H2.
  destruct (String.compare a b) eqn:E1; try done.
  destruct (String.compare b c) eqn:E2; try done.
  by rewrite (compare_lt_trans _ _ _ E1 E2).
Qed.

Lemma lt_asym a b : lt a b = true -> lt b a = false.
Proof.
  intros H. destruct (lt b a) eqn:E; [|done].
  pose proof (lt_trans _ _ _ H E) as H'. by rewrite lt_irrefl in H'.
Qed.

(** Trichotomy: two strings that are not ordered either way are equal. *)
Lemma lt_total a b : lt a b = false -> lt b a = false -> a = b.
Proof.
  unfold lt. rewrite (String.compare_antisym a b).
  destruct (String.compare b a) eqn:E; simpl; try done.
  intros _ _. symmetry. by apply compare_eq.
Qed.

Lemma le_refl a : le a a = true.
Proof. unfold le. by rewrite lt_irrefl. Qed.

Lemma lt_le a b : lt a b = true -> le a b = true.
Proof. intros H. unfold le. by rewrite (lt_asym _ _ H). Qed.

Lemma le_trans a b c : le a b = true -> le b c = true -> le a c = true.
Proof.
  unfold le. rewrite !negb_true_iff. intros H1 H2.
  destruct (lt c a) eqn:E; [|done].
  destruct (lt a b) eqn:E1.
  - by rewrite (lt_trans _ _ _ E E1) in H2.
  - rewrite (lt_total _ _ E1 H1) in E. by rewrite E in H2.
Qed.

Lemma le_lt_trans a b c : le a b = true -> lt b c = true -> lt a c = true.
Proof.
  unfold le. rewrite negb_true_iff. intros H1 H2.
  destruct (lt a b) eqn:E1.
  - by eapply lt_trans.
  - by rewrite (lt_total _ _ E1 H1).
Qed.

Lemma lt_le_trans a b c : lt a b = true -> le b c = true -> lt a c = true.
Proof.
  unfold le. rewrite negb_true_iff. intros H1 H2.
  destruct (lt b c) eqn:E1.
  - by eapply lt_trans.
  - by rewrite <- (lt_total _ _ E1 H2).
Qed.

Lemma le_antisym a b : le a b = true -> le b a = true -> a = b.
Proof.
  unfold le. rewrite !negb_true_iff. intros H1 H2. by apply lt_total.
Qed.

Lemma le_total a b : le a b = true \/ le b a = true.
Proof.
  unfold le. destruct (lt b a) eqn:E; [right|by left].
  by rewrite (lt_asym _ _ E).
Qed.

End PyStr.

(** ** The title index: [AVLNode] and [AVLTree] of [src/main.py] *)

Module AVL.

(** An [AVLNode] object, or [None].  The node owns its two children, so a
    tree of objects is a tree of values; an assignment to [root.left] is
    the construction of a node with a new left child. *)
Inductive node : Type :=
| ANone : node
| ANode (title : string) (height : Z) (left right : node) : node.

(** [AVLNode(title)] *)
Definition AVLNode (title : string) : node := ANode title 1 ANone ANone.

(** [get_height]: [node.height if node else 0] *)
Definition get_height (n : node) : Z :=
  match n with
  | ANone => 0
  | ANode _ h _ _ => h
  end.

(** [get_balance] *)
Definition get_balance (n : node) : Z :=
  match n with
  | ANone => 0
  | ANode _ _ l r => get_height l - get_height r
  end.

(** [rotate_left(z)].  A call on [None] does not occur: every call site
    tests its argument first. *)
Definition rotate_left (z : node) : node :=
  match z with
  | ANone => ANone
  | ANode zt zh zl y =>
      match y with
      | ANone => z
      | ANode yt yh T2 yr =>
          let z' := ANode zt (1 + Z.max (get_height zl) (get_height T2)) zl T2 in
          ANode yt (1 + Z.max (get_height z') (get_height yr)) z' yr
      end
  end.

(** [rotate_right(z)] *)
Definition rotate_right (z : node) : node :=
  match z with
  | ANone => ANone
  | ANode zt zh y zr =>
      match y with
      | ANone => z
      | ANode yt yh yl T3 =>
          let z' := ANode zt (1 + Z.max (get_height T3) (get_height zr)) T3 zr in
          ANode yt (1 + Z.max (get_height yl) (get_height z')) yl z'
      end
  end.

(** The truth value of [node.left and node.left.title > node.title]. *)
Definition child_gt (c : node) (t : string) : bool :=
  match c with
  | ANone => false
  | ANode ct _ _ _ => PyStr.gt ct t
  end.

Definition child_lt (c : node) (t : string) : bool :=
  match c with
  | ANone => false
  | ANode ct _ _ _ => PyStr.lt ct t
  end.

(** [balance_tree(node)]: the four tests in the order of the source. *)
Definition balance_tree (n : node) : node :=
  match n with
  | ANone => ANone
  | ANode t h l r =>
      let balance := get_balance n in
      if (1 <? balance) && child_gt l t then rotate_right n
      else if (balance <? -1) && child_lt r t then rotate_left n
      else if (1 <? balance) && child_lt l t then
        rotate_right (ANode t h (rotate_left l) r)
      else if (balance <? -1) && child_gt r t then
        rotate_left (ANode t h l (rotate_right r))
      else n
  end.

(** [insert(root, title)] *)
Fixpoint insert (root : node) (title : string) : node :=
  match root with
  | ANone => AVLNode title
  | ANode t h l r =>
      let l' := if PyStr.lt title t then insert l title else l in
      let r' := if PyStr.lt title t then r else insert r title in
      balance_tree (ANode t (1 + Z.max (get_height l') (get_height r')) l' r')
  end.

(** [autocomplete(node, prefix)]: root first, then left, then right. *)
Fixpoint autocomplete (n : node) (prefix : string) : list string :=
  match n with
  | ANone => []
  | ANode t _ l r =>
      (if PyStr.startswith t prefix then [t] else [])
        ++ autocomplete l prefix ++ autocomplete r prefix
  end.

(** The tree the callers build: [root = None], then
    [root = insert(root, title)] for each title in turn. *)
Definition insert_all (titles : list string) : node :=
  fold_left insert titles ANone.

(** *** What the specification says of a title tree *)

(** The titles a tree stores, read from left to right. *)
Fixpoint titles (n : node) : list string :=
  match n with
  | ANone => []
  | ANode t _ l r => titles l ++ t :: titles r
  end.

(** The stored height of every node is one more than the larger of the
    heights of its children. *)
Fixpoint heights_ok (n : node) : bool :=
  match n with
  | ANone => true
  | ANode _ h l r =>
      (h =? 1 + Z.max (get_height l) (get_height r))
        && heights_ok l && heights_ok r
  end.

(** The heights of the two children of every node differ by at most 1. *)
Fixpoint balanced (n : node) : bool :=
  match n with
  | ANone => true
  | ANode _ _ l r =>
      (Z.abs (get_height l - get_height r) <=? 1) && balanced l && balanced r
  end.

(** The AVL invariant of the data model. *)
Definition avl_invariant (n : node) : bool := heights_ok n && balanced n.

(** The ordering the specification states: everything on the left is
    strictly below the title of the node, everything on the right is not
    below it. *)
Fixpoint bst_strict (n : node) : Prop :=
  match n with
  | ANone => True
  | ANode t _ l r =>
      Forall (fun x => PyStr.lt x t = true) (titles l)
      /\ Forall (fun x => PyStr.le t x = true) (titles r)
      /\ bst_strict l /\ bst_strict r
  end.

(** The ordering with equal titles allowed on both sides. *)
Fixpoint bst_weak (n : node) : Prop :=
  match n with
  | ANone => True
  | ANode t _ l r =>
      Forall (fun x => PyStr.le x t = true) (titles l)
      /\ Forall (fun x => PyStr.le t x = true) (titles r)
      /\ bst_weak l /\ bst_weak r
  end.

End AVL.

(** ** Properties of the title index *)

Module AVLFacts.
Import AVL.

(** Rotations keep the left-to-right reading of the tree. *)
Lemma titles_rotate_left z : titles (rotate_left z) = titles z.
Proof.
  destruct z as [|zt zh zl [|yt yh T2 yr]]; simpl; try done.
  by rewrite <- app_assoc.
Qed.

Lemma titles_rotate_right z : titles (rotate_right z) = titles z.
Proof.
  destruct z as [|zt zh [|yt yh yl T3] zr]; simpl; try done.
  by rewrite <- app_assoc.
Qed.

Lemma titles_balance_tree n : titles (balance_tree n) = titles n.
Proof.
  destruct n as [|t h l r]; [done|]. unfold balance_tree.
  repeat case_match; rewrite ?titles_rotate_left, ?titles_rotate_right;
    simpl; by rewrite ?titles_rotate_left, ?titles_rotate_right.
Qed.

Lemma titles_insert_step t h l r x :
  titles (insert (ANode t h l r) x)
  = if PyStr.lt x t then titles (insert l x) ++ t :: titles r
    else titles l ++ t :: titles (insert r x).
Proof.
  cbn [insert]. rewrite titles_balance_tree. cbn [titles].
  by destruct (PyStr.lt x t).
Qed.

(** An insertion adds exactly one occurrence of the title. *)
Lemma titles_insert_perm n x : titles (insert n x) ≡ₚ x :: titles n.
Proof.
  induction n as [|t h l IHl r IHr]; [done|].
  rewrite titles_insert_step. destruct (PyStr.lt x t).
  - rewrite IHl. done.
  - rewrite IHr. simpl. by rewrite Permutation_middle, Permutation_swap,
      <- Permutation_middle.
Qed.

Lemma titles_fold_insert ts n :
  titles (fold_left insert ts n) ≡ₚ ts ++ titles n.
Proof.
  revert n. induction ts as [|x ts IH]; intros n; simpl; [done|].
  rewrite IH, titles_insert_perm. by rewrite Permutation_middle.
Qed.

(** The tree built from a pool of titles stores that pool. *)
Lemma titles_insert_all ts : titles (insert_all ts) ≡ₚ ts.
Proof.
  unfold insert_all. rewrite titles_fold_insert. simpl. by rewrite app_nil_r.
Qed.

(** The weak ordering is sortedness of the left-to-right reading. *)
Definition le_prop (a b : string) : Prop := PyStr.le a b = true.

Lemma bst_weak_sorted n : bst_weak n <-> StronglySorted le_prop (titles n).
Proof.
  induction n as [|t h l IHl r IHr]; simpl.
  - split; [constructor|done].
  - rewrite IHl, IHr, StronglySorted_app, StronglySorted_cons, !Forall_forall.
    split.
    + intros (Hl & Hr & Sl & Sr). repeat split; try done.
      intros x y Hx Hy.
      apply elem_of_cons in Hy as [->|Hy]; [by apply Hl|].
      eapply PyStr.le_trans; [by apply Hl|by apply Hr].
    + intros (Hlr & Sl & Hr & Sr). repeat split; try done.
      intros x Hx. apply Hlr; [done|left].
Qed.

Lemma bst_weak_balance_tree n : bst_weak n -> bst_weak (balance_tree n).
Proof. rewrite !bst_weak_sorted. by rewrite titles_balance_tree. Qed.

Lemma bst_weak_insert n x : bst_weak n -> bst_weak (insert n x).
Proof.
  induction n as [|t h l IHl r IHr].
  - intros _. simpl. repeat split; constructor.
  - intros (Hl & Hr & Sl & Sr). cbn [insert]. apply bst_weak_balance_tree.
    cbn [bst_weak]. destruct (PyStr.lt x t) eqn:E.
    + repeat split; auto.
      rewrite titles_insert_perm. constructor; [by apply PyStr.lt_le|done].
    + repeat split; auto.
      rewrite titles_insert_perm. constructor; [|done].
      unfold PyStr.le. by rewrite E.
Qed.

Lemma bst_weak_fold_insert ts n :
  bst_weak n -> bst_weak (fold_left insert ts n).
Proof.
  revert n. induction ts as [|x ts IH]; intros n Hn; simpl; [done|].
  by apply IH, bst_weak_insert.
Qed.

(** Without repeated titles the weak ordering is the strict one. *)
Lemma bst_weak_strict n : NoDup (titles n) -> bst_weak n -> bst_strict n.
Proof.
  induction n as [|t h l IHl r IHr]; simpl; [done|].
  intros ND (Hl & Hr & Sl & Sr).
  apply NoDup_app in ND as (NDl & Hnot & NDr).
  apply NoDup_cons in NDr as [Ht NDr].
  repeat split; auto.
  apply Forall_forall. intros x Hx.
  rewrite Forall_forall in Hl. specialize (Hl x Hx).
  destruct (PyStr.lt x t) eqn:E; [done|].
  unfold PyStr.le in Hl. apply negb_true_iff in Hl.
  rewrite (PyStr.lt_total _ _ E Hl) in Hx.
  exfalso. apply (Hnot t Hx). left.
Qed.

(** [autocomplete] filters the root-first reading of the tree. *)
Fixpoint preorder (n : node) : list string :=
  match n with
  | ANone => []
  | ANode t _ l r => t :: preorder l ++ preorder r
  end.

Lemma preorder_titles n : preorder n ≡ₚ titles n.
Proof.
  induction n as [|t h l IHl r IHr]; simpl; [done|].
  rewrite IHl, IHr. apply Permutation_middle.
Qed.

Lemma autocomplete_preorder n p :
  autocomplete n p = List.filter (fun t => PyStr.startswith t p) (preorder n).
Proof.
  induction n as [|t h l IHl r IHr]; simpl; [done|].
  rewrite List.filter_app, IHl, IHr. by destruct (PyStr.startswith t p).
Qed.

Lemma filter_perm (f : string -> bool) (l1 l2 : list string) :
  l1 ≡ₚ l2 -> List.filter f l1 ≡ₚ List.filter f l2.
Proof.
  induction 1 as [|x l l' _ IH|x y l|l l' l'' _ IH1 _ IH2]; simpl.
  - done.
  - destruct (f x); [by constructor|done].
  - destruct (f x), (f y); try done. apply perm_swap.
  - by rewrite IH1.
Qed.

(** C3.  For every title tree and every prefix, [autocomplete] returns
    the stored titles that start with the prefix, each as often as it is
    stored, in some order; for the tree built from a pool of titles these
    are the titles of the pool that start with the prefix. *)
Theorem prefix_search_complete :
  (forall (n : node) (prefix : string),
      autocomplete n prefix
      ≡ₚ List.filter (fun t => PyStr.startswith t prefix) (titles n))
  /\ (forall (pool : list string) (prefix : string),
      autocomplete (insert_all pool) prefix
      ≡ₚ List.filter (fun t => PyStr.startswith t prefix) pool).
Proof.
  assert (forall n prefix, autocomplete n prefix
      ≡ₚ List.filter (fun t => PyStr.startswith t prefix) (titles n)) as H.
  { intros n p. rewrite autocomplete_preorder.
    apply filter_perm, preorder_titles. }
  split; [done|]. intros pool p. rewrite H.
  apply filter_perm, titles_insert_all.
Qed.

(** C1, at the titles b, a, d, c, e, f inserted in this order: the stored
    heights are right, and the node d of the result has no left child and
    a right subtree of height 2, so the tree is not balanced. *)
Theorem avl_balance_broken :
  insert_all ["b"; "a"; "d"; "c"; "e"; "f"]%string
  = ANode "c" 4
      (ANode "b" 2 (ANode "a" 1 ANone ANone) ANone)
      (ANode "d" 3 ANone (ANode "e" 2 ANone (ANode "f" 1 ANone ANone)))
  /\ heights_ok (insert_all ["b"; "a"; "d"; "c"; "e"; "f"]%string) = true
  /\ balanced (insert_all ["b"; "a"; "d"; "c"; "e"; "f"]%string) = false
  /\ avl_invariant (insert_all ["b"; "a"; "d"; "c"; "e"; "f"]%string) = false.
Proof. repeat split; vm_compute; reflexivity. Qed.

(** C10 as stated fails: after a, b, a the root a has a left child a. *)
Lemma bst_strict_fails_on_equal_titles :
  ~ bst_strict (insert_all ["a"; "b"; "a"]%string).
Proof.
  vm_compute. intros (H & _). inversion H as [|? ? Hx]. discriminate Hx.
Qed.

(** C10, amended.  After any sequence of inserts every node has only
    titles less than or equal to its own in its left subtree and only
    titles greater than or equal to its own in its right subtree, the
    stored titles are the inserted ones with their multiplicities, and
    when the inserted titles are pairwise different the left subtrees
    are strictly below their nodes. *)
Theorem insert_keeps_order_and_contents (ts : list string) :
  bst_weak (insert_all ts)
  /\ titles (insert_all ts) ≡ₚ ts
  /\ (NoDup ts -> bst_strict (insert_all ts)).
Proof.
  assert (bst_weak (insert_all ts)) as Hw
    by (by apply bst_weak_fold_insert).
  repeat split; [done|apply titles_insert_all|].
  intros ND. apply bst_weak_strict; [|done].
  by rewrite titles_insert_all.
Qed.

Lemma insert_keeps_order_and_contents_witness :
  NoDup ["c"; "b"; "a"; "x"; "y"; "d"]%string
  /\ bst_strict (insert_all ["c"; "b"; "a"; "x"; "y"; "d"]%string).
Proof.
  assert (NoDup ["c"; "b"; "a"; "x"; "y"; "d"]%string) as ND
    by (apply (bool_decide_unpack _); vm_compute; exact I).
  split; [exact ND|].
  exact (proj2 (proj2 (insert_keeps_order_and_contents _)) ND).
Defined.

End AVLFacts.

(** ** Python text primitives used by [src/advanced_search.py] *)

Module PyText.

Definition code (c : ascii) : N := Ascii.N_of_ascii c.

Definition between (lo hi : N) (c : ascii) : bool :=
  ((lo <=? code c) && (code c <=? hi))%N.

Definition is_code (n : N) (c : ascii) : bool := (code c =? n)%N.

(** [str.isspace], which is also the class [\s] of [re] on [str]. *)
Definition is_space (c : ascii) : bool :=
  between 9 13 c || between 28 32 c || is_code 133 c || is_code 160 c.

(** The characters [int] strips from both ends of its argument. *)
Definition is_int_space (c : ascii) : bool :=
  between 9 13 c || is_code 32 c || is_code 133 c || is_code 160 c.

Definition is_digit (c : ascii) : bool := between 48 57 c.

(** The class [\w] of [re] on [str], for code points below 256. *)
Definition is_word (c : ascii) : bool :=
  between 48 57 c || between 65 90 c || is_code 95 c || between 97 122 c
  || is_code 170 c || between 178 179 c || is_code 181 c || between 185 186 c
  || between 188 190 c || between 192 214 c || between 216 246 c
  || between 248 255 c.

(** [str.lower] on one character. *)
Definition lower_char (c : ascii) : ascii :=
  if between 65 90 c || between 192 214 c || between 216 222 c
  then Ascii.ascii_of_N (code c + 32) else c.

(** [s.lower()] *)
Fixpoint lower (s : string) : string :=
  match s with
  | EmptyString => EmptyString
  | String c s' => String (lower_char c) (lower s')
  end.

(** [sub in s] on two [str] *)
Fixpoint contains (s sub : string) : bool :=
  PyStr.startswith s sub
  || match s with
     | EmptyString => false
     | String _ s' => contains s' sub
     end.

(** [s.lstrip()] and [s.strip()], for a given class of blanks. *)
Fixpoint lstrip_with (blank : ascii -> bool) (s : string) : string :=
  match s with
  | EmptyString => EmptyString
  | String c s' => if blank c then lstrip_with blank s' else s
  end.

Fixpoint rstrip_with (blank : ascii -> bool) (s : string) : string :=
  match s with
  | EmptyString => EmptyString
  | String c s' =>
      match rstrip_with blank s' with
      | EmptyString => if blank c then EmptyString else String c EmptyString
      | r => String c r
      end
  end.

Definition strip_with (blank : ascii -> bool) (s : string) : string :=
  rstrip_with blank (lstrip_with blank s).

Definition strip (s : string) : string := strip_with is_space s.

(** The maximal runs of characters of a class, from left to right. *)
Definition flush (cur : string) : list string :=
  match cur with EmptyString => [] | _ => [cur] end.

Fixpoint runs_from (p : ascii -> bool) (s cur : string) : list string :=
  match s with
  | EmptyString => flush cur
  | String c s' =>
      if p c then runs_from p s' (cur ++ String c EmptyString)%string
      else flush cur ++ runs_from p s' EmptyString
  end.

(** [re.findall(r'\b\w+\b', s)]: a match starts where a word character
    follows a non-word character or the start, takes all the word
    characters that follow, and the next search starts behind them. *)
Definition findall_words (s : string) : list string :=
  runs_from is_word s EmptyString.

(** [s.split()] *)
Definition split (s : string) : list string :=
  runs_from (fun c => negb (is_space c)) s EmptyString.

(** [s.split(sep)] for a non-empty separator: [skip] counts the
    characters of a separator still to pass over. *)
Fixpoint split_from (sep s : string) (skip : nat) (cur : string) : list string :=
  match s with
  | EmptyString => [cur]
  | String c s' =>
      match skip with
      | S k => split_from sep s' k cur
      | O =>
          if PyStr.startswith s sep
          then cur :: split_from sep s' (Nat.pred (String.length sep)) EmptyString
          else split_from sep s' O (cur ++ String c EmptyString)%string
      end
  end.

Definition split_on (sep s : string) : list string :=
  split_from sep s O EmptyString.

(** [sep.join(l)] *)
Fixpoint join (sep : string) (l : list string) : string :=
  match l with
  | [] => EmptyString
  | [x] => x
  | x :: l' => (x ++ sep ++ join sep l')%string
  end.

(** [x in l] for a list of [str] *)
Definition mem (x : string) (l : list string) : bool :=
  existsb (String.eqb x) l.

(** *** Values, exceptions and [int] *)

(** The values the fetchers of [src/main.py] store under [year] and
    [citation_count]: [None], an integer, or a string.  [PNone] also
    stands for a missing key, which [paper.get] reads as [None] (year)
    or as 0 (citation count), with the same outcome below. *)
Inductive pyval : Type :=
| PNone : pyval
| PInt (z : Z) : pyval
| PStr (s : string) : pyval.

Inductive exn : Type := ValueError | TypeError | OverflowError.

Inductive result (A : Type) : Type :=
| Ok (a : A) : result A
| Raise (e : exn) : result A.
Arguments Ok {A} a.
Arguments Raise {A} e.

Definition bind {A B} (r : result A) (k : A -> result B) : result B :=
  match r with
  | Ok a => k a
  | Raise e => Raise e
  end.

(** [try: body  except (ValueError, TypeError): return fallback] *)
Definition except_value_type {A} (body : result A) (fallback : A) : result A :=
  match body with
  | Ok a => Ok a
  | Raise ValueError | Raise TypeError => Ok fallback
  | Raise e => Raise e
  end.

(** Decimal digits with single underscores between them. *)
Fixpoint digits_value (s : string) (acc : Z) (after_digit : bool) : option Z :=
  match s with
  | EmptyString => if after_digit then Some acc else None
  | String c s' =>
      if is_digit c
      then digits_value s' (10 * acc + (Z.of_N (code c) - 48)) true
      else if is_code 95 c && after_digit then digits_value s' acc false
      else None
  end.

(** [int(s)] on a [str]: blanks stripped, an optional sign, digits. *)
Definition parse_int (s : string) : option Z :=
  match strip_with is_int_space s with
  | String c s' =>
      if is_code 45 c then Z.opp <$> digits_value s' 0 false
      else if is_code 43 c then digits_value s' 0 false
      else digits_value (String c s') 0 false
  | EmptyString => None
  end.

(** [int(v)] *)
Definition py_int (v : pyval) : result Z :=
  match v with
  | PNone => Raise TypeError
  | PInt z => Ok z
  | PStr s =>
      match parse_int s with
      | Some z => Ok z
      | None => Raise ValueError
      end
  end.

(** [v == s] for a string literal [s] *)
Definition eq_str (v : pyval) (s : string) : bool :=
  match v with
  | PStr t => String.eqb t s
  | _ => false
  end.

(** *** Dates *)

(** A [datetime] is the number of microseconds since 0001-01-01 00:00. *)
Definition us_per_day : Z := 86400000000.

Definition days_before_year (y : Z) : Z :=
  365 * (y - 1) + (y - 1) / 4 - (y - 1) / 100 + (y - 1) / 400.

(** [datetime.max], 9999-12-31 23:59:59.999999 *)
Definition datetime_max : Z := days_before_year 10000 * us_per_day - 1.

(** [datetime(y, 1, 1)]: CPython converts the year to a C [int] first
    ([OverflowError] outside its range) and then checks 1..9999
    ([ValueError]). *)
Definition datetime_jan1 (y : Z) : result Z :=
  if (y <? - 2 ^ 31) || (2 ^ 31 - 1 <? y) then Raise OverflowError
  else if (y <? 1) || (9999 <? y) then Raise ValueError
  else Ok (days_before_year y * us_per_day).

(** [now - timedelta(days=d)]: [OverflowError] when the days exceed
    999999999 in magnitude or the date leaves the years 1..9999. *)
Definition minus_days (now d : Z) : result Z :=
  let r := now - d * us_per_day in
  if (999999999 <? Z.abs d) || (r <? 0) || (datetime_max <? r)
  then Raise OverflowError else Ok r.

End PyText.

(** ** The class [AdvancedSearchEngine] of [src/advanced_search.py] *)

Module Engine.
Import PyText.

(** A paper record, as the fetchers of [src/main.py] build it and as far
    as the engine reads it.  [title] and [authors] are always present;
    the records of this repository carry no [venue], so
    [paper.get('venue', '')] may fall back to the empty string. *)
Record paper : Type := {
  title : string;
  authors : string;
  year : pyval;
  citation_count : pyval;
  venue : option string
}.

(** *** [analyze_query] *)

Definition is_dquote (c : ascii) : bool := is_code 34 c.
Definition is_colon (c : ascii) : bool := is_code 58 c.

Definition snoc (s : string) (c : ascii) : string :=
  (s ++ String c EmptyString)%string.

(** [re.findall] with the pattern for quoted phrases: a double quote, any
    characters other than a double quote (the group), a double quote.
    [open] holds the text read since an opening quote.  An opening quote
    with no closing quote behind it starts no match, and no later
    position can. *)
Fixpoint findall_quoted (s : string) (open : option string) : list string :=
  match s with
  | EmptyString => []
  | String c s' =>
      match open with
      | None =>
          if is_dquote c then findall_quoted s' (Some EmptyString)
          else findall_quoted s' None
      | Some cur =>
          if is_dquote c then cur :: findall_quoted s' None
          else findall_quoted s' (Some (snoc cur c))
      end
  end.

(** [re.sub] with the same pattern and the empty replacement.  [held] is
    the text from an opening quote on, dropped when the closing quote
    comes and kept otherwise. *)
Fixpoint sub_quoted (s : string) (held : option string) : string :=
  match s with
  | EmptyString => default EmptyString held
  | String c s' =>
      match held with
      | None =>
          if is_dquote c then sub_quoted s' (Some (String c EmptyString))
          else String c (sub_quoted s' None)
      | Some h =>
          if is_dquote c then sub_quoted s' None
          else sub_quoted s' (Some (snoc h c))
      end
  end.

(** The scanner state for [(\w+):([^\s]+)]: reading a word that may turn
    out to be a field name, or reading the value of a field. *)
Inductive field_state : Type :=
| InWord (word : string)
| InValue (field value : string).

(** A colon starts a value when a word stands before it and a character
    that is not a blank follows it. *)
Definition value_follows (word rest : string) : bool :=
  match word, rest with
  | String _ _, String d _ => negb (is_space d)
  | _, _ => false
  end.

(** [re.findall(r'(\w+):([^\s]+)', s)].  The leftmost match takes the
    whole run of word characters before the colon and every character up
    to the next blank behind it. *)
Fixpoint findall_fields (s : string) (st : field_state) : list (string * string) :=
  match s with
  | EmptyString =>
      match st with
      | InValue f v => [(f, v)]
      | InWord _ => []
      end
  | String c s' =>
      match st with
      | InValue f v =>
          if is_space c then (f, v) :: findall_fields s' (InWord EmptyString)
          else findall_fields s' (InValue f (snoc v c))
      | InWord w =>
          if is_word c then findall_fields s' (InWord (snoc w c))
          else if is_colon c && value_follows w s'
               then findall_fields s' (InValue w EmptyString)
               else findall_fields s' (InWord EmptyString)
      end
  end.

(** [re.sub(r'(\w+):([^\s]+)', '', s)] *)
Fixpoint sub_fields (s : string) (st : field_state) : string :=
  match s with
  | EmptyString =>
      match st with
      | InValue _ _ => EmptyString
      | InWord w => w
      end
  | String c s' =>
      match st with
      | InValue f v =>
          if is_space c then String c (sub_fields s' (InWord EmptyString))
          else sub_fields s' (InValue f (snoc v c))
      | InWord w =>
          if is_word c then sub_fields s' (InWord (snoc w c))
          else if is_colon c && value_follows w s'
               then sub_fields s' (InValue w EmptyString)
               else (w ++ String c (sub_fields s' (InWord EmptyString)))%string
      end
  end.

Definition operator_words : list string := ["and"; "or"; "not"]%string.

(** [re.findall(r'\b(AND|OR|NOT)\b', s, re.IGNORECASE)]: the words of
    [s] that are one of the three operators in any case. *)
Definition findall_operators (s : string) : list string :=
  List.filter (fun w => mem (lower w) operator_words) (findall_words s).

Record analysis : Type := {
  keywords : list string;
  quoted_phrases : list string;
  boolean_operators : list string;
  field_queries : gmap string string;
  intent : string
}.

(** [any(word in keywords for word in words)] *)
Definition any_in (words keywords : list string) : bool :=
  existsb (fun word => mem word keywords) words.

Definition analyze_query (query : string) : analysis :=
  let quotes := findall_quoted query None in
  let clean_query := sub_quoted query None in
  let field_matches := findall_fields clean_query (InWord EmptyString) in
  let fields :=
    fold_left (fun d fv => <[lower (fst fv) := snd fv]> d) field_matches ∅ in
  let clean_query := sub_fields clean_query (InWord EmptyString) in
  let boolean_ops := findall_operators clean_query in
  let keywords :=
    List.filter (fun k => negb (mem k operator_words))
      (findall_words (lower clean_query)) in
  let intent :=
    if any_in ["survey"; "review"; "overview"]%string keywords then "survey"
    else if any_in ["method"; "algorithm"; "technique"]%string keywords
         then "methodology"
    else if any_in ["dataset"; "data"; "benchmark"]%string keywords
         then "dataset"
    else "general" in
  {| keywords := keywords;
     quoted_phrases := quotes;
     boolean_operators := boolean_ops;
     field_queries := fields;
     intent := intent%string |}.

(** *** [suggest_related_queries] *)

(** [word_freq[word] += 1] on a [defaultdict(int)]: a dictionary keeps
    its keys in the order of their first insertion. *)
Fixpoint increment (d : list (string * Z)) (word : string) : list (string * Z) :=
  match d with
  | [] => [(word, 1)]
  | (k, n) :: d' =>
      if String.eqb k word then (k, n + 1) :: d'
      else (k, n) :: increment d' word
  end.

Definition stoplist : list string :=
  ["paper"; "study"; "research"; "analysis"]%string.

(** The test of the counting loop. *)
Definition counted (word : string) : bool :=
  (3 <? String.length word)%nat && negb (mem word stoplist).

Definition count_words (words : list string) : list (string * Z) :=
  fold_left (fun d w => if counted w then increment d w else d) words [].

(** [sorted(items, key=lambda x: x[1], reverse=True)]: the sort is
    stable, also in reverse, so equal counts keep their order. *)
Fixpoint insert_desc (x : string * Z) (l : list (string * Z)) : list (string * Z) :=
  match l with
  | [] => [x]
  | y :: l' => if snd y <? snd x then x :: l else y :: insert_desc x l'
  end.

Definition sorted_desc (l : list (string * Z)) : list (string * Z) :=
  fold_left (fun acc x => insert_desc x acc) l [].

Definition suggest_related_queries (query : string) (papers : list paper)
  : list string :=
  let all_text := join " " (map title papers) in
  let words := findall_words (lower all_text) in
  let word_freq := count_words words in
  let query_words := split (lower query) in
  let top_words := take 10 (sorted_desc word_freq) in
  let suggestions :=
    fold_left
      (fun acc wf =>
         if negb (mem (fst wf) query_words) && (1 <? snd wf)
         then acc ++ [(query ++ " " ++ fst wf)%string] else acc)
      top_words [] in
  take 5 suggestions.

(** *** [smart_autocomplete] and [filter_papers_advanced] *)

(** The configuration of [filter_papers_advanced]: a missing key is
    [None].  [title_keywords] is one string of keywords separated by
    commas; a [citation_range] holds its optional [min] and [max]. *)
Record citation_bounds : Type := {
  range_min : option Z;
  range_max : option Z
}.

Record filters : Type := {
  author_name : option string;
  title_keywords : option string;
  citation_range : option citation_bounds;
  venue_query : option string;
  recency_days : option Z
}.

(** [_get_citation_count(paper)] *)
Definition _get_citation_count (p : paper) : result Z :=
  let citations := citation_count p in
  if eq_str citations "Citation Count Not Available" then Ok 0
  else except_value_type (py_int citations) 0.

(** [_is_recent_paper(paper, cutoff_date)] *)
Definition _is_recent_paper (p : paper) (cutoff_date : Z) : result bool :=
  let year := year p in
  if eq_str year "Year Not Available" then Ok false
  else
    except_value_type
      (bind (py_int year) (fun y =>
       bind (datetime_jan1 y) (fun paper_date =>
       Ok (cutoff_date <=? paper_date))))
      false.

(** [[p for p in papers if test(p)]] with a test that may raise. *)
Fixpoint select (test : paper -> result bool) (papers : list paper)
  : result (list paper) :=
  match papers with
  | [] => Ok []
  | p :: rest =>
      bind (test p) (fun keep =>
      bind (select test rest) (fun rest' =>
      Ok (if keep then p :: rest' else rest')))
  end.

(** The truth value of a string: it is not empty. *)
Definition truthy (s : string) : bool :=
  match s with EmptyString => false | _ => true end.

Section Libraries.

(** [difflib.SequenceMatcher(None, a, b).ratio()] *)
Variable ratio : string -> string -> Q.

(** [difflib.get_close_matches(word, possibilities, n, cutoff)] *)
Variable get_close_matches : string -> list string -> nat -> Q -> list string.

(** [datetime.now()] *)
Variable now : Z.

Definition smart_autocomplete (prefix : string) (paper_titles : list string)
    (search_history : list string) : list string :=
  let title_matches :=
    List.filter (fun title => PyStr.startswith (lower title) (lower prefix))
      paper_titles in
  let suggestions := take 3 title_matches in
  let fuzzy_matches := get_close_matches prefix paper_titles 3%nat (6 # 10) in
  let suggestions := suggestions ++ fuzzy_matches in
  let history_matches :=
    List.filter (fun query => contains (lower query) (lower prefix))
      search_history in
  let suggestions := suggestions ++ take 2 history_matches in
  let '(seen, unique_suggestions) :=
    fold_left
      (fun (st : gset string * list string) suggestion =>
         if bool_decide (suggestion ∈ st.1) then st
         else ({[suggestion]} ∪ st.1, st.2 ++ [suggestion]))
      suggestions (∅, []) in
  take 8 unique_suggestions.

(** The five narrowing steps of [filter_papers_advanced], each with the
    test that guards it. *)
Definition author_filter (f : filters) (papers : list paper) : result (list paper) :=
  match author_name f with
  | Some name =>
      if truthy name then
        let author_query := lower name in
        Ok (List.filter
              (fun p =>
                 existsb
                   (fun author =>
                      negb (Qle_bool (ratio author_query (lower author)) (7 # 10)))
                   (split_on ", " (authors p)))
              papers)
      else Ok papers
  | None => Ok papers
  end.

Definition title_filter (f : filters) (papers : list paper) : result (list paper) :=
  match title_keywords f with
  | Some kws =>
      if truthy kws then
        let keywords := map (fun kw => lower (strip kw)) (split_on "," kws) in
        Ok (List.filter
              (fun p => existsb (fun keyword => contains (lower (title p)) keyword)
                          keywords)
              papers)
      else Ok papers
  | None => Ok papers
  end.

Definition within (lo : Z) (hi : option Z) (n : Z) : bool :=
  (lo <=? n) && match hi with Some h => n <=? h | None => true end.

Definition citation_filter (f : filters) (papers : list paper) : result (list paper) :=
  match citation_range f with
  | Some range =>
      let min_cit := default 0 (range_min range) in
      let max_cit := range_max range in
      select
        (fun p =>
           bind (_get_citation_count p) (fun n =>
           if min_cit <=? n
           then bind (_get_citation_count p) (fun n' =>
                Ok match max_cit with Some h => n' <=? h | None => true end)
           else Ok false))
        papers
  | None => Ok papers
  end.

Definition venue_filter (f : filters) (papers : list paper) : result (list paper) :=
  match venue_query f with
  | Some v =>
      if truthy v then
        let venue_query := lower v in
        Ok (List.filter
              (fun p => contains (lower (default EmptyString (venue p))) venue_query)
              papers)
      else Ok papers
  | None => Ok papers
  end.

Definition recency_filter (f : filters) (papers : list paper) : result (list paper) :=
  match recency_days f with
  | Some days =>
      if days =? 0 then Ok papers
      else
        bind (minus_days now days) (fun cutoff_date =>
        select (fun p => _is_recent_paper p cutoff_date) papers)
  | None => Ok papers
  end.

(** Narrowing steps applied one after the other. *)
Definition narrow (steps : list (list paper -> result (list paper)))
    (papers : list paper) : result (list paper) :=
  fold_left bind steps (Ok papers).

Definition steps_in_source_order (f : filters)
  : list (list paper -> result (list paper)) :=
  [author_filter f; title_filter f; citation_filter f; venue_filter f;
   recency_filter f].

Definition filter_papers_advanced (papers : list paper) (f : filters)
  : result (list paper) :=
  narrow (steps_in_source_order f) papers.

End Libraries.

End Engine.

(** ** Properties of the search engine *)

Module EngineFacts.
Import PyText Engine.

(** The query of the specification's example: author:smith, then the
    phrase deep learning between double quotes, then AND survey. *)
Definition dquote : string := String (Ascii.ascii_of_nat 34) EmptyString.

Definition example_query : string :=
  ("author:smith " ++ dquote ++ "deep learning" ++ dquote ++ " AND survey")%string.

(** C6.  On the example query [analyze_query] finds the one quoted
    phrase, the field author with value smith, the operator AND, the
    keyword survey without the word and, and the intent survey. *)
Theorem analyze_query_example :
  let a := analyze_query example_query in
  quoted_phrases a = ["deep learning"%string]
  /\ field_queries a = {[ "author"%string := "smith"%string ]}
  /\ boolean_operators a = ["AND"%string]
  /\ ("survey"%string ∈ keywords a)
  /\ ("and"%string ∉ keywords a)
  /\ intent a = "survey"%string.
Proof.
  assert (keywords (analyze_query example_query) = ["survey"%string]) as Hk
    by (vm_compute; reflexivity).
  cbv zeta. rewrite Hk. repeat split; try (vm_compute; reflexivity).
  - apply list_elem_of_singleton. reflexivity.
  - intros H. apply list_elem_of_singleton in H. discriminate H.
Qed.

(** *** Autocomplete *)

(** A sequence with the later duplicates of every entry dropped. *)
Fixpoint first_seen (l : list string) : list string :=
  match l with
  | [] => []
  | x :: l' => x :: List.filter (fun y => negb (String.eqb y x)) (first_seen l')
  end.

Definition unseen (seen : gset string) (y : string) : bool :=
  negb (bool_decide (y ∈ seen)).

Definition dedup_step (st : gset string * list string) (suggestion : string)
  : gset string * list string :=
  if bool_decide (suggestion ∈ st.1) then st
  else ({[suggestion]} ∪ st.1, st.2 ++ [suggestion]).

Lemma filter_filter_bool (f g : string -> bool) l :
  List.filter f (List.filter g l) = List.filter (fun y => g y && f y) l.
Proof.
  induction l as [|x l IH]; simpl; [done|].
  destruct (g x); simpl; [destruct (f x)|]; by rewrite ?IH.
Qed.

Lemma dedup_loop l seen acc :
  (fold_left dedup_step l (seen, acc)).2
  = acc ++ List.filter (unseen seen) (first_seen l).
Proof.
  revert seen acc. induction l as [|x l IH]; intros seen acc; simpl.
  - by rewrite app_nil_r.
  - unfold dedup_step at 2. simpl. unfold unseen at 1.
    destruct (bool_decide (x ∈ seen)) eqn:E; simpl.
    + rewrite IH. f_equal. rewrite filter_filter_bool.
      apply List.filter_ext. intros y. unfold unseen.
      destruct (String.eqb_spec y x) as [Heq|Hne]; [by rewrite Heq, E|done].
    + rewrite IH, <- app_assoc. simpl. do 2 f_equal.
      rewrite filter_filter_bool. apply List.filter_ext. intros y.
      unfold unseen. apply bool_decide_eq_false in E.
      destruct (String.eqb_spec y x) as [->|Hne]; simpl.
      * apply negb_false_iff, bool_decide_eq_true. set_solver.
      * f_equal. apply bool_decide_ext.
        rewrite elem_of_union, elem_of_singleton. tauto.
Qed.

Lemma elem_of_list_filter_bool (f : string -> bool) l x :
  x ∈ List.filter f l <-> x ∈ l /\ f x = true.
Proof. rewrite !list_elem_of_In. apply List.filter_In. Qed.

Lemma NoDup_list_filter_bool (f : string -> bool) l :
  NoDup l -> NoDup (List.filter f l).
Proof.
  induction 1 as [|x l Hx ND IH]; simpl; [constructor|].
  destruct (f x); [|done]. constructor; [|done].
  rewrite elem_of_list_filter_bool. tauto.
Qed.

Lemma first_seen_NoDup l : NoDup (first_seen l).
Proof.
  induction l as [|x l IH]; simpl; constructor.
  - rewrite elem_of_list_filter_bool. intros [_ H].
    by rewrite String.eqb_refl in H.
  - by apply NoDup_list_filter_bool.
Qed.

Lemma first_seen_elem l x : x ∈ first_seen l <-> x ∈ l.
Proof.
  induction l as [|y l IH]; simpl; [done|].
  rewrite !elem_of_cons, elem_of_list_filter_bool, IH.
  destruct (String.eqb_spec x y) as [->|Hne]; simpl; [tauto|].
  split; [tauto|]. intros [?|?]; [done|]. by right.
Qed.

Lemma list_filter_sublist (f : string -> bool) l : sublist (List.filter f l) l.
Proof.
  induction l as [|x l IH]; simpl; [done|].
  destruct (f x); by constructor.
Qed.

(** The entries that survive stand in the order of the input. *)
Lemma first_seen_sublist l : sublist (first_seen l) l.
Proof.
  induction l as [|x l IH]; simpl; [done|].
  constructor. etrans; [apply list_filter_sublist|done].
Qed.

(** C7.  For every prefix, pool and history, whatever the fuzzy matcher
    returns: the suggestions are the first 8 entries of the candidates
    with later duplicates dropped, the candidates being the first 3 pool
    titles whose lowercase form starts with the lowercase prefix, then
    the fuzzy matches asked for with n = 3 and cutoff 0.6, then the
    first 2 history entries whose lowercase form contains the lowercase
    prefix.  So they are at most 8, without duplicates, in the order of
    their first occurrence among the candidates. *)
Theorem smart_autocomplete_spec
    (get_close_matches : string -> list string -> nat -> Q -> list string)
    (prefix : string) (paper_titles search_history : list string) :
  let candidates :=
    take 3 (List.filter
              (fun t => PyStr.startswith (lower t) (lower prefix)) paper_titles)
    ++ get_close_matches prefix paper_titles 3%nat (6 # 10)
    ++ take 2 (List.filter
                 (fun q => contains (lower q) (lower prefix)) search_history) in
  let out :=
    smart_autocomplete get_close_matches prefix paper_titles search_history in
  out = take 8 (first_seen candidates)
  /\ (length out <= 8)%nat
  /\ NoDup out
  /\ sublist out candidates
  /\ (forall x, x ∈ out -> x ∈ candidates).
Proof.
  intros candidates out.
  assert (out = take 8 (first_seen candidates)) as ->.
  { unfold out, smart_autocomplete.
    change (fun (st : gset string * list string) suggestion => _) with dedup_step.
    rewrite <- app_assoc. fold candidates.
    pose proof (dedup_loop candidates ∅ []) as H.
    destruct (fold_left dedup_step candidates (∅, [])) as [seen uniq].
    simpl in H. rewrite H. f_equal.
    clear. induction (first_seen candidates) as [|y l IH]; simpl; [done|].
    by rewrite IH. }
  assert (sublist (take 8 (first_seen candidates)) candidates) as Hs.
  { etrans; [apply sublist_take|apply first_seen_sublist]. }
  repeat split; try done.
  - rewrite length_take. lia.
  - eapply sublist_NoDup; [apply first_seen_NoDup|apply sublist_take].
  - intros x Hx. by eapply elem_of_sublist.
Qed.

(** *** Related queries *)

(** The words of all titles that the counting loop counts. *)
Definition counted_words (papers : list paper) : list string :=
  List.filter counted (findall_words (lower (join " " (map title papers)))).

(** How often a word occurs in a list. *)
Definition occurrences (l : list string) (w : string) : Z :=
  Z.of_nat (length (List.filter (String.eqb w) l)).

Definition frequency (papers : list paper) (w : string) : Z :=
  occurrences (counted_words papers) w.

(** The claim read literally: first keep the words outside the query
    with a count above 1, then take the 10 most frequent of them. *)
Definition suggest_related_as_claimed (query : string) (papers : list paper)
  : list string :=
  let ranked :=
    sorted_desc (count_words (findall_words (lower (join " " (map title papers))))) in
  let query_words := split (lower query) in
  let eligible :=
    List.filter (fun wf => negb (mem (fst wf) query_words) && (1 <? snd wf))
      ranked in
  take 5 (map (fun wf => (query ++ " " ++ fst wf)%string) (take 10 eligible)).

Definition eleven_words : string :=
  "alpha bravo charlie delta echoes foxtrot golfs hotel india juliet kilos".

Definition two_papers : list paper :=
  [ {| title := eleven_words; authors := EmptyString; year := PNone;
       citation_count := PNone; venue := None |};
    {| title := eleven_words; authors := EmptyString; year := PNone;
       citation_count := PNone; venue := None |} ].

(** C5 as stated fails: eleven words occur twice each, the query holds
    six of the ten that rank first, and the code answers with the four
    others of these ten; the five words outside the query are not all
    used. *)
Lemma suggest_related_takes_ten_first :
  suggest_related_queries "alpha bravo charlie delta echoes foxtrot" two_papers
  = [ "alpha bravo charlie delta echoes foxtrot golfs";
      "alpha bravo charlie delta echoes foxtrot hotel";
      "alpha bravo charlie delta echoes foxtrot india";
      "alpha bravo charlie delta echoes foxtrot juliet" ]%string
  /\ suggest_related_as_claimed "alpha bravo charlie delta echoes foxtrot" two_papers
     = [ "alpha bravo charlie delta echoes foxtrot golfs";
         "alpha bravo charlie delta echoes foxtrot hotel";
         "alpha bravo charlie delta echoes foxtrot india";
         "alpha bravo charlie delta echoes foxtrot juliet";
         "alpha bravo charlie delta echoes foxtrot kilos" ]%string
  /\ suggest_related_queries "alpha bravo charlie delta echoes foxtrot" two_papers
     <> suggest_related_as_claimed "alpha bravo charlie delta echoes foxtrot" two_papers.
Proof. repeat split; try (vm_compute; reflexivity). vm_compute. discriminate. Qed.

Lemma occurrences_snoc l x w :
  occurrences (l ++ [x]) w
  = occurrences l w + (if String.eqb w x then 1 else 0).
Proof.
  unfold occurrences. rewrite List.filter_app, length_app. simpl.
  destruct (String.eqb w x); simpl; lia.
Qed.

Lemma occurrences_pos l w : w ∈ l -> 0 < occurrences l w.
Proof.
  unfold occurrences. intros H.
  assert (w ∈ List.filter (String.eqb w) l) as H'.
  { apply elem_of_list_filter_bool. by rewrite String.eqb_refl. }
  destruct (List.filter (String.eqb w) l); [by apply elem_of_nil in H'|].
  simpl. lia.
Qed.

Lemma occurrences_zero l w : w ∉ l -> occurrences l w = 0.
Proof.
  unfold occurrences. intros H.
  destruct (List.filter (String.eqb w) l) as [|y l'] eqn:E; [done|].
  assert (y ∈ List.filter (String.eqb w) l) as H' by (rewrite E; left).
  apply elem_of_list_filter_bool in H' as [Hy Hw].
  apply String.eqb_eq in Hw as ->. done.
Qed.

(** The keys of the dictionary after [word_freq[word] += 1]. *)
Lemma increment_keys d x :
  (increment d x).*1 = if bool_decide (x ∈ d.*1) then d.*1 else d.*1 ++ [x].
Proof.
  induction d as [|[k n] d IH]; [done|]. cbn [increment].
  destruct (String.eqb_spec k x) as [->|Hne]; rewrite !fmap_cons; cbn [fst].
  - rewrite bool_decide_eq_true_2; [done|left].
  - rewrite IH. destruct (bool_decide (x ∈ d.*1)) eqn:E.
    + apply bool_decide_eq_true in E.
      rewrite bool_decide_eq_true_2; [done|by right].
    + apply bool_decide_eq_false in E.
      rewrite bool_decide_eq_false_2; [done|].
      rewrite elem_of_cons. intros [?|?]; [by subst|done].
Qed.

(** Its entries. *)
Lemma increment_elem d x w n :
  NoDup d.*1 ->
  (w, n) ∈ increment d x
  <-> (w <> x /\ (w, n) ∈ d)
      \/ (w = x /\ ((x, n - 1) ∈ d \/ ((x ∉ d.*1) /\ n = 1))).
Proof.
  induction d as [|[k m] d IH]; cbn [increment]; rewrite ?fmap_cons;
    cbn [fst]; intros ND.
  - rewrite list_elem_of_singleton, !elem_of_nil, pair_equal_spec.
    pose proof (not_elem_of_nil x). intuition (subst; done).
  - apply NoDup_cons in ND as [Hk ND]. specialize (IH ND).
    assert (forall j, (k, j) ∉ d) as Hk'.
    { intros j Hj. apply Hk, list_elem_of_fmap. by exists (k, j). }
    destruct (String.eqb_spec k x) as [->|Hne].
    + rewrite !elem_of_cons, !pair_equal_spec.
      pose proof (Hk' n). pose proof (Hk' (n - 1)).
      destruct (decide (w = x)) as [->|Hne]; [|intuition (subst; done)].
      split; [|intuition (subst; try done; lia)].
      intros [[_ ->]|?]; [|done]. right. split; [done|]. left. left.
      split; [done|lia].
    + rewrite !elem_of_cons, IH, !pair_equal_spec.
      destruct (decide (w = x)) as [->|Hne']; intuition (subst; done).
Qed.

(** The dictionary of the counting loop holds every counted word once,
    with the number of its occurrences. *)
Definition counts_of (d : list (string * Z)) (seen : list string) : Prop :=
  NoDup d.*1
  /\ forall w n, (w, n) ∈ d <-> w ∈ seen /\ n = occurrences seen w.

Lemma counts_of_keys d seen w : counts_of d seen -> w ∈ d.*1 <-> w ∈ seen.
Proof.
  intros [_ H]. rewrite list_elem_of_fmap. split.
  - intros ([k n] & -> & Hin). by apply H in Hin as [? _].
  - intros Hw. exists (w, occurrences seen w). split; [done|]. by apply H.
Qed.

Lemma counts_of_increment d seen x :
  counts_of d seen -> counts_of (increment d x) (seen ++ [x]).
Proof.
  intros Hc. pose proof Hc as [ND H]. split.
  - rewrite increment_keys. case_bool_decide as Hx; [done|].
    apply NoDup_app. repeat split; [done| |apply NoDup_singleton].
    intros y Hy Hy'. apply list_elem_of_singleton in Hy' as ->. done.
  - intros w n. rewrite increment_elem by done.
    rewrite elem_of_app, list_elem_of_singleton, occurrences_snoc, !H.
    rewrite (counts_of_keys d seen x Hc).
    destruct (String.eqb_spec w x) as [->|Hne].
    + split.
      * intros [[? _]|[_ [[Hx Hn]|[Hx ->]]]]; [done| |].
        -- split; [by left|lia].
        -- split; [by right|]. rewrite occurrences_zero by done. lia.
      * intros [_ ->]. right. split; [done|].
        destruct (decide (x ∈ seen)) as [Hx|Hx].
        -- left. split; [done|lia].
        -- right. split; [done|]. rewrite occurrences_zero by done. lia.
    + split.
      * intros [[_ [Hw ->]]|[? _]]; [|done]. split; [by left|lia].
      * intros [[Hw|?] ->]; [|done]. left. split; [done|]. split; [done|lia].
Qed.

Lemma count_words_counts words :
  counts_of (count_words words) (List.filter counted words).
Proof.
  unfold count_words. induction words as [|x words IH] using rev_ind.
  - split; [constructor|]. intros w n. simpl. split.
    + intros H. by apply elem_of_nil in H.
    + intros [H _]. by apply elem_of_nil in H.
  - rewrite fold_left_app, List.filter_app. simpl.
    destruct (counted x); [by apply counts_of_increment|].
    by rewrite app_nil_r.
Qed.

(** The larger count first. *)
Definition count_ge (a b : string * Z) : Prop := snd b <= snd a.

Lemma insert_desc_perm x l : insert_desc x l ≡ₚ x :: l.
Proof.
  induction l as [|y l IH]; simpl; [done|].
  destruct (snd y <? snd x); [done|]. rewrite IH. apply Permutation_swap.
Qed.

Lemma insert_desc_sorted x l :
  StronglySorted count_ge l -> StronglySorted count_ge (insert_desc x l).
Proof.
  induction 1 as [|y l Hs IH Hy]; simpl; [repeat constructor|].
  destruct (Z.ltb_spec (snd y) (snd x)) as [Hlt|Hge].
  - constructor; [by constructor|]. constructor; [unfold count_ge; lia|].
    eapply Forall_impl; [exact Hy|]. unfold count_ge. intros z ?. lia.
  - constructor; [done|]. rewrite insert_desc_perm. by constructor.
Qed.

Lemma sorted_desc_from l acc :
  StronglySorted count_ge acc ->
  fold_left (fun acc x => insert_desc x acc) l acc ≡ₚ l ++ acc
  /\ StronglySorted count_ge (fold_left (fun acc x => insert_desc x acc) l acc).
Proof.
  revert acc. induction l as [|x l IH]; intros acc Hs; simpl; [done|].
  destruct (IH (insert_desc x acc) (insert_desc_sorted x acc Hs)) as [Hp Hs'].
  split; [|done]. rewrite Hp, insert_desc_perm. by rewrite Permutation_middle.
Qed.

Lemma sorted_desc_perm l : sorted_desc l ≡ₚ l.
Proof.
  unfold sorted_desc.
  destruct (sorted_desc_from l [] (SSorted_nil _)) as [Hp _].
  by rewrite Hp, app_nil_r.
Qed.

Lemma sorted_desc_sorted l : StronglySorted count_ge (sorted_desc l).
Proof. apply (sorted_desc_from l [] (SSorted_nil _)). Qed.

(** The loop that builds the suggestions is a filter and a map. *)
Lemma collect_loop {A B} (keep : A -> bool) (g : A -> B) l acc :
  fold_left (fun acc a => if keep a then acc ++ [g a] else acc) l acc
  = acc ++ map g (List.filter keep l).
Proof.
  revert acc. induction l as [|a l IH]; intros acc; simpl.
  - by rewrite app_nil_r.
  - rewrite IH. destruct (keep a); [|done]. by rewrite <- app_assoc.
Qed.

Lemma filter_pairs_words (keep : string -> Z -> bool) (freq : string -> Z)
    (g : string -> string) (l : list (string * Z)) :
  Forall (fun wf => snd wf = freq (fst wf)) l ->
  map (fun wf => g (fst wf)) (List.filter (fun wf => keep (fst wf) (snd wf)) l)
  = map g (List.filter (fun w => keep w (freq w)) l.*1).
Proof.
  induction 1 as [|[w n] l Hw _ IH]; [done|]. simpl in Hw. subst n.
  rewrite fmap_cons. simpl. destruct (keep w (freq w)); simpl; by rewrite IH.
Qed.

Lemma sorted_fst (freq : string -> Z) (l : list (string * Z)) :
  Forall (fun wf => snd wf = freq (fst wf)) l ->
  StronglySorted count_ge l ->
  StronglySorted (fun a b => freq b <= freq a) l.*1.
Proof.
  intros Hf Hs. induction Hs as [|[w n] l Hs IH Hall]; [constructor|].
  apply Forall_cons in Hf as [Hw Hf]. simpl in Hw. subst n.
  rewrite fmap_cons. constructor; [by apply IH|].
  apply Forall_fmap. rewrite Forall_forall in Hall, Hf.
  apply Forall_forall. intros [v m] Hv. specialize (Hall _ Hv).
  specialize (Hf _ Hv). unfold count_ge in Hall. simpl in *. lia.
Qed.

(** C5, amended.  The words of all titles longer than 3 characters and
    outside the stoplist are ranked by their number of occurrences, the
    most frequent first; the first 10 of this ranking are taken, those of
    them outside the word set of the query with more than one occurrence
    are kept, each gives the suggestion made of the query, a blank and
    the word, in the order of the ranking, and at most 5 are returned. *)
Theorem suggest_related_ranks_then_filters (query : string) (papers : list paper) :
  exists ranked : list string,
    NoDup ranked
    /\ (forall w, w ∈ ranked <-> w ∈ counted_words papers)
    /\ StronglySorted
         (fun a b => frequency papers b <= frequency papers a) ranked
    /\ suggest_related_queries query papers
       = take 5
           (map (fun w => (query ++ " " ++ w)%string)
              (List.filter
                 (fun w => negb (mem w (split (lower query)))
                           && (1 <? frequency papers w))
                 (take 10 ranked)))
    /\ (length (suggest_related_queries query papers) <= 5)%nat.
Proof.
  set (words := findall_words (lower (join " " (map title papers)))).
  pose proof (count_words_counts words) as Hc.
  fold (counted_words papers) in Hc.
  set (d := count_words words) in *.
  assert (Forall (fun wf => snd wf = frequency papers (fst wf)) (sorted_desc d))
    as Hfreq.
  { apply Forall_forall. intros [w n] Hw. rewrite sorted_desc_perm in Hw.
    apply Hc in Hw as [_ ->]. done. }
  exists (sorted_desc d).*1. repeat split.
  - rewrite sorted_desc_perm. apply Hc.
  - rewrite sorted_desc_perm. by apply counts_of_keys.
  - rewrite sorted_desc_perm. by apply counts_of_keys.
  - apply sorted_fst; [done|apply sorted_desc_sorted].
  - unfold suggest_related_queries. fold words. fold d.
    rewrite (collect_loop
               (fun wf => negb (mem (fst wf) (split (lower query))) && (1 <? snd wf))
               (fun wf => (query ++ " " ++ fst wf)%string)).
    simpl. f_equal. rewrite <- fmap_take.
    apply (filter_pairs_words
             (fun w n => negb (mem w (split (lower query))) && (1 <? n))
             (frequency papers) (fun w => (query ++ " " ++ w)%string)).
    by apply Forall_take.
  - unfold suggest_related_queries. rewrite length_take. lia.
Qed.

(** *** Advanced filtering *)

(** [int] raises nothing but [ValueError] and [TypeError]. *)
Lemma py_int_raises v e : py_int v = Raise e -> e = ValueError \/ e = TypeError.
Proof.
  destruct v as [|z|s]; simpl; [intros [= <-]; by right|done|].
  destruct (parse_int s); [done|]. intros [= <-]. by left.
Qed.

(** The citation count as a number: [_get_citation_count] always
    returns one. *)
Definition citations (p : paper) : Z :=
  match _get_citation_count p with
  | Ok n => n
  | Raise _ => 0
  end.

Lemma _get_citation_count_returns p : _get_citation_count p = Ok (citations p).
Proof.
  unfold citations, _get_citation_count.
  destruct (eq_str (citation_count p) _); [done|].
  destruct (py_int (citation_count p)) as [n|e] eqn:E; [done|].
  by destruct (py_int_raises _ _ E) as [-> | ->].
Qed.

(** What [_is_recent_paper] raises is an [OverflowError]. *)
Lemma _is_recent_paper_raises p cutoff e :
  _is_recent_paper p cutoff = Raise e -> e = OverflowError.
Proof.
  unfold _is_recent_paper. destruct (eq_str (year p) _); [done|].
  destruct (py_int (year p)) as [y|e'] eqn:E; simpl.
  - unfold datetime_jan1.
    destruct (_ || _); simpl; [by intros [= <-]|]. by destruct (_ || _).
  - by destruct (py_int_raises _ _ E) as [-> | ->].
Qed.

Section Filtering.

Variable ratio : string -> string -> Q.
Variable now : Z.
Variable f : filters.

(** The five predicates; each holds of every paper when its
    configuration field is missing, an empty string, or zero days. *)
Definition author_test (p : paper) : bool :=
  match author_name f with
  | Some name =>
      if truthy name then
        existsb
          (fun author =>
             negb (Qle_bool (ratio (lower name) (lower author)) (7 # 10)))
          (split_on ", " (authors p))
      else true
  | None => true
  end.

Definition title_test (p : paper) : bool :=
  match title_keywords f with
  | Some kws =>
      if truthy kws then
        existsb (fun keyword => contains (lower (title p)) keyword)
          (map (fun kw => lower (strip kw)) (split_on "," kws))
      else true
  | None => true
  end.

(** A citation range that is present is always applied: its minimum
    defaults to 0 and its maximum to no bound. *)
Definition citation_test (p : paper) : bool :=
  match citation_range f with
  | Some range =>
      (default 0 (range_min range) <=? citations p)
      && match range_max range with
         | Some h => citations p <=? h
         | None => true
         end
  | None => true
  end.

Definition venue_test (p : paper) : bool :=
  match venue_query f with
  | Some v =>
      if truthy v then
        contains (lower (default EmptyString (venue p))) (lower v)
      else true
  | None => true
  end.

Definition recency_test (p : paper) : bool :=
  match recency_days f with
  | Some days =>
      if days =? 0 then true
      else
        match minus_days now days with
        | Ok cutoff =>
            match _is_recent_paper p cutoff with
            | Ok b => b
            | Raise _ => false
            end
        | Raise _ => false
        end
  | None => true
  end.

(** The logical AND of the active predicates. *)
Definition passes (p : paper) : bool :=
  author_test p && title_test p && citation_test p && venue_test p
  && recency_test p.

(** The recency predicate, when it is active, can be computed on every
    record: the cutoff date exists and no year overflows. *)
Definition recency_defined (papers : list paper) : Prop :=
  match recency_days f with
  | Some days =>
      days <> 0 ->
      exists cutoff,
        minus_days now days = Ok cutoff
        /\ Forall (fun p => exists b, _is_recent_paper p cutoff = Ok b) papers
  | None => True
  end.

(** A narrowing step that is the filter by [test] on the part of the
    input it may be given. *)
Definition acts_as (papers : list paper)
    (st : (list paper -> result (list paper)) * (paper -> bool)) : Prop :=
  forall l, sublist l papers -> st.1 l = Ok (List.filter st.2 l).

Definition steps_with_tests
  : list ((list paper -> result (list paper)) * (paper -> bool)) :=
  [ (author_filter ratio f, author_test);
    (title_filter f, title_test);
    (citation_filter f, citation_test);
    (venue_filter f, venue_test);
    (recency_filter now f, recency_test) ].

Lemma filter_true (l : list paper) : List.filter (fun _ => true) l = l.
Proof. induction l as [|p l IH]; simpl; by rewrite ?IH. Qed.

Lemma select_pure (test : paper -> result bool) (pure : paper -> bool) l :
  Forall (fun p => test p = Ok (pure p)) l ->
  select test l = Ok (List.filter pure l).
Proof.
  induction 1 as [|p l Hp _ IH]; simpl; [done|].
  rewrite Hp, IH. simpl. by destruct (pure p).
Qed.

Lemma author_filter_acts papers :
  acts_as papers (author_filter ratio f, author_test).
Proof.
  intros l _. unfold author_filter, author_test. simpl.
  destruct (author_name f) as [name|]; [|by rewrite filter_true].
  destruct (truthy name); [done|by rewrite filter_true].
Qed.

Lemma title_filter_acts papers : acts_as papers (title_filter f, title_test).
Proof.
  intros l _. unfold title_filter, title_test. simpl.
  destruct (title_keywords f) as [kws|]; [|by rewrite filter_true].
  destruct (truthy kws); [done|by rewrite filter_true].
Qed.

Lemma citation_filter_acts papers :
  acts_as papers (citation_filter f, citation_test).
Proof.
  intros l _. unfold citation_filter, citation_test. simpl.
  destruct (citation_range f) as [range|]; [|by rewrite filter_true].
  apply select_pure, Forall_forall. intros p _.
  rewrite !_get_citation_count_returns. simpl.
  by destruct (default 0 (range_min range) <=? citations p).
Qed.

Lemma venue_filter_acts papers : acts_as papers (venue_filter f, venue_test).
Proof.
  intros l _. unfold venue_filter, venue_test. simpl.
  destruct (venue_query f) as [v|]; [|by rewrite filter_true].
  destruct (truthy v); [done|by rewrite filter_true].
Qed.

Lemma recency_filter_acts papers :
  recency_defined papers -> acts_as papers (recency_filter now f, recency_test).
Proof.
  intros Hd l Hl. unfold recency_filter, recency_test, recency_defined in *.
  simpl. destruct (recency_days f) as [days|]; [|by rewrite filter_true].
  destruct (Z.eqb_spec days 0) as [_|Hne]; [by rewrite filter_true|].
  destruct (Hd Hne) as (cutoff & -> & Hall). simpl.
  apply select_pure, Forall_forall. intros p Hp.
  rewrite Forall_forall in Hall.
  destruct (Hall p) as [b ->]; [|done]. by eapply elem_of_sublist.
Qed.

Lemma steps_act papers :
  recency_defined papers -> Forall (acts_as papers) steps_with_tests.
Proof.
  intros Hd. unfold steps_with_tests.
  repeat constructor;
    auto using author_filter_acts, title_filter_acts, citation_filter_acts,
      venue_filter_acts, recency_filter_acts.
Qed.

Lemma list_filter_sublist_paper (t : paper -> bool) l : sublist (List.filter t l) l.
Proof.
  induction l as [|x l IH]; simpl; [done|].
  destruct (t x); by constructor.
Qed.

Lemma filter_filter_paper (t u : paper -> bool) l :
  List.filter u (List.filter t l) = List.filter (fun p => t p && u p) l.
Proof.
  induction l as [|x l IH]; simpl; [done|].
  destruct (t x); simpl; [destruct (u x)|]; by rewrite ?IH.
Qed.

(** Steps that act as filters compose to the filter by all the tests. *)
Lemma narrow_acts papers sts l :
  Forall (acts_as papers) sts -> sublist l papers ->
  fold_left bind (map fst sts) (Ok l)
  = Ok (List.filter (fun p => forallb (fun st => st.2 p) sts) l).
Proof.
  intros Hs. revert l. induction Hs as [|st sts Hst _ IH]; intros l Hl.
  - simpl. by rewrite filter_true.
  - cbn [map fold_left bind]. rewrite (Hst l Hl).
    rewrite IH; [|etrans; [apply list_filter_sublist_paper|done]].
    by rewrite filter_filter_paper.
Qed.

Lemma forallb_perm {A} (t : A -> bool) l1 l2 :
  l1 ≡ₚ l2 -> forallb t l1 = forallb t l2.
Proof.
  induction 1 as [|x l l' _ IH|x y l|l l' l'' _ IH1 _ IH2]; simpl.
  - done.
  - by rewrite IH.
  - destruct (t x), (t y); done.
  - by rewrite IH1.
Qed.

End Filtering.

(** C8 as stated fails: with a recency window of ten million days the
    cutoff date is no date, and the call raises [OverflowError] instead
    of returning records. *)
Lemma filter_raises_on_long_window :
  filter_papers_advanced (fun _ _ => 0%Q)
    (days_before_year 2026 * us_per_day) []
    {| author_name := None; title_keywords := None; citation_range := None;
       venue_query := None; recency_days := Some 10000000 |}
  = Raise OverflowError.
Proof. vm_compute. reflexivity. Qed.

(** C8, amended.  When the recency predicate can be computed on every
    record, the call returns the records that pass all five predicates,
    in their order, and so do the five narrowing steps taken in any other
    order. *)
Theorem filter_is_conjunction (ratio : string -> string -> Q) (now : Z)
    (f : filters) (papers : list paper) :
  recency_defined now f papers ->
  filter_papers_advanced ratio now papers f
  = Ok (List.filter (passes ratio now f) papers)
  /\ forall order,
      order ≡ₚ steps_in_source_order ratio now f ->
      narrow order papers = Ok (List.filter (passes ratio now f) papers).
Proof.
  intros Hd.
  assert (forall order,
      order ≡ₚ steps_in_source_order ratio now f ->
      narrow order papers = Ok (List.filter (passes ratio now f) papers)) as H.
  { intros order Hp.
    change (steps_in_source_order ratio now f)
      with (map fst (steps_with_tests ratio now f)) in Hp.
    apply Permutation_map_inv in Hp as (sts & -> & Hp).
    unfold narrow.
    rewrite (narrow_acts papers sts papers); [|by rewrite <- Hp; apply steps_act|done].
    f_equal. apply List.filter_ext. intros p.
    rewrite <- (forallb_perm _ _ _ Hp). unfold passes. simpl.
    by rewrite andb_true_r, !andb_assoc. }
  split; [|done]. by apply H.
Qed.

Definition same_or_nothing (a b : string) : Q :=
  if String.eqb a b then 1%Q else 0%Q.

Definition new_year_2026 : Z := days_before_year 2026 * us_per_day.

Definition sample_papers : list paper :=
  [ {| title := "Deep learning survey"; authors := "Ann Lee, Bob Ray";
       year := PInt 2025; citation_count := PInt 50; venue := None |};
    {| title := "Graph methods"; authors := "Ann Lee";
       year := PStr "Year Not Available"; citation_count := PInt 150;
       venue := None |};
    {| title := "Deep networks"; authors := "Cy Dee";
       year := PStr "2025"; citation_count := PStr "Citation Count Not Available";
       venue := Some "Journal of Learning"%string |};
    {| title := "Old deep paper"; authors := "Ann Lee";
       year := PInt 2001; citation_count := PNone; venue := None |} ].

Definition sample_filters : filters :=
  {| author_name := None; title_keywords := Some "deep, graph"%string;
     citation_range := Some {| range_min := None; range_max := Some 100 |};
     venue_query := Some EmptyString; recency_days := Some 400 |}.

Lemma filter_is_conjunction_witness :
  recency_defined new_year_2026 sample_filters sample_papers
  /\ filter_papers_advanced same_or_nothing new_year_2026 sample_papers
       sample_filters
     = Ok (List.filter (passes same_or_nothing new_year_2026 sample_filters)
             sample_papers).
Proof.
  assert (recency_defined new_year_2026 sample_filters sample_papers) as H.
  { intros _. exists (new_year_2026 - 400 * us_per_day).
    split; [vm_compute; reflexivity|].
    repeat constructor; eexists; vm_compute; reflexivity. }
  split; [exact H|].
  exact (proj1 (filter_is_conjunction same_or_nothing new_year_2026
                  sample_filters sample_papers H)).
Defined.

Lemma select_kept (test : paper -> result bool) l out p :
  select test l = Ok out -> p ∈ out -> test p = Ok true.
Proof.
  revert out. induction l as [|q l IH]; simpl; intros out.
  - intros [= <-] Hp. by apply elem_of_nil in Hp.
  - destruct (test q) as [keep|] eqn:Eq; [|done]. simpl.
    destruct (select test l) as [rest|]; [|done]. simpl. intros [= <-].
    destruct keep; [|by apply (IH rest)].
    intros [->|Hp]%elem_of_cons; [done|by apply (IH rest)].
Qed.

Lemma select_raised (test : paper -> result bool) l e :
  select test l = Raise e -> exists p, p ∈ l /\ test p = Raise e.
Proof.
  induction l as [|q l IH]; simpl; [done|].
  destruct (test q) as [keep|e'] eqn:Eq; simpl.
  - destruct (select test l) as [rest|e'']; [done|]. simpl. intros [= ->].
    destruct IH as (p & Hp & Ht); [done|]. exists p. split; [by right|done].
  - intros [= ->]. exists q. split; [left|done].
Qed.

Lemma minus_days_raises now d e : minus_days now d = Raise e -> e = OverflowError.
Proof. unfold minus_days. destruct (_ || _); [by intros [= <-]|done]. Qed.

(** The call is the recency step applied to what the four other
    predicates let through. *)
Lemma filter_ends_with_recency ratio now papers f :
  filter_papers_advanced ratio now papers f
  = recency_filter now f
      (List.filter
         (fun p => author_test ratio f p && title_test f p
                   && citation_test f p && venue_test f p)
         papers).
Proof.
  unfold filter_papers_advanced, narrow, steps_in_source_order.
  cbn [fold_left bind].
  pose proof (fun l => author_filter_acts ratio f l l (reflexivity _)) as Ha.
  pose proof (fun l => title_filter_acts f l l (reflexivity _)) as Ht.
  pose proof (fun l => citation_filter_acts f l l (reflexivity _)) as Hc.
  pose proof (fun l => venue_filter_acts f l l (reflexivity _)) as Hv.
  cbn [fst snd] in Ha, Ht, Hc, Hv.
  rewrite Ha. cbn [bind]. rewrite Ht. cbn [bind]. rewrite Hc. cbn [bind].
  rewrite Hv. cbn [bind]. rewrite !filter_filter_paper. f_equal.
  apply List.filter_ext. intros p. by rewrite !andb_assoc.
Qed.

(** C9.  A citation count that is the sentinel or that [int] rejects
    counts as 0, and a year that is the sentinel or that [int] rejects
    makes the recency test false, in both cases as a returned value; a
    record with such a year is in no result of a call with an active
    recency filter, and an exception that leaves the call is never the
    [ValueError] or [TypeError] of a failed parse. *)
Theorem parse_failures_are_absorbed :
  (forall p,
      eq_str (citation_count p) "Citation Count Not Available" = true
      \/ (exists e, py_int (citation_count p) = Raise e) ->
      _get_citation_count p = Ok 0)
  /\ (forall p cutoff,
      eq_str (year p) "Year Not Available" = true
      \/ (exists e, py_int (year p) = Raise e) ->
      _is_recent_paper p cutoff = Ok false)
  /\ (forall ratio now papers f days out p,
      recency_days f = Some days -> days <> 0 ->
      eq_str (year p) "Year Not Available" = true
      \/ (exists e, py_int (year p) = Raise e) ->
      filter_papers_advanced ratio now papers f = Ok out ->
      p ∉ out)
  /\ (forall ratio now papers f e,
      filter_papers_advanced ratio now papers f = Raise e ->
      e = OverflowError).
Proof.
  assert (forall p cutoff,
      eq_str (year p) "Year Not Available" = true
      \/ (exists e, py_int (year p) = Raise e) ->
      _is_recent_paper p cutoff = Ok false) as Hyear.
  { intros p cutoff [Hs|[e He]]; unfold _is_recent_paper.
    - by rewrite Hs.
    - destruct (eq_str (year p) _); [done|]. rewrite He. simpl.
      by destruct (py_int_raises _ _ He) as [-> | ->]. }
  repeat split.
  - intros p [Hs|[e He]]; unfold _get_citation_count.
    + by rewrite Hs.
    + destruct (eq_str (citation_count p) _); [done|]. rewrite He.
      by destruct (py_int_raises _ _ He) as [-> | ->].
  - exact Hyear.
  - intros ratio now papers f days out p Hd Hne Hy.
    rewrite filter_ends_with_recency. unfold recency_filter. rewrite Hd.
    destruct (Z.eqb_spec days 0) as [?|_]; [done|].
    destruct (minus_days now days) as [cutoff|]; [|done]. simpl.
    intros Hsel Hp. pose proof (select_kept _ _ _ _ Hsel Hp) as Ht.
    cbn beta in Ht. by rewrite (Hyear p cutoff Hy) in Ht.
  - intros ratio now papers f e. rewrite filter_ends_with_recency.
    unfold recency_filter. destruct (recency_days f) as [days|]; [|done].
    destruct (days =? 0); [done|].
    destruct (minus_days now days) as [cutoff|e'] eqn:E; simpl.
    + intros (p & _ & Hp)%select_raised.
      by eapply _is_recent_paper_raises.
    + intros [= ->]. by eapply minus_days_raises.
Qed.

Lemma parse_failures_are_absorbed_witness :
  _get_citation_count
    {| title := "Deep networks"; authors := "Cy Dee"; year := PStr "n.d.";
       citation_count := PStr "12 or so"; venue := None |} = Ok 0
  /\ _is_recent_paper
       {| title := "Deep networks"; authors := "Cy Dee"; year := PStr "n.d.";
          citation_count := PStr "12 or so"; venue := None |}
       new_year_2026 = Ok false.
Proof.
  split.
  - apply (proj1 parse_failures_are_absorbed).
    right. exists ValueError. vm_compute. reflexivity.
  - apply (proj1 (proj2 parse_failures_are_absorbed)).
    right. exists ValueError. vm_compute. reflexivity.
Defined.

End EngineFacts.

(** ** The author index: [RBNode] and [RBTree] of [src/main.py] *)

Module RB.

(** The attribute [color]: the strings red and black. *)
Inductive node_color : Type := Red | Black.

#[global] Instance node_color_eq_dec : EqDecision node_color.
Proof. solve_decision. Defined.

(** A reference to an [RBNode] object, or Python [None]. *)
Definition ref : Type := option nat.

(** The attributes of an [RBNode] object. *)
Record RBNode : Type := mkNode {
  title : string;
  author : string;
  color : node_color;
  left : ref;
  right : ref;
  parent : ref
}.

(** An [RBTree] object and the store of the nodes it can reach.  A new
    object takes the address [next], which no object has yet. *)
Record RBTree : Type := mkTree {
  heap : gmap nat RBNode;
  next : nat;
  NIL : ref;
  root : ref
}.

(** [RBNode(title, author)] *)
Definition new_RBNode (title author : string) : RBNode :=
  mkNode title author Red None None None.

(** [RBTree()]: the sentinel is the first object. *)
Definition new_RBTree : RBTree :=
  mkTree {[ 0%nat := mkNode EmptyString EmptyString Black None None None ]}
    1 (Some 0%nat) (Some 0%nat).

(** Reading an attribute of [r]; [None] when [r] is Python [None], where
    Python raises [AttributeError]. *)
Definition deref (st : RBTree) (r : ref) : option RBNode :=
  a ← r; heap st !! a.

Definition left_of (st : RBTree) (r : ref) : option ref := left <$> deref st r.
Definition right_of (st : RBTree) (r : ref) : option ref := right <$> deref st r.
Definition parent_of (st : RBTree) (r : ref) : option ref := parent <$> deref st r.
Definition color_of (st : RBTree) (r : ref) : option node_color := color <$> deref st r.
Definition author_of (st : RBTree) (r : ref) : option string := author <$> deref st r.

(** Assigning to an attribute of [r]. *)
Definition update (st : RBTree) (r : ref) (f : RBNode -> RBNode) : option RBTree :=
  a ← r; n ← heap st !! a;
  Some (mkTree (<[a := f n]> (heap st)) (next st) (NIL st) (root st)).

Definition with_left (v : ref) (n : RBNode) : RBNode :=
  mkNode (title n) (author n) (color n) v (right n) (parent n).
Definition with_right (v : ref) (n : RBNode) : RBNode :=
  mkNode (title n) (author n) (color n) (left n) v (parent n).
Definition with_parent (v : ref) (n : RBNode) : RBNode :=
  mkNode (title n) (author n) (color n) (left n) (right n) v.
Definition with_color (c : node_color) (n : RBNode) : RBNode :=
  mkNode (title n) (author n) c (left n) (right n) (parent n).

Definition set_left (st : RBTree) (r v : ref) : option RBTree :=
  update st r (with_left v).
Definition set_right (st : RBTree) (r v : ref) : option RBTree :=
  update st r (with_right v).
Definition set_parent (st : RBTree) (r v : ref) : option RBTree :=
  update st r (with_parent v).
Definition set_color (st : RBTree) (r : ref) (c : node_color) : option RBTree :=
  update st r (with_color c).

(** [self.root = r] *)
Definition set_root (st : RBTree) (r : ref) : RBTree :=
  mkTree (heap st) (next st) (NIL st) r.

(** [rotate_left(x)] *)
Definition rotate_left (st : RBTree) (x : ref) : option RBTree :=
  y ← right_of st x;
  if decide (y = NIL st) then Some st else
  yl ← left_of st y;
  st ← set_right st x yl;
  yl ← left_of st y;
  st ← (if decide (yl ≠ NIL st) then set_parent st yl x else Some st);
  xp ← parent_of st x;
  st ← set_parent st y xp;
  xp ← parent_of st x;
  st ← (if decide (xp = None) then Some (set_root st y)
        else
          xpl ← left_of st xp;
          if decide (x = xpl) then set_left st xp y else set_right st xp y);
  st ← set_left st y x;
  set_parent st x y.

(** [rotate_right(x)] *)
Definition rotate_right (st : RBTree) (x : ref) : option RBTree :=
  y ← left_of st x;
  if decide (y = NIL st) then Some st else
  yr ← right_of st y;
  st ← set_left st x yr;
  yr ← right_of st y;
  st ← (if decide (yr ≠ NIL st) then set_parent st yr x else Some st);
  xp ← parent_of st x;
  st ← set_parent st y xp;
  xp ← parent_of st x;
  st ← (if decide (xp = None) then Some (set_root st y)
        else
          xpr ← right_of st xp;
          if decide (x = xpr) then set_right st xp y else set_left st xp y);
  st ← set_right st y x;
  set_parent st x y.

(** [new_node.parent.parent] *)
Definition grandparent_of (st : RBTree) (r : ref) : option ref :=
  p ← parent_of st r; parent_of st p.

(** The test of the loop of [fix_insertion]. *)
Definition fix_test (st : RBTree) (new_node : ref) : option bool :=
  if decide (new_node ≠ root st) then
    p ← parent_of st new_node;
    c ← color_of st p;
    Some (bool_decide (c = Red))
  else Some false.

(** The first branch of the loop body: the parent is a left child. *)
Definition fix_left (st : RBTree) (new_node : ref) : option (RBTree * ref) :=
  g ← grandparent_of st new_node;
  uncle ← right_of st g;
  uc ← color_of st uncle;
  if decide (uc = Red) then
    p ← parent_of st new_node;
    st ← set_color st p Black;
    st ← set_color st uncle Black;
    g ← grandparent_of st new_node;
    st ← set_color st g Red;
    g ← grandparent_of st new_node;
    Some (st, g)
  else
    p ← parent_of st new_node;
    pr ← right_of st p;
    '(st, new_node) ←
      (if decide (new_node = pr) then
         st ← rotate_left st p; Some (st, p)
       else Some (st, new_node));
    p ← parent_of st new_node;
    st ← set_color st p Black;
    g ← grandparent_of st new_node;
    st ← set_color st g Red;
    g ← grandparent_of st new_node;
    st ← rotate_right st g;
    Some (st, new_node).

(** The second branch: the parent is a right child. *)
Definition fix_right (st : RBTree) (new_node : ref) : option (RBTree * ref) :=
  g ← grandparent_of st new_node;
  uncle ← left_of st g;
  uc ← color_of st uncle;
  if decide (uc = Red) then
    p ← parent_of st new_node;
    st ← set_color st p Black;
    st ← set_color st uncle Black;
    g ← grandparent_of st new_node;
    st ← set_color st g Red;
    g ← grandparent_of st new_node;
    Some (st, g)
  else
    p ← parent_of st new_node;
    pl ← left_of st p;
    '(st, new_node) ←
      (if decide (new_node = pl) then
         st ← rotate_right st p; Some (st, p)
       else Some (st, new_node));
    p ← parent_of st new_node;
    st ← set_color st p Black;
    g ← grandparent_of st new_node;
    st ← set_color st g Red;
    g ← grandparent_of st new_node;
    st ← rotate_left st g;
    Some (st, new_node).

Definition fix_body (st : RBTree) (new_node : ref) : option (RBTree * ref) :=
  p ← parent_of st new_node;
  g ← grandparent_of st new_node;
  gl ← left_of st g;
  if decide (p = gl) then fix_left st new_node else fix_right st new_node.

(** The loop of [fix_insertion]; [fuel] bounds the number of rounds. *)
Fixpoint fix_loop (fuel : nat) (st : RBTree) (new_node : ref) : option RBTree :=
  match fuel with
  | O => None
  | S fuel' =>
      continue ← fix_test st new_node;
      if continue : bool then
        '(st, new_node) ← fix_body st new_node;
        fix_loop fuel' st new_node
      else Some st
  end.

(** [fix_insertion(new_node)]: a round moves [new_node] up, so there are
    fewer rounds than objects. *)
Definition fix_insertion (st : RBTree) (new_node : ref) : option RBTree :=
  st ← fix_loop (size (heap st)) st new_node;
  set_color st (root st) Black.

(** The descent of [_insert_node]: returns [parent]. *)
Fixpoint descend (fuel : nat) (st : RBTree) (key : string) (parent current : ref)
  : option ref :=
  match fuel with
  | O => None
  | S fuel' =>
      if decide (current ≠ NIL st) then
        ca ← author_of st current;
        if PyStr.lt key ca then
          l ← left_of st current; descend fuel' st key current l
        else
          r ← right_of st current; descend fuel' st key current r
      else Some parent
  end.

(** [_insert_node(new_node)] *)
Definition _insert_node (st : RBTree) (new_node : ref) : option RBTree :=
  key ← author_of st new_node;
  parent ← descend (size (heap st)) st key None (root st);
  st ← set_parent st new_node parent;
  st ← (if decide (parent = None) then Some (set_root st new_node)
        else
          pa ← author_of st parent;
          if PyStr.lt key pa then set_left st parent new_node
          else set_right st parent new_node);
  st ← set_color st new_node Red;
  fix_insertion st new_node.

(** [insert(title, author)] *)
Definition insert (st : RBTree) (title author : string) : option RBTree :=
  let a := next st in
  let st := mkTree (<[a := new_RBNode title author]> (heap st)) (S a)
              (NIL st) (root st) in
  let new_node := Some a in
  st ← set_left st new_node (NIL st);
  st ← set_right st new_node (NIL st);
  _insert_node st new_node.

(** [_inorder_authors(node)] *)
Fixpoint _inorder_authors (fuel : nat) (st : RBTree) (node : ref)
  : option (list string) :=
  match fuel with
  | O => None
  | S fuel' =>
      if decide (node ≠ NIL st) then
        l ← left_of st node;
        ls ← _inorder_authors fuel' st l;
        a ← author_of st node;
        r ← right_of st node;
        rs ← _inorder_authors fuel' st r;
        Some (ls ++ [a] ++ rs)
      else Some []
  end.

(** [sorted(l)] on strings: insertion from the left with [<]. *)
Fixpoint sorted_insert (x : string) (l : list string) : list string :=
  match l with
  | [] => [x]
  | y :: l' => if PyStr.lt x y then x :: l else y :: sorted_insert x l'
  end.

Definition sorted (l : list string) : list string :=
  foldr sorted_insert [] l.

(** [list_unique_authors()]: [sorted(set(authors))]. *)
Definition list_unique_authors (st : RBTree) : option (list string) :=
  authors ← _inorder_authors (size (heap st)) st (root st);
  Some (sorted (elements (list_to_set authors : gset string))).

(** The tree after [insert(title, author)] for each pair in turn. *)
Definition insert_all (entries : list (string * string)) : option RBTree :=
  foldl (fun st e => st ← st; insert st e.1 e.2) (Some new_RBTree) entries.

End RB.

(** ** Properties of the author index *)

Module RBFacts.
Import RB.

Local Open Scope nat_scope.

(** *** The tree a store holds *)

(** A binary tree of objects: the address, colour and author of every
    node.  [Leaf] is the sentinel. *)
Inductive tree : Type :=
| Leaf : tree
| T (a : nat) (c : node_color) (l : tree) (k : string) (r : tree) : tree.

(** The sentinel has address 0. *)
Definition addr_of (t : tree) : nat :=
  match t with
  | Leaf => 0
  | T a _ _ _ _ => a
  end.

Fixpoint addrs (t : tree) : list nat :=
  match t with
  | Leaf => []
  | T a _ l _ r => a :: addrs l ++ addrs r
  end.

(** The authors from left to right. *)
Fixpoint keys (t : tree) : list string :=
  match t with
  | Leaf => []
  | T _ _ l k r => keys l ++ k :: keys r
  end.

(** The store holds [t] below the parent [par]. *)
Fixpoint repr (h : gmap nat RBNode) (t : tree) (par : ref) : Prop :=
  match t with
  | Leaf => True
  | T a c l k r =>
      (exists ti,
          h !! a = Some (mkNode ti k c (Some (addr_of l)) (Some (addr_of r)) par))
      /\ repr h l (Some a) /\ repr h r (Some a)
  end.

(** A tree with a hole: the path from the hole up to the root, with the
    subtrees that hang off it. *)
Inductive ctx : Type :=
| Top : ctx
| InL (a : nat) (c : node_color) (k : string) (up : ctx) (r : tree) : ctx
| InR (a : nat) (c : node_color) (l : tree) (k : string) (up : ctx) : ctx.

Fixpoint plug (cx : ctx) (s : tree) : tree :=
  match cx with
  | Top => s
  | InL a c k up r => plug up (T a c s k r)
  | InR a c l k up => plug up (T a c l k s)
  end.

Definition hole_parent (cx : ctx) : ref :=
  match cx with
  | Top => None
  | InL a _ _ _ _ => Some a
  | InR a _ _ _ _ => Some a
  end.

Fixpoint addrs_ctx (cx : ctx) : list nat :=
  match cx with
  | Top => []
  | InL a _ _ up r => a :: addrs r ++ addrs_ctx up
  | InR a _ l _ up => a :: addrs l ++ addrs_ctx up
  end.

Fixpoint keys_ctx (cx : ctx) : list string :=
  match cx with
  | Top => []
  | InL _ _ k up r => k :: keys r ++ keys_ctx up
  | InR _ _ l k up => k :: keys l ++ keys_ctx up
  end.

Fixpoint depth (cx : ctx) : nat :=
  match cx with
  | Top => 0
  | InL _ _ _ up _ => S (depth up)
  | InR _ _ _ _ up => S (depth up)
  end.

(** The address of the root when the hole holds [child]. *)
Fixpoint ctx_root (cx : ctx) (child : nat) : nat :=
  match cx with
  | Top => child
  | InL a _ _ up _ => ctx_root up a
  | InR a _ _ _ up => ctx_root up a
  end.

(** The store holds the context around a hole filled by [child]. *)
Fixpoint repr_ctx (h : gmap nat RBNode) (cx : ctx) (child : nat) : Prop :=
  match cx with
  | Top => True
  | InL a c k up r =>
      (exists ti,
          h !! a = Some (mkNode ti k c (Some child) (Some (addr_of r))
                           (hole_parent up)))
      /\ repr h r (Some a) /\ repr_ctx h up a
  | InR a c l k up =>
      (exists ti,
          h !! a = Some (mkNode ti k c (Some (addr_of l)) (Some child)
                           (hole_parent up)))
      /\ repr h l (Some a) /\ repr_ctx h up a
  end.

Lemma repr_plug h cx s :
  repr h (plug cx s) None
  <-> repr_ctx h cx (addr_of s) /\ repr h s (hole_parent cx).
Proof.
  revert s. induction cx as [|a c k up IH r|a c l k up IH]; intros s; simpl.
  - tauto.
  - rewrite IH. simpl. tauto.
  - rewrite IH. simpl. tauto.
Qed.

Lemma addr_of_plug cx s : addr_of (plug cx s) = ctx_root cx (addr_of s).
Proof.
  revert s. induction cx as [|a c k up IH r|a c l k up IH]; intros s; simpl;
    by rewrite ?IH.
Qed.

Lemma addrs_plug cx s : addrs (plug cx s) ≡ₚ addrs s ++ addrs_ctx cx.
Proof.
  revert s. induction cx as [|a c k up IH r|a c l k up IH]; intros s; simpl.
  - by rewrite app_nil_r.
  - rewrite IH. simpl. rewrite <- !app_assoc. apply Permutation_middle.
  - rewrite IH. simpl. rewrite <- !app_assoc.
    rewrite <- Permutation_middle. constructor.
    rewrite !app_assoc. apply Permutation_app_tail, Permutation_app_comm.
Qed.

Lemma keys_plug cx s : keys (plug cx s) ≡ₚ keys s ++ keys_ctx cx.
Proof.
  revert s. induction cx as [|a c k up IH r|a c l k up IH]; intros s; simpl.
  - by rewrite app_nil_r.
  - rewrite IH. simpl. by rewrite <- !app_assoc.
  - rewrite IH. simpl. rewrite <- !app_assoc. simpl.
    rewrite <- (Permutation_middle (keys s)).
    rewrite <- (Permutation_middle (keys l)). constructor.
    rewrite !app_assoc. apply Permutation_app_tail, Permutation_app_comm.
Qed.

Lemma depth_le_addrs cx : depth cx <= length (addrs_ctx cx).
Proof.
  induction cx as [|a c k up IH r|a c l k up IH]; simpl;
    rewrite ?length_app; lia.
Qed.

(** A store that agrees on the addresses of a tree holds the tree. *)
Lemma repr_frame h h' t par :
  (forall a, a ∈ addrs t -> h' !! a = h !! a) -> repr h t par -> repr h' t par.
Proof.
  revert par. induction t as [|a c l IHl k r IHr]; intros par Hag; simpl; [done|].
  intros ([ti Ha] & Hl & Hr). repeat split.
  - exists ti. rewrite Hag; [done|]. simpl. left.
  - apply IHl; [|done]. intros b Hb. apply Hag. simpl. right.
    apply elem_of_app. by left.
  - apply IHr; [|done]. intros b Hb. apply Hag. simpl. right.
    apply elem_of_app. by right.
Qed.

Lemma repr_ctx_frame h h' cx child :
  (forall a, a ∈ addrs_ctx cx -> h' !! a = h !! a) ->
  repr_ctx h cx child -> repr_ctx h' cx child.
Proof.
  revert child. induction cx as [|a c k up IH r|a c l k up IH];
    intros child Hag; simpl; [done| |].
  - intros ([ti Ha] & Hr & Hup). repeat split.
    + exists ti. rewrite Hag; [done|]. simpl. left.
    + eapply repr_frame; [|done]. intros b Hb. apply Hag. simpl. right.
      apply elem_of_app. by left.
    + apply IH; [|done]. intros b Hb. apply Hag. simpl. right.
      apply elem_of_app. by right.
  - intros ([ti Ha] & Hl & Hup). repeat split.
    + exists ti. rewrite Hag; [done|]. simpl. left.
    + eapply repr_frame; [|done]. intros b Hb. apply Hag. simpl. right.
      apply elem_of_app. by left.
    + apply IH; [|done]. intros b Hb. apply Hag. simpl. right.
      apply elem_of_app. by right.
Qed.

(** The same tree below another parent: only the root object differs. *)
Lemma repr_reparent h t par par' n :
  addr_of t ∉ addrs t \/ NoDup (addrs t) ->
  repr h t par ->
  match t with
  | Leaf => True
  | T a _ _ _ _ => h !! a = Some n
  end ->
  repr (match t with
        | Leaf => h
        | T a _ _ _ _ => <[a := with_parent par' n]> h
        end) t par'.
Proof.
  destruct t as [|a c l k r]; simpl; [done|].
  intros Hnd ([ti Ha] & Hl & Hr) Hn.
  assert (a ∉ addrs l ++ addrs r) as Hna.
  { destruct Hnd as [Hnd|Hnd]; [|by apply NoDup_cons in Hnd as [? _]].
    exfalso. apply Hnd. left. }
  rewrite Ha in Hn. injection Hn as <-. repeat split.
  - exists ti. by rewrite lookup_insert_eq.
  - eapply repr_frame; [|done]. intros b Hb. rewrite lookup_insert_ne; [done|].
    intros ->. apply Hna, elem_of_app. by left.
  - eapply repr_frame; [|done]. intros b Hb. rewrite lookup_insert_ne; [done|].
    intros ->. apply Hna, elem_of_app. by right.
Qed.

(** Every address in use is below [nx]. *)
Definition fresh_above (h : gmap nat RBNode) (nx : nat) : Prop :=
  forall a, is_Some (h !! a) -> a < nx.

(** The addresses of a tree are pairwise different and none is that of
    the sentinel. *)
Definition distinct (t : tree) : Prop := NoDup (addrs t) /\ (0 ∉ addrs t).

(** The tree object [st] holds the tree [t]: the sentinel is the black
    object 0, the root is the root of [t], every node of [t] is an
    object with the attributes [t] gives it, no address occurs twice, and
    [next] is above every address in use. *)
Definition models (st : RBTree) (t : tree) : Prop :=
  NIL st = Some 0
  /\ (exists n0, heap st !! 0 = Some n0 /\ color n0 = Black)
  /\ root st = Some (addr_of t)
  /\ repr (heap st) t None
  /\ NoDup (addrs t)
  /\ (0 ∉ addrs t)
  /\ fresh_above (heap st) (next st).

Lemma models_node st cx a c l k r :
  models st (plug cx (T a c l k r)) ->
  exists ti,
    heap st !! a
    = Some (mkNode ti k c (Some (addr_of l)) (Some (addr_of r)) (hole_parent cx)).
Proof.
  intros (_ & _ & _ & Hr & _). apply repr_plug in Hr as [_ Hr].
  simpl in Hr. tauto.
Qed.

Lemma models_sentinel st t :
  models st t -> NIL st = Some 0 /\ color_of st (Some 0) = Some Black.
Proof.
  intros (HN & (n0 & H0 & Hc) & _). split; [done|].
  unfold color_of, deref. simpl. by rewrite H0, <- Hc.
Qed.

(** A tree is a leaf exactly when its address is that of the sentinel. *)
Lemma addr_of_zero t : 0 ∉ addrs t -> addr_of t = 0 -> t = Leaf.
Proof.
  destruct t as [|a c l k r]; [done|]. simpl. intros H ->.
  exfalso. apply H. left.
Qed.

Lemma repr_is_Some h t par a : repr h t par -> a ∈ addrs t -> is_Some (h !! a).
Proof.
  revert par. induction t as [|b c l IHl k r IHr]; intros par; simpl.
  - intros _ H. by apply elem_of_nil in H.
  - intros ([ti Hb] & Hl & Hr) [->|H]%elem_of_cons; [by eexists|].
    apply elem_of_app in H as [H|H]; eauto.
Qed.

(** Splitting the facts about the addresses of a plugged tree. *)
Lemma plug_addrs_facts cx s :
  NoDup (addrs (plug cx s)) -> 0 ∉ addrs (plug cx s) ->
  NoDup (addrs s) /\ NoDup (addrs_ctx cx)
  /\ (forall a, a ∈ addrs s -> a ∉ addrs_ctx cx)
  /\ (0 ∉ addrs s) /\ (0 ∉ addrs_ctx cx).
Proof.
  rewrite !addrs_plug, NoDup_app, not_elem_of_app. tauto.
Qed.

Lemma plug_addrs_back cx s :
  NoDup (addrs s) -> NoDup (addrs_ctx cx) ->
  (forall a, a ∈ addrs s -> a ∉ addrs_ctx cx) ->
  0 ∉ addrs s -> 0 ∉ addrs_ctx cx ->
  NoDup (addrs (plug cx s)) /\ (0 ∉ addrs (plug cx s)).
Proof.
  rewrite !addrs_plug, NoDup_app, not_elem_of_app. tauto.
Qed.

(** [r.color = c] on a node of the tree. *)
Lemma set_color_spec st cx a c l k r c' :
  models st (plug cx (T a c l k r)) ->
  exists st',
    set_color st (Some a) c' = Some st'
    /\ models st' (plug cx (T a c' l k r)).
Proof.
  intros Hm. destruct (models_node _ _ _ _ _ _ _ Hm) as [ti Ha].
  destruct Hm as (HN & (n0 & H0 & Hc0) & Hroot & Hrepr & Hnd & Hz & Hfresh).
  destruct (plug_addrs_facts _ _ Hnd Hz) as (Hnds & Hndc & Hdisj & Hzs & Hzc).
  apply repr_plug in Hrepr as [Hcx Hsub].
  assert (a ≠ 0) as Ha0 by (intros ->; apply Hzs; simpl; left).
  unfold set_color, update. simpl. rewrite Ha. simpl. eexists. split; [done|].
  unfold models. simpl. repeat split.
  - done.
  - exists n0. by rewrite lookup_insert_ne.
  - by rewrite !addr_of_plug in *.
  - apply repr_plug. split.
    + eapply repr_ctx_frame; [|exact Hcx]. intros b Hb.
      rewrite lookup_insert_ne; [done|]. intros ->.
      apply (Hdisj b); [simpl; left|done].
    + simpl in *. apply NoDup_cons in Hnds as [Hna Hnds].
      destruct Hsub as (_ & Hl & Hr). repeat split.
      * exists ti. by rewrite lookup_insert_eq.
      * eapply repr_frame; [|exact Hl]. intros b Hb.
        rewrite lookup_insert_ne; [done|]. intros ->.
        apply Hna, elem_of_app. by left.
      * eapply repr_frame; [|exact Hr]. intros b Hb.
        rewrite lookup_insert_ne; [done|]. intros ->.
        apply Hna, elem_of_app. by right.
  - by apply plug_addrs_back.
  - by apply plug_addrs_back.
  - intros b. rewrite lookup_insert_is_Some. intros [<-|[_ Hb]]; [|by apply Hfresh].
    apply Hfresh. by rewrite Ha.
Qed.

(** *** Running the methods on a store that holds a tree *)

Lemma addr_of_cases t : addr_of t = 0 \/ addr_of t ∈ addrs t.
Proof. destruct t; simpl; [by left|right; left]. Qed.

#[global] Arguments deref : simpl never.
#[global] Arguments left_of : simpl never.
#[global] Arguments right_of : simpl never.
#[global] Arguments parent_of : simpl never.
#[global] Arguments color_of : simpl never.
#[global] Arguments author_of : simpl never.
#[global] Arguments update : simpl never.

Lemma left_of_lookup st a n :
  heap st !! a = Some n -> left_of st (Some a) = Some (left n).
Proof. intros H. unfold left_of, deref. simpl. by rewrite H. Qed.

Lemma right_of_lookup st a n :
  heap st !! a = Some n -> right_of st (Some a) = Some (right n).
Proof. intros H. unfold right_of, deref. simpl. by rewrite H. Qed.

Lemma parent_of_lookup st a n :
  heap st !! a = Some n -> parent_of st (Some a) = Some (parent n).
Proof. intros H. unfold parent_of, deref. simpl. by rewrite H. Qed.

Lemma color_of_lookup st a n :
  heap st !! a = Some n -> color_of st (Some a) = Some (color n).
Proof. intros H. unfold color_of, deref. simpl. by rewrite H. Qed.

Lemma author_of_lookup st a n :
  heap st !! a = Some n -> author_of st (Some a) = Some (author n).
Proof. intros H. unfold author_of, deref. simpl. by rewrite H. Qed.

Lemma update_lookup st a n f :
  heap st !! a = Some n ->
  update st (Some a) f
  = Some (mkTree (<[a := f n]> (heap st)) (next st) (NIL st) (root st)).
Proof. intros H. unfold update. simpl. by rewrite H. Qed.

(** Looking an address up in a store written as a chain of updates. *)
Ltac lk :=
  cbn [heap];
  repeat first [ rewrite lookup_insert_eq
               | rewrite lookup_insert_ne by congruence ];
  first [ reflexivity | eassumption ].

Ltac rd :=
  first [ erewrite left_of_lookup by lk
        | erewrite right_of_lookup by lk
        | erewrite parent_of_lookup by lk
        | erewrite color_of_lookup by lk
        | erewrite author_of_lookup by lk
        | erewrite update_lookup by lk ].

Ltac red_state :=
  unfold with_left, with_right, with_parent, with_color, set_root; simpl.

Ltac dec_solve :=
  first [ congruence
        | let H := fresh in intros H; apply H; congruence
        | let H := fresh in intros H; apply H; reflexivity ].

(** Running the code of a method on such a store. *)
Ltac exec :=
  repeat first [ rd
               | progress unfold set_left, set_right, set_parent, set_color
               | progress red_state
               | rewrite decide_True by dec_solve
               | rewrite decide_False by dec_solve ].

Lemma plug_addrs_perm cx s s' :
  addrs s' ≡ₚ addrs s ->
  NoDup (addrs (plug cx s)) -> 0 ∉ addrs (plug cx s) ->
  distinct (plug cx s').
Proof. intros Hp. unfold distinct. by rewrite !addrs_plug, Hp. Qed.

Lemma addrs_rotate x cX a kx y cY b ky c :
  addrs (T y cY (T x cX a kx b) ky c) ≡ₚ addrs (T x cX a kx (T y cY b ky c)).
Proof.
  simpl. rewrite <- !app_assoc. rewrite Permutation_swap. constructor.
  apply Permutation_middle.
Qed.

Lemma fresh_above_insert h nx b n :
  is_Some (h !! b) -> fresh_above h nx -> fresh_above (<[b := n]> h) nx.
Proof.
  intros Hb Hf a. rewrite lookup_insert_is_Some.
  intros [<-|[_ Ha]]; by apply Hf.
Qed.

Ltac solve_fresh :=
  repeat (apply fresh_above_insert; [eexists; lk|]); assumption.

(** Splitting the facts that no address occurs twice. *)
Ltac split_nodup :=
  repeat match goal with
         | H : NoDup (_ :: _) |- _ =>
             let H' := fresh H in apply NoDup_cons in H as [H' H]
         | H : NoDup (_ ++ _) |- _ =>
             let H1 := fresh H in let H2 := fresh H in
             apply NoDup_app in H as (H1 & H2 & H)
         end.

(** Membership in a list written with [::] and [++]. *)
Ltac mem :=
  solve [ assumption
        | apply list_elem_of_here
        | apply list_elem_of_further; mem
        | apply elem_of_app; left; mem
        | apply elem_of_app; right; mem ].

(** A contradiction from the facts that no address occurs twice. *)
Ltac clash :=
  match goal with
  | H : ?w ∉ _ |- False => apply H; mem
  | H : forall a, a ∈ _ -> a ∉ _, w : nat |- False => apply (H w); mem
  | H : forall a, a ∈ _ -> a ∉ _ |- False => apply (H 0); mem
  end.

Ltac solve_ne :=
  let E := fresh "E" in
  intros E;
  first [ subst; clash
        | rewrite E in *; clash
        | rewrite <- E in *; clash ].

Ltac solve_frame :=
  intros ? ?; simpl; rewrite ?lookup_insert_ne; [reflexivity|..];
  intros ->; clash.

Ltac solve_repr :=
  first [ exact I
        | eapply repr_frame; [|eassumption]; solve_frame
        | eapply repr_ctx_frame; [|eassumption]; solve_frame ].

Ltac solve_node := eexists; lk.

Ltac solve_parts :=
  repeat match goal with
         | |- _ /\ _ => split
         | |- exists _, _ => solve_node
         | |- True => exact I
         | |- repr _ _ _ => solve_repr
         | |- repr_ctx _ _ _ => solve_repr
         end.

Ltac solve_models :=
  unfold models; simpl;
  split; [reflexivity|];
  split; [eexists; split; [lk|assumption]|];
  split; [first [ reflexivity | assumption
                | match goal with
                  | H : ?rt = Some (addr_of _) |- ?rt = _ =>
                      rewrite addr_of_plug in H |- *; exact H
                  end ]|];
  split; [first [apply repr_plug|idtac]; simpl; solve_parts|];
  split; [match goal with H : distinct _ |- _ => apply H end|];
  split; [match goal with H : distinct _ |- _ => apply H end|];
  solve_fresh.

(** [rotate_left] at a node with a right child [y]: [y] takes the place
    of [x], [x] becomes its left child and takes over the left subtree
    of [y]. *)
Lemma rotate_left_spec st cx x cX a kx y cY b ky c :
  models st (plug cx (T x cX a kx (T y cY b ky c))) ->
  exists st',
    rotate_left st (Some x) = Some st'
    /\ models st' (plug cx (T y cY (T x cX a kx b) ky c)).
Proof.
  intros Hm.
  destruct Hm as (HN & (n0 & H0 & Hc0) & Hroot & Hrepr & Hnd & Hz & Hfresh).
  pose proof (plug_addrs_perm cx _ (T y cY (T x cX a kx b) ky c)
                (addrs_rotate _ _ _ _ _ _ _ _ _) Hnd Hz) as Hdist.
  destruct (plug_addrs_facts _ _ Hnd Hz) as (Hnds & Hndc & Hdisj & Hzs & Hzc).
  apply repr_plug in Hrepr as [Hcx Hsub].
  destruct st as [h nx nil rt]. simpl in *. subst nil.
  destruct Hsub as ([tx Hx] & Ha & [ty Hy] & Hb & Hc).
  split_nodup.
  assert (x ≠ y) as Hxy by solve_ne.
  assert (x ≠ 0) as Hx0 by solve_ne.
  assert (y ≠ 0) as Hy0 by solve_ne.
  clear Hnd Hz.
  destruct b as [|bb cb bl kb br]; destruct cx as [|p cp kp up rr|p cp ll kp up];
    simpl in *;
    repeat match goal with
           | H : _ /\ _ |- _ => destruct H
           | H : exists _, _ |- _ => destruct H
           end;
    split_nodup;
    try (assert (x ≠ p) by solve_ne; assert (y ≠ p) by solve_ne;
         assert (p ≠ 0) by solve_ne);
    try (assert (x ≠ bb) by solve_ne; assert (y ≠ bb) by solve_ne;
         assert (bb ≠ 0) by solve_ne);
    try (assert (bb ≠ p) by solve_ne);
    try (assert (x ≠ addr_of ll)
           by (let E := fresh in let E' := fresh in
               destruct (addr_of_cases ll) as [E|E];
               [by rewrite E|intros E'; apply (Hdisj x); [mem|rewrite E'; mem]])).
  all: unfold rotate_left; exec; eexists; (split; [reflexivity|]).
  - solve_models.
  - solve_models.
  - solve_models.
  - solve_models.
  - solve_models.
  - solve_models.
Qed.

Lemma addrs_rotate_right x cX a ky y cY b kx c :
  addrs (T y cY a ky (T x cX b kx c)) ≡ₚ addrs (T x cX (T y cY a ky b) kx c).
Proof.
  simpl. rewrite <- !app_assoc. rewrite Permutation_swap. constructor.
  simpl. by rewrite <- Permutation_middle.
Qed.

(** [rotate_right], the mirror image. *)
Lemma rotate_right_spec st cx x cX a ky y cY b kx c :
  models st (plug cx (T x cX (T y cY a ky b) kx c)) ->
  exists st',
    rotate_right st (Some x) = Some st'
    /\ models st' (plug cx (T y cY a ky (T x cX b kx c))).
Proof.
  intros Hm.
  destruct Hm as (HN & (n0 & H0 & Hc0) & Hroot & Hrepr & Hnd & Hz & Hfresh).
  pose proof (plug_addrs_perm cx _ (T y cY a ky (T x cX b kx c))
                (addrs_rotate_right _ _ _ _ _ _ _ _ _) Hnd Hz) as Hdist.
  destruct (plug_addrs_facts _ _ Hnd Hz) as (Hnds & Hndc & Hdisj & Hzs & Hzc).
  apply repr_plug in Hrepr as [Hcx Hsub].
  destruct st as [h nx nil rt]. simpl in *. subst nil.
  destruct Hsub as ([tx Hx] & ([ty Hy] & Ha & Hb) & Hc).
  split_nodup.
  assert (x ≠ y) as Hxy by solve_ne.
  assert (x ≠ 0) as Hx0 by solve_ne.
  assert (y ≠ 0) as Hy0 by solve_ne.
  clear Hnd Hz.
  destruct b as [|bb cb bl kb br]; destruct cx as [|p cp kp up rr|p cp ll kp up];
    simpl in *;
    repeat match goal with
           | H : _ /\ _ |- _ => destruct H
           | H : exists _, _ |- _ => destruct H
           end;
    split_nodup;
    try (assert (x ≠ p) by solve_ne; assert (y ≠ p) by solve_ne;
         assert (p ≠ 0) by solve_ne);
    try (assert (x ≠ bb) by solve_ne; assert (y ≠ bb) by solve_ne;
         assert (bb ≠ 0) by solve_ne);
    try (assert (bb ≠ p) by solve_ne);
    try (assert (x ≠ addr_of rr)
           by (let E := fresh in let E' := fresh in
               destruct (addr_of_cases rr) as [E|E];
               [by rewrite E|intros E'; apply (Hdisj x); [mem|rewrite E'; mem]])).
  all: unfold rotate_right; exec; eexists; (split; [reflexivity|]).
  - solve_models.
  - solve_models.
  - solve_models.
  - solve_models.
  - solve_models.
  - solve_models.
Qed.

(** *** Red-black trees *)

Definition black_root (t : tree) : Prop :=
  match t with
  | Leaf => True
  | T _ c _ _ _ => c = Black
  end.

(** No red node has a red child, and every path down to a leaf passes
    [n] black nodes. *)
Fixpoint rb (t : tree) (n : nat) : Prop :=
  match t with
  | Leaf => n = 0
  | T _ Red l _ r => black_root l /\ black_root r /\ rb l n /\ rb r n
  | T _ Black l _ r =>
      match n with
      | O => False
      | S m => rb l m /\ rb r m
      end
  end.

(** A red-black tree: the root is black as well. *)
Definition valid (t : tree) : Prop := black_root t /\ exists n, rb t n.

(** What a context asks of the subtree in its hole: [n] black nodes on
    every path, and, when [hole_black] is set, a black root.  The whole
    tree is then a red-black tree. *)
Fixpoint okctx (cx : ctx) (n : nat) (hole_black : bool) : Prop :=
  match cx with
  | Top => hole_black = true
  | InL _ Black _ up r => rb r n /\ okctx up (S n) true
  | InR _ Black l _ up => rb l n /\ okctx up (S n) true
  | InL _ Red _ up r =>
      hole_black = true /\ black_root r /\ rb r n /\ okctx up n false
  | InR _ Red l _ up =>
      hole_black = true /\ black_root l /\ rb l n /\ okctx up n false
  end.

Lemma okctx_weaken cx n : okctx cx n false -> okctx cx n true.
Proof. destruct cx as [|a [] k up r|a [] l k up]; simpl; try done; tauto. Qed.

Lemma plug_valid cx s n b :
  okctx cx n b -> rb s n -> (b = true -> black_root s) -> valid (plug cx s).
Proof.
  revert s n b. induction cx as [|a c k up IH r|a c l k up IH];
    intros s n b Hc Hs Hb; simpl in *.
  - split; [by apply Hb|by exists n].
  - destruct c.
    + destruct Hc as (-> & Hr & Hrn & Hup).
      apply (IH _ n false); [done| |done]. simpl. by auto.
    + destruct Hc as (Hrn & Hup). apply (IH _ (S n) true); simpl; auto.
  - destruct c.
    + destruct Hc as (-> & Hr & Hrn & Hup).
      apply (IH _ n false); [done| |done]. simpl. by auto.
    + destruct Hc as (Hrn & Hup). apply (IH _ (S n) true); simpl; auto.
Qed.

Definition is_black_root (t : tree) : bool :=
  match t with
  | T _ Red _ _ _ => false
  | _ => true
  end.

Lemma is_black_root_true t : is_black_root t = true <-> black_root t.
Proof. destruct t as [|a [] l k r]; simpl; split; intros; done. Qed.

Lemma valid_hole cx s :
  valid (plug cx s) -> exists n, rb s n /\ okctx cx n (is_black_root s).
Proof.
  revert s. induction cx as [|a c k up IH r|a c l k up IH]; intros s Hv; simpl in *.
  - destruct Hv as [Hb [n Hn]]. exists n. split; [done|].
    by apply is_black_root_true.
  - destruct (IH _ Hv) as (n & Hn & Hup). destruct c; simpl in *.
    + destruct Hn as (Hs & Hr & Hsn & Hrn). exists n. repeat split; try done.
      by apply is_black_root_true.
    + destruct n as [|m]; [done|]. destruct Hn as [Hsn Hrn].
      exists m. by repeat split.
  - destruct (IH _ Hv) as (n & Hn & Hup). destruct c; simpl in *.
    + destruct Hn as (Hl & Hs & Hln & Hsn). exists n. repeat split; try done.
      by apply is_black_root_true.
    + destruct n as [|m]; [done|]. destruct Hn as [Hln Hsn].
      exists m. by repeat split.
Qed.

(** *** The loop of [fix_insertion] *)

#[global] Arguments set_left : simpl never.
#[global] Arguments set_right : simpl never.
#[global] Arguments set_parent : simpl never.
#[global] Arguments set_color : simpl never.
#[global] Arguments rotate_left : simpl never.
#[global] Arguments rotate_right : simpl never.

Lemma keys_plug_eq cx s s' : keys s' = keys s -> keys (plug cx s') = keys (plug cx s).
Proof.
  revert s s'. induction cx as [|a c k up IH r|a c l k up IH]; intros s s' E;
    simpl; [done| |]; apply IH; simpl; by rewrite E.
Qed.

Lemma models_root st t : models st t -> root st = Some (addr_of t).
Proof. by intros (_ & _ & ? & _). Qed.

Lemma models_distinct st t : models st t -> distinct t.
Proof. intros (_ & _ & _ & _ & ? & ? & _). by split. Qed.

(** The root of a tree with a non-empty context is a node of the
    context. *)
Lemma ctx_root_in cx child :
  cx <> Top -> ctx_root cx child ∈ addrs_ctx cx.
Proof.
  revert child. induction cx as [|a c k up IH r|a c l k up IH];
    intros child Hne; [done| |]; simpl.
  - destruct up; [left|right; apply elem_of_app; right; by apply IH..].
  - destruct up; [left|right; apply elem_of_app; right; by apply IH..].
Qed.

(** Finding the context of the node with address [a] in a tree that is
    written out down to that node. *)
Ltac focus a cx s tac :=
  lazymatch s with
  | T a ?c ?l ?k ?r => tac cx c l k r
  | T ?b ?c ?l ?k ?r =>
      first [ focus a (InL b c k cx r) l tac | focus a (InR b c l k cx) r tac ]
  end.

Ltac with_tree st tac :=
  match goal with
  | Hm : models st ?t |- _ =>
      lazymatch t with
      | plug ?up ?s => tac Hm up s
      | _ => tac Hm Top t
      end
  end.

Ltac node_fact st a :=
  with_tree st ltac:(fun Hm up s =>
    focus a up s ltac:(fun cx c l k r =>
      let H := fresh "Hnode" in
      destruct (models_node st cx a c l k r Hm) as [? H])).

Ltac rd_m :=
  match goal with
  | |- context [parent_of ?st (Some ?a)] =>
      node_fact st a; erewrite parent_of_lookup by eassumption
  | |- context [left_of ?st (Some ?a)] =>
      node_fact st a; erewrite left_of_lookup by eassumption
  | |- context [right_of ?st (Some ?a)] =>
      node_fact st a; erewrite right_of_lookup by eassumption
  | |- context [color_of ?st (Some ?a)] =>
      node_fact st a; erewrite color_of_lookup by eassumption
  | |- context [author_of ?st (Some ?a)] =>
      node_fact st a; erewrite author_of_lookup by eassumption
  | |- context [color_of ?st (Some 0)] =>
      match goal with
      | Hm : models st _ |- _ => rewrite (proj2 (models_sentinel st _ Hm))
      end
  end.

Ltac color_step :=
  match goal with
  | |- context [set_color ?st (Some ?a) ?c'] =>
      with_tree st ltac:(fun Hm up s =>
        focus a up s ltac:(fun cx c l k r =>
          let st' := fresh "st" in
          let E := fresh "E" in
          let Hm' := fresh "Hm" in
          destruct (set_color_spec st cx a c l k r c' Hm) as (st' & E & Hm');
          rewrite E; simpl in Hm'; clear E))
  end.

Ltac rotl_step :=
  match goal with
  | |- context [rotate_left ?st (Some ?x)] =>
      with_tree st ltac:(fun Hm up s =>
        focus x up s ltac:(fun cx c l k r =>
          lazymatch r with
          | T ?y ?cY ?b ?ky ?c' =>
              let st' := fresh "st" in
              let E := fresh "E" in
              let Hm' := fresh "Hm" in
              destruct (rotate_left_spec st cx x c l k y cY b ky c' Hm)
                as (st' & E & Hm');
              rewrite E; simpl in Hm'; clear E
          end))
  end.

Ltac rotr_step :=
  match goal with
  | |- context [rotate_right ?st (Some ?x)] =>
      with_tree st ltac:(fun Hm up s =>
        focus x up s ltac:(fun cx c l k r =>
          lazymatch l with
          | T ?y ?cY ?a ?ky ?b =>
              let st' := fresh "st" in
              let E := fresh "E" in
              let Hm' := fresh "Hm" in
              destruct (rotate_right_spec st cx x c a ky y cY b k r Hm)
                as (st' & E & Hm');
              rewrite E; simpl in Hm'; clear E
          end))
  end.

Ltac rd_read :=
  first [ erewrite left_of_lookup by eassumption
        | erewrite right_of_lookup by eassumption
        | erewrite parent_of_lookup by eassumption
        | erewrite color_of_lookup by eassumption
        | erewrite author_of_lookup by eassumption ].

Ltac exec_m :=
  repeat first [ rd_read
               | rd_m
               | progress simpl
               | rewrite decide_True by dec_solve
               | rewrite decide_False by dec_solve
               | color_step
               | rotl_step
               | rotr_step ].

(** An address of the tree differs from the root of a subtree that
    lies elsewhere. *)
Ltac ne_addr_of :=
  match goal with
  | |- ?x <> addr_of ?t =>
      let E := fresh "E" in
      let E' := fresh "E" in
      destruct (addr_of_cases t) as [E|E];
      [rewrite E; solve_ne|intros E'; rewrite <- E' in E; clash]
  end.

(** What the loop keeps: the tree holds a red node [z] whose subtree is
    in order, and the rest of the tree asks for a black node in its
    place. *)
Definition loop_inv (st : RBTree) (cx : ctx) (z : nat) (l : tree) (k : string)
    (r : tree) (n : nat) : Prop :=
  models st (plug cx (T z Red l k r))
  /\ rb (T z Red l k r) n
  /\ okctx cx n true.

Definition red_parent (cx : ctx) : bool :=
  match cx with
  | InL _ Red _ _ _ => true
  | InR _ Red _ _ _ => true
  | _ => false
  end.

Ltac same_keys :=
  simpl; apply keys_plug_eq; simpl;
  repeat (rewrite <- app_assoc; simpl); reflexivity.

(** The state after a round, read off the tree the store now holds. *)
Ltac finish n' :=
  match goal with
  | |- exists st' cx' z' l' k' r' n'', Some (?st, Some ?z) = _ /\ _ =>
      with_tree st ltac:(fun Hm up s =>
        focus z up s ltac:(fun cx c l k r =>
          exists st, cx, z, l, k, r, n';
          split; [reflexivity|];
          split; [split; [exact Hm|simpl in *; intuition auto]|];
          split; [simpl; lia|same_keys]))
  end.

Lemma fix_body_spec st cx z l k r n :
  loop_inv st cx z l k r n -> red_parent cx = true ->
  exists st' cx' z' l' k' r' n',
    fix_body st (Some z) = Some (st', Some z')
    /\ loop_inv st' cx' z' l' k' r' n'
    /\ depth cx' < depth cx
    /\ keys (plug cx' (T z' Red l' k' r')) = keys (plug cx (T z Red l k r)).
Proof.
  intros (Hm & Hrb & Hok) Hred.
  destruct cx as [|p [] kp up sib|p [] sib kp up]; try done; simpl in Hok;
    destruct Hok as (_ & Hsb & Hsn & Hup);
    (destruct up as [|g [] kg up unc|g [] unc kg up]; try done; simpl in Hup;
     try (destruct Hup as [? _]; discriminate));
    destruct Hup as (Hun & Hup); simpl in Hm, Hrb;
    destruct Hrb as (Hlb & Hrb & Hln & Hrn);
    destruct unc as [|u [] ul ku ur]; simpl in Hun;
    pose proof (models_distinct _ _ Hm) as [Hnd Hz];
    rewrite addrs_plug in Hnd, Hz; simpl in Hnd, Hz; split_nodup;
    try (assert (z ≠ addr_of sib) by ne_addr_of);
    try (assert (p ≠ addr_of unc) by ne_addr_of);
    try (assert (p ≠ 0) by solve_ne);
    try (assert (p ≠ u) by solve_ne);
    unfold fix_body, fix_left, fix_right, grandparent_of.
  - exec_m. finish n.
  - exec_m. finish (S n).
  - exec_m. finish n.
  - exec_m. finish n.
  - exec_m. finish (S n).
  - exec_m. finish n.
  - exec_m. finish n.
  - exec_m. finish (S n).
  - exec_m. finish n.
  - exec_m. finish n.
  - exec_m. finish (S n).
  - exec_m. finish n.
Qed.

Lemma plug_not_leaf cx s : s <> Leaf -> plug cx s <> Leaf.
Proof.
  revert s. induction cx as [|a c k up IH r|a c l k up IH]; intros s Hs; simpl;
    [done|by apply IH..].
Qed.

Lemma okctx_black_parent cx n :
  red_parent cx = false -> cx <> Top -> okctx cx n true -> okctx cx n false.
Proof. destruct cx as [|a [] k up r|a [] l k up]; simpl; done. Qed.

(** The test of the loop: is the parent of [z] red? *)
Lemma fix_test_spec st cx z l k r n :
  loop_inv st cx z l k r n -> fix_test st (Some z) = Some (red_parent cx).
Proof.
  intros (Hm & _ & _). unfold fix_test.
  rewrite (models_root _ _ Hm), addr_of_plug. simpl.
  destruct (models_node _ _ _ _ _ _ _ Hm) as [ti Hz].
  pose proof (models_distinct _ _ Hm) as [Hnd Hz0].
  destruct (plug_addrs_facts _ _ Hnd Hz0) as (_ & _ & Hdisj & _ & _).
  destruct cx as [|p c kp up sib|p c sib kp up]; simpl.
  - rewrite decide_False by dec_solve. done.
  - rewrite decide_True.
    2:{ intros [= E]. apply (Hdisj z); [left|]. rewrite E.
        by apply (ctx_root_in (InL p c kp up sib) z). }
    simpl in Hm. exec_m. by destruct c.
  - rewrite decide_True.
    2:{ intros [= E]. apply (Hdisj z); [left|]. rewrite E.
        by apply (ctx_root_in (InR p c sib kp up) z). }
    simpl in Hm. exec_m. by destruct c.
Qed.

Lemma fix_loop_spec fuel : forall st cx z l k r n,
  loop_inv st cx z l k r n -> depth cx < fuel ->
  exists st' t',
    fix_loop fuel st (Some z) = Some st'
    /\ models st' t'
    /\ (exists m, rb t' m)
    /\ t' <> Leaf
    /\ keys t' = keys (plug cx (T z Red l k r)).
Proof.
  induction fuel as [|fuel IH]; intros st cx z l k r n Hinv Hd; [lia|].
  simpl. rewrite (fix_test_spec _ _ _ _ _ _ _ Hinv). simpl.
  destruct (red_parent cx) eqn:Hred.
  - destruct (fix_body_spec _ _ _ _ _ _ _ Hinv Hred)
      as (st' & cx' & z' & l' & k' & r' & n' & E & Hinv' & Hd' & Hk).
    rewrite E. simpl.
    destruct (IH _ _ _ _ _ _ _ Hinv' ltac:(lia)) as (st'' & t' & E' & ? & ? & ? & Hk').
    exists st'', t'. split; [done|]. split; [done|]. split; [done|].
    split; [done|]. by rewrite Hk', Hk.
  - destruct Hinv as (Hm & Hrb & Hok).
    exists st, (plug cx (T z Red l k r)).
    split; [done|]. split; [done|]. split; [|split; [|done]].
    + assert (cx = Top \/ cx <> Top) as [->|Hne]
        by (destruct cx; [by left|by right..]); [by exists n|].
      eapply plug_valid; [by apply okctx_black_parent| exact Hrb |done].
    + by apply plug_not_leaf.
Qed.

(** A store that holds a tree has more objects than the tree has
    nodes: the sentinel is one of them. *)
Lemma models_size st t : models st t -> length (addrs t) < size (heap st).
Proof.
  intros (_ & (n0 & H0 & _) & _ & Hr & Hnd & Hz & _).
  assert (list_to_set (0 :: addrs t) ⊆ dom (heap st)) as Hsub.
  { intros a Ha. apply elem_of_list_to_set in Ha. apply elem_of_dom.
    apply elem_of_cons in Ha as [->|Ha]; [by eexists|].
    by eapply repr_is_Some. }
  apply subseteq_size in Hsub. rewrite size_dom in Hsub.
  rewrite size_list_to_set in Hsub; [simpl in Hsub; lia|].
  by constructor.
Qed.

(** Colouring the root black. *)
Definition blacken (t : tree) : tree :=
  match t with
  | Leaf => Leaf
  | T a _ l k r => T a Black l k r
  end.

Lemma blacken_valid t m : rb t m -> valid (blacken t).
Proof.
  destruct t as [|a [] l k r]; simpl.
  - intros ->. split; [done|by exists 0].
  - intros (_ & _ & Hl & Hr). split; [done|]. by exists (S m).
  - destruct m as [|m]; [done|]. intros [Hl Hr]. split; [done|].
    by exists (S m).
Qed.

(** [fix_insertion] on a tree that is a red-black tree but for the red
    node [z]: it returns, and the store holds a red-black tree with the
    same authors in the same order. *)
Lemma fix_insertion_spec st cx z l k r n :
  loop_inv st cx z l k r n ->
  exists st' t',
    fix_insertion st (Some z) = Some st'
    /\ models st' t'
    /\ valid t'
    /\ keys t' = keys (plug cx (T z Red l k r)).
Proof.
  intros Hinv. unfold fix_insertion.
  destruct (fix_loop_spec (size (heap st)) _ _ _ _ _ _ _ Hinv)
    as (st' & t' & E & Hm & [m Hrb] & Hne & Hk).
  { destruct Hinv as (Hm & _). pose proof (models_size _ _ Hm) as Hs.
    pose proof (depth_le_addrs cx) as Hd.
    pose proof (Permutation_length (addrs_plug cx (T z Red l k r))) as Hl.
    rewrite length_app in Hl. lia. }
  rewrite E. simpl. rewrite (models_root _ _ Hm).
  destruct t' as [|a c tl tk tr]; [done|]. simpl.
  destruct (set_color_spec st' Top a c tl tk tr Black Hm) as (st'' & E' & Hm').
  exists st'', (T a Black tl tk tr). split; [done|]. split; [done|].
  split; [|done]. apply (blacken_valid (T a c tl tk tr) m Hrb).
Qed.

(** *** [insert] *)

(** The last step of the descent went to the side of the hole. *)
Definition went (key : string) (cx : ctx) : Prop :=
  match cx with
  | Top => True
  | InL _ _ k _ _ => PyStr.lt key k = true
  | InR _ _ _ k _ => PyStr.lt key k = false
  end.

(** The descent of [_insert_node] ends at a leaf and returns its
    parent. *)
Lemma descend_spec s : forall fuel st cx key,
  models st (plug cx s) -> went key cx -> length (addrs s) < fuel ->
  exists cx',
    descend fuel st key (hole_parent cx) (Some (addr_of s))
    = Some (hole_parent cx')
    /\ plug cx' Leaf = plug cx s
    /\ went key cx'.
Proof.
  induction s as [|b c l IHl k r IHr]; intros fuel st cx key Hm Hw Hf;
    (destruct fuel as [|fuel]; [simpl in Hf; lia|]); simpl.
  - rewrite (proj1 (models_sentinel _ _ Hm)).
    rewrite decide_False by dec_solve. by exists cx.
  - rewrite (proj1 (models_sentinel _ _ Hm)).
    pose proof (models_distinct _ _ Hm) as [Hnd Hz].
    destruct (plug_addrs_facts _ _ Hnd Hz) as (_ & _ & _ & Hzs & _).
    assert (b ≠ 0) by (intros ->; apply Hzs; left).
    rewrite decide_True by dec_solve.
    simpl in Hf. rewrite length_app in Hf.
    exec_m. destruct (PyStr.lt key k) eqn:E.
    + exec_m.
      destruct (IHl fuel st (InL b c k cx r) key Hm E ltac:(lia))
        as (cx' & E' & Hp & Hw').
      exists cx'. by rewrite <- E'.
    + exec_m.
      destruct (IHr fuel st (InR b c l k cx) key Hm E ltac:(lia))
        as (cx' & E' & Hp & Hw').
      exists cx'. by rewrite <- E'.
Qed.

Lemma fresh_above_S h nx : fresh_above h nx -> fresh_above h (S nx).
Proof. intros H a Ha. specialize (H a Ha). lia. Qed.

#[global] Arguments _insert_node : simpl never.

(** [RBNode(title, author)] with both children set to the sentinel: a
    new object beside the tree. *)
Lemma alloc_spec st t ti key :
  models st t ->
  exists st',
    insert st ti key = _insert_node st' (Some (next st))
    /\ models st' t
    /\ heap st' !! next st = Some (mkNode ti key Red (Some 0) (Some 0) None)
    /\ (next st ∉ addrs t)
    /\ next st <> 0.
Proof.
  intros (HN & (n0 & H0 & Hc0) & Hroot & Hrepr & Hnd & Hz & Hfresh).
  destruct st as [h a nil rt]. simpl in *. subst nil.
  assert (h !! a = None) as Hnone.
  { destruct (h !! a) eqn:E; [|done].
    assert (a < a) by (apply Hfresh; by rewrite E). lia. }
  assert (a ≠ 0) as Ha0 by (intros ->; by rewrite H0 in Hnone).
  assert (a ∉ addrs t) as Hna.
  { intros Ha. destruct (repr_is_Some _ _ _ _ Hrepr Ha) as [? E].
    by rewrite E in Hnone. }
  unfold insert. exec. eexists. split; [reflexivity|]. unfold new_RBNode. simpl.
  split; [|split; [lk|done]].
  unfold models. simpl. split; [done|].
  split; [exists n0; split; [lk|done]|]. split; [done|].
  split. { eapply repr_frame; [|exact Hrepr]. intros b Hb. simpl.
           rewrite !lookup_insert_ne; [done|intros ->; by apply Hna..]. }
  split; [done|]. split; [done|].
  intros b. rewrite !lookup_insert_is_Some.
  intros [<-|[_ [<-|[_ [<-|[_ Hb]]]]]]; try lia.
  specialize (Hfresh b Hb). lia.
Qed.

Lemma addrs_plug_node cx a c k :
  addrs (plug cx (T a c Leaf k Leaf)) ≡ₚ a :: addrs (plug cx Leaf).
Proof. by rewrite !addrs_plug. Qed.

(** Hanging the new red node into the hole the descent found. *)
Lemma attach_spec st cx a ti key :
  models st (plug cx Leaf) ->
  heap st !! a = Some (mkNode ti key Red (Some 0) (Some 0) None) ->
  a ∉ addrs (plug cx Leaf) -> a <> 0 -> went key cx ->
  exists st',
    (st1 ← set_parent st (Some a) (hole_parent cx);
     st2 ← (if decide (hole_parent cx = None)
            then Some (set_root st1 (Some a))
            else
              pa ← author_of st1 (hole_parent cx);
              if PyStr.lt key pa then set_left st1 (hole_parent cx) (Some a)
              else set_right st1 (hole_parent cx) (Some a));
     set_color st2 (Some a) Red) = Some st'
    /\ models st' (plug cx (T a Red Leaf key Leaf)).
Proof.
  intros (HN & (n0 & H0 & Hc0) & Hroot & Hrepr & Hnd & Hz & Hfresh) Ha Hna Ha0 Hw.
  assert (distinct (plug cx (T a Red Leaf key Leaf))) as Hdist.
  { unfold distinct. rewrite addrs_plug_node. split.
    - by constructor.
    - rewrite not_elem_of_cons. split; [done|done]. }
  rewrite addrs_plug in Hna. simpl in Hna.
  destruct (plug_addrs_facts _ _ Hnd Hz) as (_ & Hndc & _ & _ & Hzc).
  apply repr_plug in Hrepr as [Hcx _].
  destruct st as [h nx nil rt]. simpl in *. subst nil.
  clear Hnd Hz.
  destruct cx as [|p cp kp up rr|p cp ll kp up]; simpl in *;
    repeat match goal with
           | H : _ /\ _ |- _ => destruct H
           | H : exists _, _ |- _ => destruct H
           end;
    split_nodup;
    try (assert (a ≠ p) by solve_ne; assert (p ≠ 0) by solve_ne).
  - exec. eexists. split; [reflexivity|]. solve_models.
  - exec. rewrite Hw. exec. eexists. split; [reflexivity|]. solve_models.
  - exec. rewrite Hw. exec. eexists. split; [reflexivity|]. solve_models.
Qed.

Lemma rb_leaf n : rb Leaf n -> n = 0.
Proof. done. Qed.

(** [insert(title, author)] on a red-black tree: it returns, the store
    holds a red-black tree again, and its authors are the old ones and
    the new one. *)
Lemma insert_spec st t ti key :
  models st t -> valid t ->
  exists st' t',
    insert st ti key = Some st'
    /\ models st' t'
    /\ valid t'
    /\ keys t' ≡ₚ key :: keys t.
Proof.
  intros Hm Hv.
  destruct (alloc_spec st t ti key Hm) as (st1 & -> & Hm1 & Ha & Hna & Ha0).
  unfold _insert_node. erewrite author_of_lookup by eassumption. simpl.
  rewrite (models_root _ _ Hm1).
  destruct (descend_spec t (size (heap st1)) st1 Top key Hm1 I
              (models_size _ _ Hm1)) as (cx & E & Hp & Hw).
  simpl in E, Hp. rewrite E. simpl. rewrite <- Hp in Hm1, Hv, Hna |- *.
  destruct (attach_spec st1 cx (next st) ti key Hm1 Ha Hna Ha0 Hw)
    as (st2 & E2 & Hm2).
  destruct (set_parent st1 (Some (next st)) (hole_parent cx)) as [sa|]; [|done].
  simpl in E2 |- *.
  destruct (if decide (hole_parent cx = None) then _ else _) as [sb|]; [|done].
  simpl in E2 |- *. rewrite E2. simpl.
  destruct (valid_hole cx Leaf Hv) as (n & Hn & Hok).
  apply rb_leaf in Hn as ->. simpl in Hok.
  destruct (fix_insertion_spec st2 cx (next st) Leaf key Leaf 0)
    as (st3 & t3 & E3 & Hm3 & Hv3 & Hk3).
  { split; [done|]. split; [simpl; done|done]. }
  exists st3, t3. split; [done|]. split; [done|]. split; [done|].
  by rewrite Hk3, !keys_plug.
Qed.

Lemma models_new : models new_RBTree Leaf.
Proof.
  unfold models, new_RBTree. simpl. split; [done|].
  split; [eexists; split; [apply lookup_singleton_eq|done]|].
  split; [done|]. split; [done|]. split; [constructor|].
  split; [apply not_elem_of_nil|].
  intros a [n Ha]. apply lookup_singleton_Some in Ha as [<- _]. lia.
Qed.

Lemma valid_leaf : valid Leaf.
Proof. split; [done|by exists 0]. Qed.

Lemma insert_all_from entries : forall st t,
  models st t -> valid t ->
  exists st' t',
    foldl (fun st e => st ← st; insert st e.1 e.2) (Some st) entries = Some st'
    /\ models st' t'
    /\ valid t'
    /\ keys t' ≡ₚ entries.*2 ++ keys t.
Proof.
  induction entries as [|[ti key] entries IH]; intros st t Hm Hv; simpl.
  - by exists st, t.
  - destruct (insert_spec st t ti key Hm Hv) as (st1 & t1 & -> & Hm1 & Hv1 & Hk1).
    destruct (IH st1 t1 Hm1 Hv1) as (st2 & t2 & E & Hm2 & Hv2 & Hk2).
    exists st2, t2. split; [done|]. split; [done|]. split; [done|].
    rewrite Hk2, Hk1. by rewrite Permutation_middle.
Qed.

(** Every sequence of inserts returns, and leaves a red-black tree that
    holds the inserted authors. *)
Lemma insert_all_spec entries :
  exists st t,
    insert_all entries = Some st
    /\ models st t /\ valid t /\ keys t ≡ₚ entries.*2.
Proof.
  destruct (insert_all_from entries new_RBTree Leaf models_new valid_leaf)
    as (st & t & E & Hm & Hv & Hk).
  exists st, t. rewrite app_nil_r in Hk. done.
Qed.

(** *** The invariants, read off the store *)

(** [b] is the [left] or the [right] attribute of the node [a], which is
    not the sentinel. *)
Inductive child (st : RBTree) : ref -> ref -> Prop :=
| child_left a n :
    a <> NIL st -> deref st a = Some n -> child st a (left n)
| child_right a n :
    a <> NIL st -> deref st a = Some n -> child st a (right n).

(** What the root reaches by following [left] and [right]. *)
Definition reachable (st : RBTree) (a : ref) : Prop :=
  rtc (child st) (root st) a.

(** A path from [a] down to the sentinel, with the colours of the nodes
    on it, [a] first; the sentinel itself is not listed. *)
Inductive path (st : RBTree) : ref -> list node_color -> Prop :=
| path_end : path st (NIL st) []
| path_step a b cs n :
    child st a b -> deref st a = Some n -> path st b cs ->
    path st a (color n :: cs).

(** The number of black nodes among [cs]. *)
Definition blacks (cs : list node_color) : nat :=
  length (filter (fun c => c = Black) cs).

(** The object [a] is the root of the subtree [s] of the tree the store
    holds, and [s] has [n] black nodes on every path. *)
Definition at_tree (st : RBTree) (a : ref) (s : tree) (n : nat) : Prop :=
  a = Some (addr_of s) /\ (exists par, repr (heap st) s par)
  /\ (0 ∉ addrs s) /\ rb s n.

Definition tree_color (s : tree) : node_color :=
  match s with
  | T _ Red _ _ _ => Red
  | _ => Black
  end.

Definition below (c : node_color) (n : nat) : nat :=
  match c with
  | Red => n
  | Black => pred n
  end.

Lemma at_tree_color st t a s n :
  models st t -> at_tree st a s n -> color_of st a = Some (tree_color s).
Proof.
  intros Hm (-> & [par Hr] & _ & _).
  destruct s as [|x c l k r]; simpl.
  - by destruct (models_sentinel _ _ Hm).
  - destruct Hr as ([ti Hx] & _). erewrite color_of_lookup by eassumption.
    simpl. by destruct c.
Qed.

Lemma at_tree_deref st t a s n nd :
  models st t -> at_tree st a s n -> a <> NIL st -> deref st a = Some nd ->
  exists x c l k r,
    s = T x c l k r /\ color nd = c
    /\ at_tree st (left nd) l (below c n) /\ at_tree st (right nd) r (below c n).
Proof.
  intros Hm (-> & [par Hr] & H0 & Hrb) Hne Hd.
  destruct Hm as (HN & _). rewrite HN in Hne.
  destruct s as [|x c l k r]; [done|]. simpl in *.
  destruct Hr as ([ti Hx] & Hl & Hr).
  unfold deref in Hd. simpl in Hd. rewrite Hx in Hd. injection Hd as <-.
  exists x, c, l, k, r. split; [done|]. split; [done|].
  assert ((0 ∉ addrs l) /\ (0 ∉ addrs r)) as [H0l H0r].
  { split; intros H; apply H0; right; apply elem_of_app; [by left|by right]. }
  assert (rb l (below c n) /\ rb r (below c n)) as [Hbl Hbr].
  { destruct c; simpl in *; [tauto|]. destruct n; [done|]. simpl. tauto. }
  split; (split; [done|]); (split; [by eexists|]); by split.
Qed.

Lemma at_tree_child st t a b s n :
  models st t -> at_tree st a s n -> child st a b ->
  exists s' n', at_tree st b s' n'
    /\ (tree_color s = Red -> tree_color s' = Black).
Proof.
  intros Hm Ha Hc.
  assert (forall nd, a <> NIL st -> deref st a = Some nd ->
            exists s1 s2 n', at_tree st (left nd) s1 n' /\ at_tree st (right nd) s2 n'
              /\ (tree_color s = Red ->
                  tree_color s1 = Black /\ tree_color s2 = Black)) as Hstep.
  { intros nd Hne Hd.
    destruct (at_tree_deref _ _ _ _ _ _ Hm Ha Hne Hd)
      as (x & c & l & k & r & -> & Hcol & Hl & Hr).
    exists l, r, (below c n). split; [done|]. split; [done|].
    destruct Ha as (_ & _ & _ & Hrb). destruct c; simpl; [|done].
    simpl in Hrb. destruct Hrb as (Bl & Br & _). intros _.
    split; [by destruct l as [|? [] ? ? ?]|by destruct r as [|? [] ? ? ?]]. }
  destruct Hc as [a nd Hne Hd|a nd Hne Hd];
    destruct (Hstep nd Hne Hd) as (s1 & s2 & n' & H1 & H2 & Hcol).
  - exists s1, n'. split; [done|]. intros H. by apply Hcol.
  - exists s2, n'. split; [done|]. intros H. by apply Hcol.
Qed.

Lemma models_at_root st t :
  models st t -> valid t -> exists n, at_tree st (root st) t n.
Proof.
  intros Hm [_ [n Hn]]. exists n.
  pose proof Hm as (_ & _ & HR & Hr & _ & H0 & _).
  split; [done|]. split; [by eexists|]. by split.
Qed.

Lemma reachable_at_tree st t a :
  models st t -> valid t -> reachable st a -> exists s n, at_tree st a s n.
Proof.
  intros Hm Hv Hreach. unfold reachable in Hreach.
  revert a Hreach. apply rtc_ind_r; [|intros b c Hb Hc IH].
  - destruct (models_at_root _ _ Hm Hv) as [n Hn]. by exists t, n.
  - destruct IH as (s & n & Hs).
    destruct (at_tree_child _ _ _ _ _ _ Hm Hs Hc) as (s' & n' & Hs' & _).
    by exists s', n'.
Qed.

(** The black nodes on a path from the root of a subtree. *)
Lemma path_blacks st t a cs :
  models st t -> path st a cs ->
  forall s n, at_tree st a s n -> blacks cs = n.
Proof.
  intros Hm Hp. induction Hp as [|a b cs nd Hc Hd Hp IH]; intros s n Ha.
  - destruct Ha as (E & _ & H0 & Hrb).
    destruct Hm as (HN & _). rewrite HN in E. injection E as E.
    symmetry in E. apply (addr_of_zero _ H0) in E. subst s. simpl in Hrb.
    by subst n.
  - assert (a <> NIL st) as Hne by (by destruct Hc).
    destruct (at_tree_deref _ _ _ _ _ _ Hm Ha Hne Hd)
      as (x & c & l & k & r & -> & Hcol & Hl & Hr).
    assert (blacks cs = below c n) as Hcs.
    { destruct Hc as [a nd' _ Hd'|a nd' _ Hd'];
        rewrite Hd in Hd'; injection Hd' as <-; by eapply IH. }
    destruct Ha as (_ & _ & _ & Hrb). unfold blacks in *.
    rewrite Hcol. destruct c.
    + rewrite filter_cons_False by done. exact Hcs.
    + rewrite filter_cons_True by done. cbn [length]. rewrite Hcs.
      simpl in Hrb. destruct n; [done|]. done.
Qed.

(** Every subtree has a path down to the sentinel. *)
Lemma path_exists st t s :
  models st t -> forall n, at_tree st (Some (addr_of s)) s n ->
  exists cs, path st (Some (addr_of s)) cs.
Proof.
  intros Hm. induction s as [|x c l IHl k r _]; intros n Ha.
  - exists []. destruct Hm as (HN & _). simpl. rewrite <- HN. constructor.
  - pose proof Ha as (_ & [par Hr] & H0 & _). simpl in Hr.
    destruct Hr as ([ti Hx] & _).
    assert (Some x <> NIL st) as Hne.
    { destruct Hm as (HN & _). rewrite HN. intros [= ->]. apply H0. left. }
    assert (deref st (Some x)
            = Some (mkNode ti k c (Some (addr_of l)) (Some (addr_of r)) par)) as Hd.
    { unfold deref. simpl. done. }
    destruct (at_tree_deref _ _ _ _ _ _ Hm Ha Hne Hd)
      as (? & ? & l' & ? & ? & [= <- <- <- <- <-] & _ & Hl & _).
    simpl in Hl. destruct (IHl _ Hl) as [cs Hcs].
    eexists. simpl. eapply path_step; [|exact Hd|exact Hcs].
    by apply (child_left st (Some x) _ Hne Hd).
Qed.

(** C2.  After any sequence of inserts into the author index, starting
    from the empty tree whose root is the sentinel, the inserts return
    and the store satisfies the three red-black invariants: the root is
    black; no red node that the root reaches has a red child; and every
    path from the root down to the sentinel passes the same number of
    black nodes (and there is such a path). *)
Theorem red_black_invariants_after_inserts (entries : list (string * string)) :
  exists st,
    insert_all entries = Some st
    /\ color_of st (root st) = Some Black
    /\ (forall a b, reachable st a -> child st a b ->
          color_of st a = Some Red -> color_of st b = Some Black)
    /\ (exists cs, path st (root st) cs)
    /\ (exists n, forall cs, path st (root st) cs -> blacks cs = n).
Proof.
  destruct (insert_all_spec entries) as (st & t & E & Hm & Hv & _).
  exists st. split; [done|].
  destruct (models_at_root _ _ Hm Hv) as [n Hroot].
  split; [|split; [|split]].
  - rewrite (at_tree_color _ _ _ _ _ Hm Hroot).
    destruct Hv as [Hb _]. by destruct t as [|? [] ? ? ?].
  - intros a b Ha Hc Hred.
    destruct (reachable_at_tree _ _ _ Hm Hv Ha) as (s & m & Hs).
    destruct (at_tree_child _ _ _ _ _ _ Hm Hs Hc) as (s' & m' & Hs' & Hcol).
    rewrite (at_tree_color _ _ _ _ _ Hm Hs) in Hred.
    rewrite (at_tree_color _ _ _ _ _ Hm Hs'). f_equal. apply Hcol.
    by injection Hred.
  - pose proof Hroot as (ER & _). rewrite ER in Hroot |- *.
    by eapply path_exists.
  - exists n. intros cs Hp. by eapply path_blacks.
Qed.

(** *** Listing the authors *)

(** The traversal returns the authors of a subtree from left to right,
    given fuel for its nodes. *)
Lemma inorder_authors_spec st fuel : forall s par,
  NIL st = Some 0 -> repr (heap st) s par -> (0 ∉ addrs s) ->
  length (addrs s) < fuel ->
  _inorder_authors fuel st (Some (addr_of s)) = Some (keys s).
Proof.
  induction fuel as [|fuel IH]; intros s par HN Hr H0 Hlen; [lia|].
  cbn [_inorder_authors]. rewrite HN.
  destruct s as [|x c l k r]; simpl addr_of.
  - rewrite decide_False by (intros H; by apply H). done.
  - assert (x <> 0) as Hx by (intros ->; apply H0; left).
    rewrite decide_True by (intros [= E]; done).
    simpl in Hr, Hlen. destruct Hr as ([ti Hn] & Hl & Hr).
    rewrite length_app in Hlen.
    assert ((0 ∉ addrs l) /\ (0 ∉ addrs r)) as [H0l H0r].
    { split; intros H; apply H0; right; apply elem_of_app; [by left|by right]. }
    erewrite left_of_lookup by eassumption. simpl.
    rewrite (IH l (Some x) HN Hl H0l) by lia. simpl.
    erewrite author_of_lookup by eassumption. simpl.
    erewrite right_of_lookup by eassumption. simpl.
    rewrite (IH r (Some x) HN Hr H0r) by lia. simpl. done.
Qed.

Lemma inorder_authors_models st t :
  models st t -> _inorder_authors (size (heap st)) st (root st) = Some (keys t).
Proof.
  intros Hm. pose proof (models_size _ _ Hm) as Hsz.
  destruct Hm as (HN & _ & -> & Hr & _ & H0 & _).
  by eapply inorder_authors_spec.
Qed.

(** [a < b] on [str], as a relation. *)
Definition str_lt (a b : string) : Prop := PyStr.lt a b = true.

Lemma sorted_insert_perm x l : sorted_insert x l ≡ₚ x :: l.
Proof.
  induction l as [|y l IH]; simpl; [done|].
  destruct (PyStr.lt x y); [done|]. rewrite IH. apply Permutation_swap.
Qed.

Lemma sorted_perm l : sorted l ≡ₚ l.
Proof.
  induction l as [|x l IH]; simpl; [done|].
  by rewrite sorted_insert_perm, IH.
Qed.

Lemma sorted_insert_sorted x l :
  (x ∉ l) -> StronglySorted str_lt l -> StronglySorted str_lt (sorted_insert x l).
Proof.
  induction l as [|y l IH]; intros Hx Hs; simpl.
  - by repeat constructor.
  - apply StronglySorted_inv in Hs as [Hs Hy].
    destruct (PyStr.lt x y) eqn:E.
    + constructor; [by constructor|]. constructor; [done|].
      eapply Forall_impl; [exact Hy|]. intros z Hz. by eapply PyStr.lt_trans.
    + assert (str_lt y x) as Hyx.
      { unfold str_lt. destruct (PyStr.lt y x) eqn:E'; [done|].
        exfalso. apply Hx. rewrite (PyStr.lt_total _ _ E E'). left. }
      constructor.
      * apply IH; [|done]. intros H. apply Hx. by right.
      * rewrite sorted_insert_perm. by constructor.
Qed.

Lemma sorted_sorted l : NoDup l -> StronglySorted str_lt (sorted l).
Proof.
  induction 1 as [|x l Hx Hnd IH]; simpl; [constructor|].
  apply sorted_insert_sorted; [|done]. by rewrite sorted_perm.
Qed.

Lemma str_lt_sorted_NoDup l : StronglySorted str_lt l -> NoDup l.
Proof.
  induction 1 as [|x l Hs IH Hx]; constructor; [|done].
  intros Hin. rewrite Forall_forall in Hx. specialize (Hx x Hin).
  unfold str_lt in Hx. by rewrite PyStr.lt_irrefl in Hx.
Qed.

(** On a store that holds [t], the method returns the authors of [t],
    each once, in ascending order. *)
Lemma list_unique_authors_models st t :
  models st t ->
  exists L, list_unique_authors st = Some L
    /\ StronglySorted str_lt L /\ (forall x, x ∈ L <-> x ∈ keys t).
Proof.
  intros Hm. unfold list_unique_authors.
  rewrite (inorder_authors_models _ _ Hm). simpl.
  eexists. split; [done|]. split.
  - apply sorted_sorted, NoDup_elements.
  - intros x. rewrite sorted_perm, elem_of_elements, elem_of_list_to_set. done.
Qed.

(** C4.  For every sequence of inserts into the author index,
    [list_unique_authors] returns a list that is strictly ascending in
    the order of [<] on strings, has no string twice, and holds exactly
    the inserted authors, two authors being the same only when they are
    equal as strings.  Inserting Bob, Ann, Bob, ann gives Ann, Bob, ann. *)
Theorem list_unique_authors_sorted_distinct :
  (forall entries : list (string * string),
      exists st L,
        insert_all entries = Some st
        /\ list_unique_authors st = Some L
        /\ StronglySorted str_lt L
        /\ NoDup L
        /\ (forall x, x ∈ L <-> x ∈ entries.*2))
  /\ (insert_all [("t1", "Bob"); ("t2", "Ann"); ("t3", "Bob"); ("t4", "ann")]%string
        ≫= list_unique_authors)
     = Some ["Ann"; "Bob"; "ann"]%string.
Proof.
  split.
  - intros entries.
    destruct (insert_all_spec entries) as (st & t & E & Hm & _ & Hk).
    destruct (list_unique_authors_models _ _ Hm) as (L & EL & Hs & Hin).
    exists st, L. split; [done|]. split; [done|]. split; [done|].
    split; [by apply str_lt_sorted_NoDup|].
    intros x. rewrite Hin. by rewrite Hk.
  - vm_compute. reflexivity.
Qed.

End RBFacts.

(** ** More on the title index *)

Module AVLMore.
Import AVL AVLFacts.

(** The height of a tree: the number of nodes on its longest branch. *)
Fixpoint height (n : node) : Z :=
  match n with
  | ANone => 0
  | ANode _ _ l r => 1 + Z.max (height l) (height r)
  end.

(** Every node stores the height of the tree below it. *)
Fixpoint exact_heights (n : node) : Prop :=
  match n with
  | ANone => True
  | ANode _ h l r => h = height n /\ exact_heights l /\ exact_heights r
  end.

(** [balance_tree] without its two single-rotation cases. *)
Definition balance_tree_double (n : node) : node :=
  match n with
  | ANone => ANone
  | ANode t h l r =>
      let balance := get_balance n in
      if (1 <? balance) && child_lt l t then
        rotate_right (ANode t h (rotate_left l) r)
      else if (balance <? -1) && child_gt r t then
        rotate_left (ANode t h l (rotate_right r))
      else n
  end.

Fixpoint insert_double (root : node) (title : string) : node :=
  match root with
  | ANone => AVLNode title
  | ANode t h l r =>
      let l' := if PyStr.lt title t then insert_double l title else l in
      let r' := if PyStr.lt title t then r else insert_double r title in
      balance_tree_double
        (ANode t (1 + Z.max (get_height l') (get_height r')) l' r')
  end.

Lemma heights_ok_node t h l r :
  heights_ok (ANode t h l r) = true
  <-> h = 1 + Z.max (get_height l) (get_height r)
      /\ heights_ok l = true /\ heights_ok r = true.
Proof. simpl. rewrite !andb_true_iff, Z.eqb_eq. tauto. Qed.

Lemma heights_ok_exact n : heights_ok n = true <-> exact_heights n.
Proof.
  induction n as [|t h l IHl r IHr]; [done|].
  rewrite heights_ok_node, IHl, IHr. cbn [exact_heights height].
  split.
  - intros (-> & Hl & Hr). repeat split; try done.
    destruct l, r; simpl in *; try done; intuition congruence.
  - intros (-> & Hl & Hr). repeat split; try done.
    destruct l, r; simpl in *; try done; intuition congruence.
Qed.

(** A rotation recomputes the two heights it changes, whatever height
    its argument stores. *)
Lemma heights_ok_rotate_left t h l r :
  heights_ok l = true -> heights_ok r = true -> r <> ANone ->
  heights_ok (rotate_left (ANode t h l r)) = true.
Proof.
  intros Hl Hr Hne. destruct r as [|yt yh T2 yr]; [done|].
  apply heights_ok_node in Hr as (_ & H2 & Hy).
  cbn [rotate_left]. rewrite !heights_ok_node. done.
Qed.

Lemma heights_ok_rotate_right t h l r :
  heights_ok l = true -> heights_ok r = true -> l <> ANone ->
  heights_ok (rotate_right (ANode t h l r)) = true.
Proof.
  intros Hl Hr Hne. destruct l as [|yt yh yl T3]; [done|].
  apply heights_ok_node in Hl as (_ & Hy & H3).
  cbn [rotate_right]. rewrite !heights_ok_node. done.
Qed.

Lemma rotate_left_not_none z : z <> ANone -> rotate_left z <> ANone.
Proof. by destruct z as [|? ? ? [|]]. Qed.

Lemma rotate_right_not_none z : z <> ANone -> rotate_right z <> ANone.
Proof. by destruct z as [|? ? [|] ?]. Qed.

Lemma heights_ok_rotate_left_same z :
  heights_ok z = true -> heights_ok (rotate_left z) = true.
Proof.
  destruct z as [|t h l r]; [done|]. intros H.
  destruct r as [|yt yh T2 yr]; [done|].
  apply heights_ok_node in H as (_ & Hl & Hr).
  by apply heights_ok_rotate_left.
Qed.

Lemma heights_ok_rotate_right_same z :
  heights_ok z = true -> heights_ok (rotate_right z) = true.
Proof.
  destruct z as [|t h l r]; [done|]. intros H.
  destruct l as [|yt yh yl T3]; [done|].
  apply heights_ok_node in H as (_ & Hl & Hr).
  by apply heights_ok_rotate_right.
Qed.

Lemma child_lt_not_none c t : child_lt c t = true -> c <> ANone.
Proof. by destruct c. Qed.

Lemma child_gt_not_none c t : child_gt c t = true -> c <> ANone.
Proof. by destruct c. Qed.

Lemma heights_ok_balance_tree n :
  heights_ok n = true -> heights_ok (balance_tree n) = true.
Proof.
  destruct n as [|t h l r]; [done|]. intros H.
  pose proof H as (_ & Hl & Hr)%heights_ok_node.
  unfold balance_tree.
  destruct (_ && child_gt l t); [by apply heights_ok_rotate_right_same|].
  destruct (_ && child_lt r t); [by apply heights_ok_rotate_left_same|].
  destruct (_ && child_lt l t) eqn:E1.
  { apply andb_true_iff in E1 as [_ E1%child_lt_not_none].
    apply heights_ok_rotate_right;
      [by apply heights_ok_rotate_left_same|done|by apply rotate_left_not_none]. }
  destruct (_ && child_gt r t) eqn:E2; [|done].
  apply andb_true_iff in E2 as [_ E2%child_gt_not_none].
  apply heights_ok_rotate_left;
    [done|by apply heights_ok_rotate_right_same|by apply rotate_right_not_none].
Qed.

Lemma heights_ok_insert n x :
  heights_ok n = true -> heights_ok (insert n x) = true.
Proof.
  induction n as [|t h l IHl r IHr]; [done|].
  intros (_ & Hl & Hr)%heights_ok_node. cbn [insert].
  apply heights_ok_balance_tree, heights_ok_node.
  split; [done|]. destruct (PyStr.lt x t); auto.
Qed.

Lemma startswith_refl s : PyStr.startswith s s = true.
Proof. induction s as [|c s IH]; simpl; [done|]. by rewrite Ascii.eqb_refl. Qed.

Lemma children_in_order t h l r :
  bst_weak (ANode t h l r) -> child_gt l t = false /\ child_lt r t = false.
Proof.
  intros (Hl & Hr & _ & _). split.
  - destruct l as [|lt lh ll lr]; [done|]. simpl in *.
    rewrite Forall_forall in Hl.
    specialize (Hl lt ltac:(apply elem_of_app; right; left)).
    unfold PyStr.gt. unfold PyStr.le in Hl. by apply negb_true_iff in Hl.
  - destruct r as [|rt rh rl rr]; [done|]. simpl in *.
    rewrite Forall_forall in Hr.
    specialize (Hr rt ltac:(apply elem_of_app; right; left)).
    unfold PyStr.le in Hr. by apply negb_true_iff in Hr.
Qed.

Lemma balance_tree_on_ordered n :
  bst_weak n -> balance_tree n = balance_tree_double n.
Proof.
  destruct n as [|t h l r]; [done|]. intros [Hl Hr]%children_in_order.
  unfold balance_tree, balance_tree_double. by rewrite Hl, Hr, !andb_false_r.
Qed.

Lemma insert_double_eq n x : bst_weak n -> insert n x = insert_double n x.
Proof.
  induction n as [|t h l IHl r IHr]; [done|].
  intros Hn. pose proof Hn as (Hl & Hr & Sl & Sr).
  cbn [insert insert_double]. rewrite <- IHl, <- IHr by done.
  apply balance_tree_on_ordered.
  pose proof (bst_weak_insert l x Sl) as Sl'.
  pose proof (bst_weak_insert r x Sr) as Sr'.
  cbn [bst_weak]. destruct (PyStr.lt x t) eqn:E.
  - repeat split; auto.
    rewrite titles_insert_perm. constructor; [by apply PyStr.lt_le|done].
  - repeat split; auto.
    rewrite titles_insert_perm. constructor; [|done].
    unfold PyStr.le. by rewrite E.
Qed.

(** X1.  After any sequence of inserts every node of the title tree
    stores the true height of the tree below it: [insert] and the
    rotations recompute every height they invalidate. *)
Theorem stored_heights_are_exact (ts : list string) :
  heights_ok (insert_all ts) = true
  /\ exact_heights (insert_all ts)
  /\ get_height (insert_all ts) = height (insert_all ts).
Proof.
  assert (heights_ok (insert_all ts) = true) as H.
  { unfold insert_all. generalize ANone, (eq_refl : heights_ok ANone = true).
    induction ts as [|x ts IH]; intros n Hn; simpl; [done|].
    by apply IH, heights_ok_insert. }
  split; [done|]. pose proof (proj1 (heights_ok_exact _) H) as He.
  split; [done|]. destruct (insert_all ts); [done|]. simpl in *. tauto.
Qed.

(** X2.  A left rotation at a node with a right child is undone by a
    right rotation at the new root, and a right rotation at a node with
    a left child by a left rotation, heights included, when the node and
    the child store their true heights; without that child a rotation
    returns the node as it is. *)
Theorem rotations_undo_each_other :
  (forall t h l r, r <> ANone -> heights_ok (ANode t h l r) = true ->
      rotate_right (rotate_left (ANode t h l r)) = ANode t h l r)
  /\ (forall t h l r, l <> ANone -> heights_ok (ANode t h l r) = true ->
      rotate_left (rotate_right (ANode t h l r)) = ANode t h l r)
  /\ (forall t h l, rotate_left (ANode t h l ANone) = ANode t h l ANone)
  /\ (forall t h r, rotate_right (ANode t h ANone r) = ANode t h ANone r).
Proof.
  repeat split; try done.
  - intros t h l [|yt yh T2 yr] Hne H; [done|].
    apply heights_ok_node in H as (-> & _ & (-> & _)%heights_ok_node).
    done.
  - intros t h [|yt yh yl T3] r Hne H; [done|].
    apply heights_ok_node in H as (-> & (-> & _)%heights_ok_node & _).
    done.
Qed.

(** X3.  On a tree in search order neither single-rotation case of
    [balance_tree] can be taken: the left child never has a title above
    that of its parent, the right child never one below.  So every tree
    built by [insert] is the tree built with the two double-rotation
    cases alone. *)
Theorem single_rotation_cases_are_dead :
  (forall t h l r, bst_weak (ANode t h l r) ->
      child_gt l t = false /\ child_lt r t = false)
  /\ (forall n, bst_weak n -> balance_tree n = balance_tree_double n)
  /\ (forall ts, insert_all ts = fold_left insert_double ts ANone).
Proof.
  split; [|split].
  - apply children_in_order.
  - apply balance_tree_on_ordered.
  - intros ts. unfold insert_all.
    generalize ANone, (I : bst_weak ANone).
    induction ts as [|x ts IH]; intros n Hn; simpl; [done|].
    rewrite <- (insert_double_eq n x Hn). by apply IH, bst_weak_insert.
Qed.

(** X4.  Inserting a title adds exactly that title to the answers of the
    prefix queries it matches and changes no other answer; so a title,
    once inserted, is found by the query for the title itself. *)
Theorem autocomplete_after_insert :
  (forall (n : node) (t p : string),
      autocomplete (insert n t) p
      ≡ₚ (if PyStr.startswith t p then [t] else []) ++ autocomplete n p)
  /\ (forall (n : node) (t : string), t ∈ autocomplete (insert n t) t).
Proof.
  assert (forall n t p, autocomplete (insert n t) p
      ≡ₚ (if PyStr.startswith t p then [t] else []) ++ autocomplete n p) as H.
  { intros n t p. rewrite !autocomplete_preorder.
    rewrite (filter_perm _ _ _ (preorder_titles (insert n t))).
    rewrite (filter_perm _ _ _ (titles_insert_perm n t)).
    rewrite (filter_perm _ _ _ (preorder_titles n)).
    simpl. by destruct (PyStr.startswith t p). }
  split; [done|]. intros n t. rewrite H, startswith_refl. left.
Qed.

End AVLMore.

(** ** More on the author index *)

Module RBMore.
Import RB RBFacts.

Local Open Scope nat_scope.

(** [a <= b] on [str], as a relation. *)
Definition str_le (a b : string) : Prop := PyStr.le a b = true.

(** The authors to the left and to the right of the hole of a context,
    from left to right. *)
Fixpoint before (cx : ctx) : list string :=
  match cx with
  | Top => []
  | InL _ _ _ up _ => before up
  | InR _ _ l k up => before up ++ keys l ++ [k]
  end.

Fixpoint after (cx : ctx) : list string :=
  match cx with
  | Top => []
  | InL _ _ k up r => k :: keys r ++ after up
  | InR _ _ _ _ up => after up
  end.

(** Every step of the descent to the hole went to the side the
    comparison of [_insert_node] chooses for [key]. *)
Fixpoint went_all (key : string) (cx : ctx) : Prop :=
  match cx with
  | Top => True
  | InL _ _ k up _ => PyStr.lt key k = true /\ went_all key up
  | InR _ _ _ k up => PyStr.lt key k = false /\ went_all key up
  end.

(** The object [a] is the root of the subtree [s], whose parent
    attribute is [par]. *)
Definition holds_at (st : RBTree) (a : ref) (s : tree) (par : ref) : Prop :=
  a = Some (addr_of s) /\ repr (heap st) s par /\ (0 ∉ addrs s).

(** The number of nodes a path may pass in a subtree with [n] black
    nodes on every path. *)
Definition reach_bound (s : tree) (n : nat) : nat :=
  match tree_color s with
  | Red => 2 * n + 1
  | Black => 2 * n
  end.

Lemma keys_plug_split cx s : keys (plug cx s) = before cx ++ keys s ++ after cx.
Proof.
  revert s. induction cx as [|a c k up IH r|a c l k up IH]; intros s; simpl.
  - by rewrite app_nil_r.
  - rewrite IH. simpl. by rewrite <- !app_assoc.
  - rewrite IH. simpl. by rewrite <- !app_assoc.
Qed.

Lemma went_all_went key cx : went_all key cx -> went key cx.
Proof. destruct cx; simpl; tauto. Qed.

(** The descent of [_insert_node], with every step recorded. *)
Lemma descend_all s : forall fuel st cx key,
  models st (plug cx s) -> went_all key cx -> length (addrs s) < fuel ->
  exists cx',
    descend fuel st key (hole_parent cx) (Some (addr_of s))
    = Some (hole_parent cx')
    /\ plug cx' Leaf = plug cx s
    /\ went_all key cx'.
Proof.
  induction s as [|b c l IHl k r IHr]; intros fuel st cx key Hm Hw Hf;
    (destruct fuel as [|fuel]; [simpl in Hf; lia|]); simpl.
  - rewrite (proj1 (models_sentinel _ _ Hm)).
    rewrite decide_False by dec_solve. by exists cx.
  - rewrite (proj1 (models_sentinel _ _ Hm)).
    pose proof (models_distinct _ _ Hm) as [Hnd Hz].
    destruct (plug_addrs_facts _ _ Hnd Hz) as (_ & _ & _ & Hzs & _).
    assert (b ≠ 0) by (intros ->; apply Hzs; left).
    rewrite decide_True by dec_solve.
    simpl in Hf. rewrite length_app in Hf.
    exec_m. destruct (PyStr.lt key k) eqn:E.
    + exec_m.
      destruct (IHl fuel st (InL b c k cx r) key Hm (conj E Hw) ltac:(lia))
        as (cx' & E' & Hp & Hw').
      exists cx'. by rewrite <- E'.
    + exec_m.
      destruct (IHr fuel st (InR b c l k cx) key Hm (conj E Hw) ltac:(lia))
        as (cx' & E' & Hp & Hw').
      exists cx'. by rewrite <- E'.
Qed.

#[local] Instance str_le_trans : Transitive str_le.
Proof. intros a b c. apply PyStr.le_trans. Qed.

(** In a sorted tree the descent leaves everything not above the key on
    its left and everything not below it on its right. *)
Lemma went_all_bounds key cx :
  StronglySorted str_le (before cx ++ after cx) -> went_all key cx ->
  Forall (fun x => str_le x key) (before cx)
  /\ Forall (fun x => str_le key x) (after cx).
Proof.
  induction cx as [|a c k up IH r|a c l k up IH]; simpl; intros Hs Hw.
  - split; constructor.
  - destruct Hw as [Hk Hw].
    apply StronglySorted_app in Hs as (Hba & Sb & Sa).
    apply StronglySorted_inv in Sa as [Sa Hka].
    apply StronglySorted_app in Sa as (Hra & Sr & Sa).
    destruct IH as [IHb IHa]; [|done|].
    { apply StronglySorted_app. split; [|done].
      intros x y Hx Hy. apply Hba; [done|]. right. apply elem_of_app. by right. }
    split; [done|]. assert (str_le key k) as Hkk by (by apply PyStr.lt_le).
    constructor; [done|]. apply Forall_app. split; [|done].
    apply Forall_app in Hka as [Hkr _].
    eapply Forall_impl; [exact Hkr|]. intros x Hx. by etrans.
  - destruct Hw as [Hk Hw].
    rewrite <- !app_assoc in Hs.
    apply StronglySorted_app in Hs as (Hba & Sb & Sa).
    apply StronglySorted_app in Sa as (Hla & Sl & Sa).
    change ([k] ++ after up) with (k :: after up) in *.
    apply StronglySorted_inv in Sa as [Sa Hka].
    destruct IH as [IHb IHa]; [|done|].
    { apply StronglySorted_app. split; [|done].
      intros x y Hx Hy. apply Hba; [done|].
      apply elem_of_app. right. by right. }
    split; [|done]. assert (str_le k key) as Hkk.
    { unfold str_le, PyStr.le. by rewrite Hk. }
    rewrite !Forall_app. split; [done|]. split; [|by repeat constructor].
    apply Forall_forall. intros x Hx. etrans; [|exact Hkk].
    apply Hla; [done|left].
Qed.

Lemma sorted_put key cx :
  StronglySorted str_le (before cx ++ after cx) -> went_all key cx ->
  StronglySorted str_le (before cx ++ key :: after cx).
Proof.
  intros Hs Hw. destruct (went_all_bounds key cx Hs Hw) as [Hb Ha].
  apply StronglySorted_app in Hs as (Hba & Sb & Sa).
  apply StronglySorted_app. split; [|split; [done|by constructor]].
  intros x y Hx [->|Hy]%elem_of_cons; [|by apply Hba].
  rewrite Forall_forall in Hb. by apply Hb.
Qed.

(** [insert] keeps the authors in order from left to right. *)
Lemma insert_sorted_spec st t ti key :
  models st t -> valid t -> StronglySorted str_le (keys t) ->
  exists st' t',
    insert st ti key = Some st'
    /\ models st' t'
    /\ valid t'
    /\ StronglySorted str_le (keys t')
    /\ keys t' ≡ₚ key :: keys t.
Proof.
  intros Hm Hv Hs.
  destruct (alloc_spec st t ti key Hm) as (st1 & -> & Hm1 & Ha & Hna & Ha0).
  unfold _insert_node. erewrite author_of_lookup by eassumption. simpl.
  rewrite (models_root _ _ Hm1).
  destruct (descend_all t (size (heap st1)) st1 Top key Hm1 I
              (models_size _ _ Hm1)) as (cx & E & Hp & Hw).
  simpl in E, Hp. rewrite E. simpl. rewrite <- Hp in Hm1, Hv, Hna, Hs |- *.
  destruct (attach_spec st1 cx (next st) ti key Hm1 Ha Hna Ha0
              (went_all_went _ _ Hw)) as (st2 & E2 & Hm2).
  destruct (set_parent st1 (Some (next st)) (hole_parent cx)) as [sa|]; [|done].
  simpl in E2 |- *.
  destruct (if decide (hole_parent cx = None) then _ else _) as [sb|]; [|done].
  simpl in E2 |- *. rewrite E2. simpl.
  destruct (valid_hole cx Leaf Hv) as (n & Hn & Hok).
  apply rb_leaf in Hn as ->. simpl in Hok.
  destruct (fix_insertion_spec st2 cx (next st) Leaf key Leaf 0)
    as (st3 & t3 & E3 & Hm3 & Hv3 & Hk3).
  { split; [done|]. split; [simpl; done|done]. }
  exists st3, t3. split; [done|]. split; [done|]. split; [done|].
  rewrite Hk3, !keys_plug_split in *. simpl in *. split.
  - by apply sorted_put.
  - by rewrite <- Permutation_middle.
Qed.

Lemma insert_all_sorted_from entries : forall st t,
  models st t -> valid t -> StronglySorted str_le (keys t) ->
  exists st' t',
    foldl (fun st e => st ← st; insert st e.1 e.2) (Some st) entries = Some st'
    /\ models st' t'
    /\ valid t'
    /\ StronglySorted str_le (keys t')
    /\ keys t' ≡ₚ entries.*2 ++ keys t.
Proof.
  induction entries as [|[ti key] entries IH]; intros st t Hm Hv Hs; simpl.
  - by exists st, t.
  - destruct (insert_sorted_spec st t ti key Hm Hv Hs)
      as (st1 & t1 & -> & Hm1 & Hv1 & Hs1 & Hk1).
    destruct (IH st1 t1 Hm1 Hv1 Hs1) as (st2 & t2 & E & Hm2 & Hv2 & Hs2 & Hk2).
    exists st2, t2. split; [done|]. split; [done|]. split; [done|].
    split; [done|]. rewrite Hk2, Hk1. by rewrite Permutation_middle.
Qed.

Lemma insert_all_sorted entries :
  exists st t,
    insert_all entries = Some st
    /\ models st t /\ valid t
    /\ StronglySorted str_le (keys t) /\ keys t ≡ₚ entries.*2.
Proof.
  destruct (insert_all_sorted_from entries new_RBTree Leaf models_new valid_leaf)
    as (st & t & E & Hm & Hv & Hs & Hk); [constructor|].
  exists st, t. rewrite app_nil_r in Hk. done.
Qed.

(** X5.  After any sequence of inserts the author tree is a search tree
    with one node for each call: the in-order traversal returns the
    inserted authors, repeated ones as often as inserted, in ascending
    order. *)
Theorem inorder_is_sorted_and_complete (entries : list (string * string)) :
  exists st L,
    insert_all entries = Some st
    /\ _inorder_authors (size (heap st)) st (root st) = Some L
    /\ StronglySorted str_le L
    /\ L ≡ₚ entries.*2
    /\ length L = length entries.
Proof.
  destruct (insert_all_sorted entries) as (st & t & E & Hm & _ & Hs & Hk).
  exists st, (keys t). split; [done|].
  split; [by apply inorder_authors_models|]. split; [done|]. split; [done|].
  by rewrite Hk, length_fmap.
Qed.

Lemma holds_at_deref st a s par nd :
  NIL st = Some 0 -> holds_at st a s par -> a <> NIL st ->
  deref st a = Some nd ->
  exists x c l k r,
    s = T x c l k r /\ a = Some x /\ color nd = c /\ parent nd = par
    /\ holds_at st (left nd) l a /\ holds_at st (right nd) r a.
Proof.
  intros HN (-> & Hr & H0) Hne Hd. rewrite HN in Hne.
  destruct s as [|x c l k r]; [done|]. simpl in *.
  destruct Hr as ([ti Hx] & Hl & Hr).
  unfold deref in Hd. simpl in Hd. rewrite Hx in Hd. injection Hd as <-.
  exists x, c, l, k, r. simpl. repeat split; try done.
  - intros H; apply H0; right; apply elem_of_app; by left.
  - intros H; apply H0; right; apply elem_of_app; by right.
Qed.

Lemma holds_at_child st a b s par :
  NIL st = Some 0 -> holds_at st a s par -> child st a b ->
  exists s', holds_at st b s' a.
Proof.
  intros HN Ha Hc. destruct Hc as [a nd Hne Hd|a nd Hne Hd];
    destruct (holds_at_deref _ _ _ _ _ HN Ha Hne Hd)
      as (x & c & l & k & r & _ & _ & _ & _ & Hl & Hr); eauto.
Qed.

Lemma reachable_holds_at st t a :
  models st t -> reachable st a -> exists s par, holds_at st a s par.
Proof.
  intros Hm Hreach. pose proof Hm as (HN & _ & HR & Hr & _ & H0 & _).
  unfold reachable in Hreach.
  revert a Hreach. apply rtc_ind_r; [|intros b c Hb Hc IH].
  - by exists t, None.
  - destruct IH as (s & par & Hs).
    destruct (holds_at_child _ _ _ _ _ HN Hs Hc) as [s' Hs']. by exists s', b.
Qed.

(** X6.  After any sequence of inserts the parent references agree with
    the child references: the root has no parent, and every node that a
    reachable node has as its left or right child names that node as its
    parent. *)
Theorem parents_agree_with_children (entries : list (string * string)) :
  exists st,
    insert_all entries = Some st
    /\ (root st <> NIL st -> parent_of st (root st) = Some None)
    /\ (forall a b, reachable st a -> child st a b -> b <> NIL st ->
          parent_of st b = Some a).
Proof.
  destruct (insert_all_spec entries) as (st & t & E & Hm & _ & _).
  exists st. split; [done|].
  pose proof Hm as (HN & _ & HR & Hr & _ & H0 & _).
  assert (forall b s par, holds_at st b s par -> b <> NIL st ->
            parent_of st b = Some par) as Hpar.
  { intros b s par (-> & Hs & _) Hne. rewrite HN in Hne.
    destruct s as [|x c l k r]; [done|]. simpl in *.
    destruct Hs as ([ti Hx] & _). by erewrite parent_of_lookup by eassumption. }
  assert (holds_at st (root st) t None) as Hroot by done.
  split; [by apply (Hpar _ t)|].
  intros a b Ha Hc Hne.
  destruct (reachable_holds_at _ _ _ Hm Ha) as (s & par & Hs).
  destruct (holds_at_child _ _ _ _ _ HN Hs Hc) as [s' Hs'].
  by apply (Hpar _ s').
Qed.

(** A subtree with [n] black nodes on every path has at least
    [2 ^ n - 1] nodes. *)
Lemma rb_size s n : rb s n -> 2 ^ n <= length (keys s) + 1.
Proof.
  revert n. induction s as [|x c l IHl k r IHr]; intros n; simpl.
  - intros ->. simpl. lia.
  - rewrite length_app. simpl. destruct c.
    + intros (_ & _ & Hl & Hr). specialize (IHl _ Hl). lia.
    + destruct n as [|m]; [done|]. intros [Hl Hr].
      specialize (IHl _ Hl). specialize (IHr _ Hr).
      rewrite Nat.pow_succ_r'. lia.
Qed.

Lemma reach_bound_child c l r n x k :
  rb (T x c l k r) n ->
  S (reach_bound l (below c n)) <= reach_bound (T x c l k r) n
  /\ S (reach_bound r (below c n)) <= reach_bound (T x c l k r) n.
Proof.
  unfold reach_bound. destruct c; simpl.
  - intros (Bl & Br & _ & _).
    destruct l as [|? [] ? ? ?], r as [|? [] ? ? ?]; simpl in *; try done; lia.
  - destruct n as [|m]; [done|]. intros _. simpl.
    destruct (tree_color l), (tree_color r); lia.
Qed.

(** A path down from the root of a subtree passes no more nodes than
    twice its black nodes, and one more below a red root. *)
Lemma path_length st t a cs :
  models st t -> path st a cs ->
  forall s n, at_tree st a s n -> length cs <= reach_bound s n.
Proof.
  intros Hm Hp. induction Hp as [|a b cs nd Hc Hd Hp IH]; intros s n Ha.
  - simpl. lia.
  - assert (a <> NIL st) as Hne by (by destruct Hc).
    destruct (at_tree_deref _ _ _ _ _ _ Hm Ha Hne Hd)
      as (x & c & l & k & r & -> & Hcol & Hl & Hr).
    destruct Ha as (_ & _ & _ & Hrb).
    destruct (reach_bound_child _ _ _ _ _ _ Hrb) as [Bl Br].
    simpl. destruct Hc as [a nd' _ Hd'|a nd' _ Hd'];
      rewrite Hd in Hd'; injection Hd' as <-.
    + specialize (IH _ _ Hl). lia.
    + specialize (IH _ _ Hr). lia.
Qed.

(** X7.  After [n] inserts no path from the root down to the sentinel
    passes more than [2 * log2 (n + 1)] nodes: the descent of an insert
    and the depth of the recursion of the traversal are logarithmic in
    the number of stored authors. *)
Theorem height_is_logarithmic (entries : list (string * string)) :
  exists st,
    insert_all entries = Some st
    /\ forall cs, path st (root st) cs ->
         length cs <= 2 * Nat.log2 (length entries + 1).
Proof.
  destruct (insert_all_spec entries) as (st & t & E & Hm & Hv & Hk).
  exists st. split; [done|]. intros cs Hp.
  destruct (models_at_root _ _ Hm Hv) as [n Hroot].
  pose proof (path_length _ _ _ _ Hm Hp _ _ Hroot) as Hlen.
  pose proof Hroot as (_ & _ & _ & Hrb).
  pose proof (rb_size _ _ Hrb) as Hsz.
  rewrite Hk, length_fmap in Hsz.
  assert (reach_bound t n = 2 * n) as Hb.
  { unfold reach_bound. destruct Hv as [Hb _].
    by destruct t as [|? [] ? ? ?]. }
  assert (n <= Nat.log2 (length entries + 1)) as Hn.
  { rewrite <- (Nat.log2_pow2 n) by lia. by apply Nat.log2_le_mono. }
  lia.
Qed.

End RBMore.

(** ** Search history and query templates of [src/advanced_search.py] *)

Module Trends.
Import PyText Engine.

(** An entry of [search_history].  The timestamp is the ISO form of the
    time of the call. *)
Record search_record : Type := {
  query : string;
  timestamp : string;
  result_count : Z
}.

(** The attributes of an [AdvancedSearchEngine] object.
    [popular_queries] is a [defaultdict(int)]: its keys in the order of
    their first insertion, each with its count. *)
Record engine : Type := {
  search_history : list search_record;
  popular_queries : list (string * Z);
  trending_topics : list string
}.

(** [AdvancedSearchEngine()] *)
Definition new_engine : engine :=
  {| search_history := []; popular_queries := []; trending_topics := [] |}.

(** [l[-n:]] for a positive [n] *)
Definition last_n {A} (n : nat) (l : list A) : list A :=
  drop (length l - n) l.

(** [record_search(query, result_count)], called at the time [stamp]. *)
Definition record_search (e : engine) (stamp q : string) (count : Z) : engine :=
  let search_record :=
    {| query := q; timestamp := stamp; result_count := count |} in
  let history := search_history e ++ [search_record] in
  let popular := increment (popular_queries e) q in
  let history :=
    if (1000 <? length history)%nat then last_n 1000 history else history in
  {| search_history := history;
     popular_queries := popular;
     trending_topics := trending_topics e |}.

(** The dictionary [get_search_trends] returns; a [dict] built from
    pairs with different keys keeps their order. *)
Record trends : Type := {
  trends_popular_queries : list (string * Z);
  trends_trending_topics : list string;
  search_volume : nat
}.

Definition get_search_trends (e : engine) : trends :=
  {| trends_popular_queries := take 10 (sorted_desc (popular_queries e));
     trends_trending_topics := trending_topics e;
     search_volume := length (search_history e) |}.

(** The engine after a sequence of calls of [record_search], each given
    as the time, the query and the result count. *)
Definition record_all (calls : list (string * string * Z)) : engine :=
  fold_left (fun e c => record_search e c.1.1 c.1.2 c.2) calls new_engine.

(** *** Query templates *)

Definition DOMAIN_TEMPLATES : list (string * list string) :=
  [ ("machine_learning",
     [ "neural networks {topic}"; "deep learning {topic}";
       "machine learning {topic}"; "{topic} classification";
       "{topic} prediction" ]);
    ("computer_vision",
     [ "image {topic}"; "computer vision {topic}";
       "object detection {topic}"; "image classification {topic}";
       "visual {topic}" ]);
    ("natural_language",
     [ "natural language processing {topic}"; "text {topic}";
       "language model {topic}"; "NLP {topic}"; "text mining {topic}" ]);
    ("data_science",
     [ "data analysis {topic}"; "big data {topic}"; "data mining {topic}";
       "statistical {topic}"; "analytics {topic}" ]) ]%string.

(** [DOMAIN_TEMPLATES[domain]] when the key is there. *)
Fixpoint lookup_domain (d : list (string * list string)) (domain : string)
  : option (list string) :=
  match d with
  | [] => None
  | (k, v) :: d' => if String.eqb k domain then Some v else lookup_domain d' domain
  end.

Definition is_lbrace (c : ascii) : bool := is_code 123 c.
Definition is_rbrace (c : ascii) : bool := is_code 125 c.

(** [template.format(topic=topic)] for a template whose replacement
    fields are plain names: text is copied, a doubled brace gives one
    brace, the field named topic gives [topic] as it is, and any other
    field or a single closing brace raises ([None]).  [field] holds the
    name read since an opening brace. *)
Fixpoint format_from (template : string) (field : option string) (topic : string)
  : option string :=
  match template with
  | EmptyString =>
      match field with
      | None => Some EmptyString
      | Some _ => None
      end
  | String c rest =>
      match field with
      | Some name =>
          if is_rbrace c then
            if String.eqb name "topic"
            then (fun out => (topic ++ out)%string) <$> format_from rest None topic
            else None
          else format_from rest (Some (name ++ String c EmptyString)%string) topic
      | None =>
          if is_lbrace c then
            match rest with
            | String d rest' =>
                if is_lbrace d
                then String c <$> format_from rest' None topic
                else format_from rest (Some EmptyString) topic
            | EmptyString => None
            end
          else if is_rbrace c then
            match rest with
            | String d rest' =>
                if is_rbrace d
                then String c <$> format_from rest' None topic
                else None
            | EmptyString => None
            end
          else String c <$> format_from rest None topic
      end
  end.

Definition format_topic (template topic : string) : option string :=
  format_from template None topic.

(** [[f(x) for x in l]] with an [f] that may raise. *)
Fixpoint map_all {A B} (f : A -> option B) (l : list A) : option (list B) :=
  match l with
  | [] => Some []
  | x :: l' => y ← f x; ys ← map_all f l'; Some (y :: ys)
  end.

(** [suggest_domain_queries(topic, domain)] *)
Definition suggest_domain_queries (topic domain : string) : option (list string) :=
  match lookup_domain DOMAIN_TEMPLATES domain with
  | Some templates => map_all (fun template => format_topic template topic) templates
  | None => Some [topic]
  end.

End Trends.

(** ** Properties of the search history and the templates *)

Module TrendsFacts.
Import PyText Engine EngineFacts Trends.

(** The entry a call appends, the call given as time, query and count. *)
Definition record_of (c : string * string * Z) : search_record :=
  {| query := c.1.2; timestamp := c.1.1; result_count := c.2 |}.

(** The queries of a sequence of calls. *)
Definition queries_of (calls : list (string * string * Z)) : list string :=
  map (fun c => c.1.2) calls.

Lemma record_all_snoc calls c :
  record_all (calls ++ [c]) = record_search (record_all calls) c.1.1 c.1.2 c.2.
Proof. unfold record_all. by rewrite fold_left_app. Qed.

Lemma last_n_snoc {A} (l : list A) (x : A) :
  (if (1000 <? length (last_n 1000 l ++ [x]))%nat
   then last_n 1000 (last_n 1000 l ++ [x]) else last_n 1000 l ++ [x])
  = last_n 1000 (l ++ [x]).
Proof.
  unfold last_n. rewrite !length_app, !length_drop. simpl.
  destruct (Nat.ltb_spec 1000 (length l - (length l - 1000) + 1)) as [H|H].
  - rewrite drop_app_le by (rewrite length_drop; lia).
    rewrite drop_drop. rewrite drop_app_le by lia. f_equal. f_equal. lia.
  - replace (length l - 1000)%nat with 0%nat by lia.
    replace (length l + 1 - 1000)%nat with 0%nat by lia. done.
Qed.

Lemma history_of_calls calls :
  search_history (record_all calls) = last_n 1000 (map record_of calls).
Proof.
  induction calls as [|c calls IH] using rev_ind; [done|].
  rewrite record_all_snoc, map_app. simpl. rewrite IH.
  apply (last_n_snoc (map record_of calls) (record_of c)).
Qed.

Lemma popular_of_calls calls :
  counts_of (popular_queries (record_all calls)) (queries_of calls).
Proof.
  induction calls as [|c calls IH] using rev_ind.
  - split; [constructor|]. intros w n. simpl. split.
    + intros H. by apply elem_of_nil in H.
    + intros [H _]. by apply elem_of_nil in H.
  - rewrite record_all_snoc. unfold queries_of. rewrite map_app. simpl.
    by apply counts_of_increment.
Qed.

Lemma trending_of_calls calls : trending_topics (record_all calls) = [].
Proof.
  induction calls as [|c calls IH] using rev_ind; [done|].
  by rewrite record_all_snoc.
Qed.

(** X8.  After any sequence of calls of [record_search] on a new engine
    the history holds the entries of the last 1000 calls, in the order
    of the calls, while [popular_queries] counts every call: each
    recorded query is a key once, with the number of all calls that
    gave it, whether their entries are still in the history or not. *)
Theorem history_is_capped_counts_are_not (calls : list (string * string * Z)) :
  search_history (record_all calls) = last_n 1000 (map record_of calls)
  /\ length (search_history (record_all calls)) = Nat.min (length calls) 1000
  /\ NoDup (popular_queries (record_all calls)).*1
  /\ (forall q n,
        (q, n) ∈ popular_queries (record_all calls)
        <-> q ∈ queries_of calls /\ n = occurrences (queries_of calls) q)
  /\ trending_topics (record_all calls) = [].
Proof.
  pose proof (popular_of_calls calls) as [ND Hc].
  rewrite history_of_calls. split; [done|]. split.
  { unfold last_n. rewrite length_drop, length_map. lia. }
  split; [done|]. split; [exact Hc|]. apply trending_of_calls.
Qed.

(** X9.  After any sequence of recorded searches [get_search_trends]
    lists at most 10 queries, each once and with the number of all its
    calls, the larger count first; a recorded query that is not listed
    has a count no larger than any listed one, and then the list is
    full.  The search volume is the length of the capped history. *)
Theorem trends_list_the_most_frequent (calls : list (string * string * Z)) :
  let top := trends_popular_queries (get_search_trends (record_all calls)) in
  (length top <= 10)%nat
  /\ NoDup top.*1
  /\ (forall q n, (q, n) ∈ top ->
        q ∈ queries_of calls /\ n = occurrences (queries_of calls) q)
  /\ StronglySorted count_ge top
  /\ (forall q, q ∈ queries_of calls -> q ∉ top.*1 ->
        length top = 10%nat
        /\ Forall (fun qn => occurrences (queries_of calls) q <= snd qn) top)
  /\ search_volume (get_search_trends (record_all calls))
     = Nat.min (length calls) 1000.
Proof.
  intros top. pose proof (popular_of_calls calls) as Hc.
  pose proof Hc as [ND Hd].
  set (d := popular_queries (record_all calls)) in *.
  pose proof (sorted_desc_perm d) as Hp.
  pose proof (sorted_desc_sorted d) as Hs.
  change top with (take 10 (sorted_desc d)).
  set (S := sorted_desc d) in *.
  assert (sublist (take 10 S) S) as Hsub by apply sublist_take.
  assert (forall q, q ∈ queries_of calls -> q ∉ (take 10 S).*1 ->
            (q, occurrences (queries_of calls) q) ∈ drop 10 S) as Hrest.
  { intros q Hq Hn.
    assert ((q, occurrences (queries_of calls) q) ∈ S) as Hin
      by (rewrite Hp; by apply Hd).
    rewrite <- (take_drop 10 S) in Hin.
    apply elem_of_app in Hin as [Hin|Hin]; [|done].
    exfalso. apply Hn. apply list_elem_of_fmap. by eexists (_, _). }
  split; [rewrite length_take; lia|].
  split. { eapply sublist_NoDup; [|by apply fmap_sublist]. by rewrite Hp. }
  split. { intros q n Hq. apply Hd. rewrite <- Hp. by eapply elem_of_sublist. }
  split.
  { rewrite <- (take_drop 10 S) in Hs.
    by apply StronglySorted_app in Hs as (_ & ? & _). }
  split.
  - intros q Hq Hn. specialize (Hrest q Hq Hn). split.
    + rewrite length_take. apply list_elem_of_lookup in Hrest as [i Hi].
      apply lookup_lt_Some in Hi. rewrite length_drop in Hi. lia.
    + rewrite <- (take_drop 10 S) in Hs.
      apply StronglySorted_app in Hs as (Hle & _ & _).
      apply Forall_forall. intros qn Hqn. by apply (Hle qn _ Hqn Hrest).
  - simpl. rewrite history_of_calls. unfold last_n.
    rewrite length_drop, length_map. lia.
Qed.

Lemma append_empty (s : string) : (s ++ "")%string = s.
Proof.
  induction s as [|c s IH]; [done|].
  change (String c (s ++ "")%string = String c s). by rewrite IH.
Qed.

Lemma startswith_append (s t : string) : PyStr.startswith (s ++ t) s = true.
Proof.
  induction s as [|c s IH].
  { change (PyStr.startswith t "" = true). by destruct t. }
  change (PyStr.startswith (String c (s ++ t)%string) (String c s) = true).
  simpl. by rewrite Ascii.eqb_refl.
Qed.

Lemma contains_append (pre s post : string) :
  contains (pre ++ s ++ post) s = true.
Proof.
  induction pre as [|c pre IH].
  - change (contains (s ++ post)%string s = true).
    pose proof (startswith_append s post) as H.
    destruct (s ++ post)%string; cbn [contains]; by rewrite H.
  - change (contains (String c (pre ++ s ++ post)%string) s = true).
    cbn [contains]. rewrite IH. apply orb_true_r.
Qed.

Lemma contains_self (s : string) : contains s s = true.
Proof.
  pose proof (contains_append "" s "") as H. simpl in H.
  by rewrite append_empty in H.
Qed.

Lemma contains_after (pre s : string) : contains (pre ++ s) s = true.
Proof.
  pose proof (contains_append pre s "") as H. by rewrite append_empty in H.
Qed.

Lemma contains_before (s post : string) : contains (s ++ post) s = true.
Proof. apply (contains_append "" s post). Qed.

(** X10.  [suggest_domain_queries] never fails.  For each of the four
    domains it returns the five templates of the domain with the topic
    in the place of the field, the topic taken as it is, braces
    included; for any other domain it returns the topic alone.  Every
    suggestion contains the topic. *)
Theorem domain_queries_carry_the_topic :
  (forall topic,
      suggest_domain_queries topic "machine_learning"
      = Some [ "neural networks " ++ topic; "deep learning " ++ topic;
               "machine learning " ++ topic; topic ++ " classification";
               topic ++ " prediction" ]%string)
  /\ (forall topic,
      suggest_domain_queries topic "computer_vision"
      = Some [ "image " ++ topic; "computer vision " ++ topic;
               "object detection " ++ topic; "image classification " ++ topic;
               "visual " ++ topic ]%string)
  /\ (forall topic,
      suggest_domain_queries topic "natural_language"
      = Some [ "natural language processing " ++ topic; "text " ++ topic;
               "language model " ++ topic; "NLP " ++ topic;
               "text mining " ++ topic ]%string)
  /\ (forall topic,
      suggest_domain_queries topic "data_science"
      = Some [ "data analysis " ++ topic; "big data " ++ topic;
               "data mining " ++ topic; "statistical " ++ topic;
               "analytics " ++ topic ]%string)
  /\ (forall topic domain,
      domain ∉ ["machine_learning"; "computer_vision"; "natural_language";
                "data_science"]%string ->
      suggest_domain_queries topic domain = Some [topic])
  /\ (forall topic domain,
      exists l, suggest_domain_queries topic domain = Some l
        /\ l <> [] /\ Forall (fun s => contains s topic = true) l).
Proof.
  assert (forall topic,
      suggest_domain_queries topic "machine_learning"
      = Some [ "neural networks " ++ topic; "deep learning " ++ topic;
               "machine learning " ++ topic; topic ++ " classification";
               topic ++ " prediction" ]%string) as H1.
  { intros topic. cbv -[String.append]. simpl. by rewrite !append_empty. }
  assert (forall topic,
      suggest_domain_queries topic "computer_vision"
      = Some [ "image " ++ topic; "computer vision " ++ topic;
               "object detection " ++ topic; "image classification " ++ topic;
               "visual " ++ topic ]%string) as H2.
  { intros topic. cbv -[String.append]. simpl. by rewrite !append_empty. }
  assert (forall topic,
      suggest_domain_queries topic "natural_language"
      = Some [ "natural language processing " ++ topic; "text " ++ topic;
               "language model " ++ topic; "NLP " ++ topic;
               "text mining " ++ topic ]%string) as H3.
  { intros topic. cbv -[String.append]. simpl. by rewrite !append_empty. }
  assert (forall topic,
      suggest_domain_queries topic "data_science"
      = Some [ "data analysis " ++ topic; "big data " ++ topic;
               "data mining " ++ topic; "statistical " ++ topic;
               "analytics " ++ topic ]%string) as H4.
  { intros topic. cbv -[String.append]. simpl. by rewrite !append_empty. }
  assert (forall topic domain,
      domain ∉ ["machine_learning"; "computer_vision"; "natural_language";
                "data_science"]%string ->
      suggest_domain_queries topic domain = Some [topic]) as H5.
  { intros topic domain Hd. unfold suggest_domain_queries.
    cbn [lookup_domain DOMAIN_TEMPLATES].
    destruct (String.eqb_spec "machine_learning" domain) as [<-|_].
    { exfalso. apply Hd. left. }
    destruct (String.eqb_spec "computer_vision" domain) as [<-|_].
    { exfalso. apply Hd. right. left. }
    destruct (String.eqb_spec "natural_language" domain) as [<-|_].
    { exfalso. apply Hd. right. right. left. }
    destruct (String.eqb_spec "data_science" domain) as [<-|_].
    { exfalso. apply Hd. right. right. right. left. }
    done. }
  repeat split; try done.
  intros topic domain.
  destruct (decide (domain ∈ ["machine_learning"; "computer_vision";
                              "natural_language"; "data_science"]%string))
    as [Hin|Hout].
  - repeat (apply elem_of_cons in Hin as [->|Hin]);
      [rewrite H1|rewrite H2|rewrite H3|rewrite H4|by apply elem_of_nil in Hin];
      (eexists; split; [reflexivity|]; split; [done|]);
      repeat (constructor; [first [apply contains_after|apply contains_before]|]);
      constructor.
  - rewrite (H5 _ _ Hout). eexists; split; [reflexivity|]. split; [done|].
    constructor; [apply contains_self|constructor].
Qed.

End TrendsFacts.

(** ** More on the search engine *)

Module EngineMore.
Import PyText Engine EngineFacts.

(** Every character of [s] is in the class [p]. *)
Fixpoint all_chars (p : ascii -> bool) (s : string) : bool :=
  match s with
  | EmptyString => true
  | String c s' => p c && all_chars p s'
  end.

(** [c] is what [lower] makes of some character. *)
Definition is_lowered (c : ascii) : bool := Ascii.eqb (lower_char c) c.

(** What [analyze_query] has read so far is well formed: a value under
    way belongs to a non-empty field name, holds no blank, and is
    followed by one more character of the value when it is still
    empty. *)
Definition field_state_ok (st : field_state) (rest : string) : Prop :=
  match st with
  | InWord _ => True
  | InValue f v =>
      f <> EmptyString
      /\ all_chars (fun c => negb (is_space c)) v = true
      /\ (v = EmptyString ->
          match rest with
          | String d _ => is_space d = false
          | EmptyString => False
          end)
  end.

Lemma all_chars_snoc p s c :
  all_chars p (snoc s c) = all_chars p s && p c.
Proof.
  unfold snoc. induction s as [|d s IH].
  - change (all_chars p (String c "") = true && p c). simpl.
    by rewrite andb_true_r.
  - change (all_chars p (String d (s ++ String c "")%string)
            = all_chars p (String d s) && p c).
    simpl. rewrite IH. by rewrite andb_assoc.
Qed.

Lemma snoc_not_empty s c : snoc s c <> EmptyString.
Proof. unfold snoc. by destruct s. Qed.

Lemma lower_char_idem c : lower_char (lower_char c) = lower_char c.
Proof.
  destruct c as [[] [] [] [] [] [] [] []]; vm_compute; reflexivity.
Qed.

Lemma all_chars_lower s : all_chars is_lowered (lower s) = true.
Proof.
  induction s as [|c s IH]; [done|]. simpl. rewrite IH, andb_true_r.
  unfold is_lowered. rewrite lower_char_idem. apply Ascii.eqb_refl.
Qed.

Lemma lower_fixed s : all_chars is_lowered s = true -> lower s = s.
Proof.
  induction s as [|c s IH]; [done|]. simpl.
  intros [Hc Hs]%andb_true_iff. rewrite (IH Hs).
  unfold is_lowered in Hc. by apply Ascii.eqb_eq in Hc as ->.
Qed.

Lemma lower_idem s : lower (lower s) = lower s.
Proof. apply lower_fixed, all_chars_lower. Qed.

(** The runs of a class are not empty and made of the class. *)
Lemma runs_from_class p s : forall cur,
  all_chars p cur = true ->
  Forall (fun w => w <> EmptyString /\ all_chars p w = true) (runs_from p s cur).
Proof.
  induction s as [|c s IH]; intros cur Hcur; simpl.
  - destruct cur; repeat constructor; done.
  - destruct (p c) eqn:E.
    + apply IH. change (cur ++ String c "")%string with (snoc cur c).
      by rewrite all_chars_snoc, Hcur, E.
    + apply Forall_app. split; [|by apply IH].
      destruct cur; repeat constructor; done.
Qed.

(** The runs of a text are made of characters of the text. *)
Lemma runs_from_chars q p s : forall cur,
  all_chars q s = true -> all_chars q cur = true ->
  Forall (fun w => all_chars q w = true) (runs_from p s cur).
Proof.
  induction s as [|c s IH]; intros cur Hs Hcur; simpl.
  - destruct cur; repeat constructor; done.
  - simpl in Hs. apply andb_true_iff in Hs as [Hc Hs]. destruct (p c).
    + apply IH; [done|]. change (cur ++ String c "")%string with (snoc cur c).
      by rewrite all_chars_snoc, Hcur, Hc.
    + apply Forall_app. split; [|by apply IH].
      destruct cur; repeat constructor; done.
Qed.

Lemma findall_quoted_free s : forall open,
  (forall cur, open = Some cur ->
     all_chars (fun c => negb (is_dquote c)) cur = true) ->
  Forall (fun q => all_chars (fun c => negb (is_dquote c)) q = true)
    (findall_quoted s open).
Proof.
  induction s as [|c s IH]; intros open Hopen; simpl; [constructor|].
  destruct open as [cur|].
  - destruct (is_dquote c) eqn:E.
    + constructor; [by apply Hopen|]. by apply IH.
    + apply IH. intros ? [= <-]. rewrite all_chars_snoc, E.
      by rewrite (Hopen cur eq_refl).
  - destruct (is_dquote c); apply IH; intros ? [= <-]; done.
Qed.

Lemma findall_fields_ok s : forall st,
  field_state_ok st s ->
  Forall (fun fv => fst fv <> EmptyString /\ snd fv <> EmptyString
                    /\ all_chars (fun c => negb (is_space c)) (snd fv) = true)
    (findall_fields s st).
Proof.
  induction s as [|c s IH]; intros st Hst; simpl.
  - destruct st as [w|f v]; [constructor|].
    destruct Hst as (Hf & Hv & Hnext). repeat constructor; done.
  - destruct st as [w|f v].
    + destruct (is_word c); [by apply IH|].
      destruct (is_colon c && value_follows w s) eqn:E; [|by apply IH].
      apply IH. apply andb_true_iff in E as [_ E]. simpl.
      destruct w; [done|]. destruct s as [|d s']; [done|].
      simpl in E. apply negb_true_iff in E. done.
    + destruct Hst as (Hf & Hv & Hnext). destruct (is_space c) eqn:E.
      * constructor; [|by apply IH]. simpl. repeat split; try done.
        intros ->. specialize (Hnext eq_refl). simpl in Hnext. congruence.
      * apply IH. simpl. split; [done|]. split.
        -- by rewrite all_chars_snoc, Hv, E.
        -- intros Hs. by apply snoc_not_empty in Hs.
Qed.

(** The keys and values of the dictionary built from the field matches. *)
Lemma field_dict_lookup (matches : list (string * string)) :
  forall (d : gmap string string) k v,
  fold_left (fun d fv => <[lower (fst fv) := snd fv]> d) matches d !! k = Some v ->
  d !! k = Some v
  \/ exists fv, fv ∈ matches /\ k = lower (fst fv) /\ v = snd fv.
Proof.
  induction matches as [|fv matches IH]; intros d k v; simpl; [by left|].
  intros [H|(fv' & Hin & Hk & Hv)]%IH.
  - destruct (decide (lower (fst fv) = k)) as [<-|Hne].
    + rewrite lookup_insert_eq in H. injection H as <-.
      right. exists fv. split; [left|done].
    + rewrite lookup_insert_ne in H by done. by left.
  - right. exists fv'. split; [by right|done].
Qed.

Lemma lower_not_empty s : s <> EmptyString -> lower s <> EmptyString.
Proof. by destruct s. Qed.

(** X11.  Whatever the query, the analysis is well formed: every
    keyword is a non-empty run of word characters in lower case and is
    none of and, or, not; no quoted phrase holds a double quote; every
    boolean operator is one of the three words in some case; every field
    name is a non-empty lower-case key and its value is non-empty and
    free of blanks; the intent is one of the four the code knows. *)
Theorem analysis_is_well_formed (query : string) :
  Forall (fun k => k <> EmptyString /\ all_chars is_word k = true
                   /\ lower k = k /\ mem k operator_words = false)
    (keywords (analyze_query query))
  /\ Forall (fun q => all_chars (fun c => negb (is_dquote c)) q = true)
       (quoted_phrases (analyze_query query))
  /\ Forall (fun w => mem (lower w) operator_words = true)
       (boolean_operators (analyze_query query))
  /\ (forall k v, field_queries (analyze_query query) !! k = Some v ->
        k <> EmptyString /\ lower k = k /\ v <> EmptyString
        /\ all_chars (fun c => negb (is_space c)) v = true)
  /\ intent (analyze_query query)
     ∈ ["survey"; "methodology"; "dataset"; "general"]%string.
Proof.
  unfold analyze_query. cbn [keywords quoted_phrases boolean_operators
                              field_queries intent].
  set (clean := sub_fields (sub_quoted query None) (InWord EmptyString)).
  split; [|split; [|split; [|split]]].
  - apply Forall_forall. intros k Hk.
    apply elem_of_list_filter_bool in Hk as [Hk Hop].
    apply negb_true_iff in Hop.
    pose proof (runs_from_class is_word (lower clean) EmptyString eq_refl) as H1.
    pose proof (runs_from_chars is_lowered is_word (lower clean) EmptyString
                  (all_chars_lower clean) eq_refl) as H2.
    rewrite Forall_forall in H1, H2. unfold findall_words in Hk.
    destruct (H1 k Hk) as [Hne Hw]. specialize (H2 k Hk).
    repeat split; try done. by apply lower_fixed.
  - apply findall_quoted_free. intros cur [=].
  - apply Forall_forall. intros w Hw. unfold findall_operators in Hw.
    by apply elem_of_list_filter_bool in Hw as [_ Hw].
  - intros k v Hkv. apply field_dict_lookup in Hkv as [Hkv|(fv & Hin & -> & ->)].
    { by rewrite lookup_empty in Hkv. }
    pose proof (findall_fields_ok (sub_quoted query None) (InWord EmptyString) I)
      as H. rewrite Forall_forall in H. destruct (H fv Hin) as (Hf & Hv & Hs).
    repeat split; try done; [by apply lower_not_empty|apply lower_idem].
  - repeat case_match; set_solver.
Qed.

(** [select] keeps the order of the records and adds none. *)
Lemma select_sublist (test : paper -> result bool) l out :
  select test l = Ok out -> sublist out l.
Proof.
  revert out. induction l as [|q l IH]; simpl; intros out.
  - by intros [= <-].
  - destruct (test q) as [keep|]; [|done]. simpl.
    destruct (select test l) as [rest|]; [|done]. simpl. intros [= <-].
    destruct keep; [apply sublist_skip|apply sublist_cons]; by apply IH.
Qed.

(** A record on which the test raises makes the comprehension raise,
    when the test raises nothing else. *)
Lemma select_raises (test : paper -> result bool) l p e :
  p ∈ l -> test p = Raise e ->
  (forall q e', test q = Raise e' -> e' = e) ->
  select test l = Raise e.
Proof.
  intros Hp Hr Honly. induction l as [|q l IH]; [by apply elem_of_nil in Hp|].
  simpl. destruct (test q) as [keep|e'] eqn:Eq.
  - simpl. apply elem_of_cons in Hp as [->|Hp]; [congruence|].
    by rewrite (IH Hp).
  - simpl. by rewrite (Honly _ _ Eq).
Qed.

Lemma elem_of_filter_paper (t : paper -> bool) l p :
  p ∈ List.filter t l <-> p ∈ l /\ t p = true.
Proof. rewrite !list_elem_of_In. apply List.filter_In. Qed.

Lemma placeholder_year_is_no_int v y :
  py_int v = Ok y -> eq_str v "Year Not Available" = false.
Proof.
  destruct v as [|z|s]; simpl; try done.
  destruct (String.eqb_spec s "Year Not Available") as [->|]; [|done].
  vm_compute. done.
Qed.

Lemma recent_by_year p cutoff y :
  py_int (year p) = Ok y ->
  _is_recent_paper p cutoff
  = if (y <? - 2 ^ 31) || (2 ^ 31 - 1 <? y) then Raise OverflowError
    else if (y <? 1) || (9999 <? y) then Ok false
    else Ok (cutoff <=? days_before_year y * us_per_day).
Proof.
  intros Hy. unfold _is_recent_paper.
  rewrite (placeholder_year_is_no_int _ _ Hy), Hy. simpl.
  unfold datetime_jan1.
  destruct ((y <? - 2 ^ 31) || (2 ^ 31 - 1 <? y)); [done|].
  by destruct ((y <? 1) || (9999 <? y)).
Qed.

(** X12.  The recency test on a record whose year reads as the integer
    [y]: for 1 <= y <= 9999 it compares the first of January of that
    year with the cutoff; for any other [y] that fits a C int it is
    false; for a [y] beyond a C int it raises [OverflowError], which the
    test does not catch.  One such record among those that pass the
    other four predicates makes [filter_papers_advanced] with an active
    recency filter raise. *)
Theorem recency_test_by_year :
  (forall p cutoff y, py_int (year p) = Ok y -> 1 <= y <= 9999 ->
      _is_recent_paper p cutoff
      = Ok (cutoff <=? days_before_year y * us_per_day))
  /\ (forall p cutoff y, py_int (year p) = Ok y ->
      - 2 ^ 31 <= y <= 2 ^ 31 - 1 -> y < 1 \/ 9999 < y ->
      _is_recent_paper p cutoff = Ok false)
  /\ (forall p cutoff y, py_int (year p) = Ok y ->
      y < - 2 ^ 31 \/ 2 ^ 31 - 1 < y ->
      _is_recent_paper p cutoff = Raise OverflowError)
  /\ (forall ratio now papers f days p y,
      recency_days f = Some days -> days <> 0 ->
      p ∈ papers -> py_int (year p) = Ok y ->
      y < - 2 ^ 31 \/ 2 ^ 31 - 1 < y ->
      author_test ratio f p && title_test f p && citation_test f p
        && venue_test f p = true ->
      filter_papers_advanced ratio now papers f = Raise OverflowError).
Proof.
  split; [|split; [|split]].
  - intros p cutoff y Hy Hr. rewrite (recent_by_year _ _ _ Hy).
    destruct (Z.ltb_spec y (- 2 ^ 31)); [lia|].
    destruct (Z.ltb_spec (2 ^ 31 - 1) y); [lia|]. simpl.
    destruct (Z.ltb_spec y 1); [lia|].
    destruct (Z.ltb_spec 9999 y); [lia|]. done.
  - intros p cutoff y Hy Hr Ho. rewrite (recent_by_year _ _ _ Hy).
    destruct (Z.ltb_spec y (- 2 ^ 31)); [lia|].
    destruct (Z.ltb_spec (2 ^ 31 - 1) y); [lia|]. simpl.
    destruct (Z.ltb_spec y 1); [done|].
    destruct (Z.ltb_spec 9999 y); [done|]. lia.
  - intros p cutoff y Hy Ho. rewrite (recent_by_year _ _ _ Hy).
    destruct (Z.ltb_spec y (- 2 ^ 31)); [done|].
    destruct (Z.ltb_spec (2 ^ 31 - 1) y); [done|]. lia.
  - intros ratio now papers f days p y Hd Hne Hp Hy Ho Hpass.
    rewrite filter_ends_with_recency. unfold recency_filter. rewrite Hd.
    destruct (Z.eqb_spec days 0) as [?|_]; [done|].
    destruct (minus_days now days) as [cutoff|e] eqn:E; simpl.
    + apply (select_raises _ _ p).
      * apply elem_of_filter_paper. by split.
      * rewrite (recent_by_year _ _ _ Hy).
        destruct (Z.ltb_spec y (- 2 ^ 31)); [done|].
        destruct (Z.ltb_spec (2 ^ 31 - 1) y); [done|]. lia.
      * intros q e'. apply _is_recent_paper_raises.
    + by rewrite (minus_days_raises _ _ _ E).
Qed.

(** X13.  [filter_papers_advanced] never adds or reorders records: what
    it returns is a sublist of its input.  Without an active recency
    filter it always returns, namely the records that pass the other
    four predicates, and with no filter set at all it returns its input;
    with an active recency filter it returns or raises
    [OverflowError]. *)
Theorem filter_returns_a_sublist :
  (forall ratio now papers f,
      match filter_papers_advanced ratio now papers f with
      | Ok out => sublist out papers
      | Raise e => e = OverflowError /\ exists days,
                     recency_days f = Some days /\ days <> 0
      end)
  /\ (forall ratio now papers f,
      recency_days f = None \/ recency_days f = Some 0 ->
      filter_papers_advanced ratio now papers f
      = Ok (List.filter
              (fun p => author_test ratio f p && title_test f p
                        && citation_test f p && venue_test f p) papers))
  /\ (forall ratio now papers,
      filter_papers_advanced ratio now papers
        {| author_name := None; title_keywords := None;
           citation_range := None; venue_query := None;
           recency_days := None |}
      = Ok papers).
Proof.
  split; [|split].
  - intros ratio now papers f. rewrite filter_ends_with_recency.
    set (kept := List.filter _ papers).
    assert (sublist kept papers) as Hs by apply list_filter_sublist_paper.
    unfold recency_filter. destruct (recency_days f) as [days|]; [|done].
    destruct (Z.eqb_spec days 0) as [?|Hne]; [done|].
    destruct (minus_days now days) as [cutoff|e] eqn:E; simpl.
    + destruct (select _ kept) as [out|e] eqn:Es.
      * etrans; [by eapply select_sublist|done].
      * apply select_raised in Es as (p & _ & Hp).
        split; [by eapply _is_recent_paper_raises|by exists days].
    + split; [by eapply minus_days_raises|by exists days].
  - intros ratio now papers f Hr. rewrite filter_ends_with_recency.
    unfold recency_filter. by destruct Hr as [-> | ->].
  - intros ratio now papers. rewrite filter_ends_with_recency. simpl.
    f_equal. apply filter_true.
Qed.

End EngineMore.

(** ** The callers: how [src/main.py] and [src/app.py] fill the trees *)

Module Callers.
Import PyText Engine Trends.

(** The two trees while they are filled: the root of the title tree and
    the author tree object, [None] once a method of it has raised. *)
Definition trees : Type := AVL.node * option RB.RBTree.

Section Fetchers.

(** The three fetchers of [src/main.py], which ask the network. *)
Variable fetch_semantic_scholar_papers : string -> list paper.
Variable fetch_crossref_papers : string -> list paper.
Variable fetch_arxiv_papers : string -> list paper.

(** [fetch_research_papers(bname)] *)
Definition fetch_research_papers (bname : string)
  : list paper * AVL.node * option RB.RBTree :=
  let papers :=
    fetch_semantic_scholar_papers bname ++ fetch_crossref_papers bname
      ++ fetch_arxiv_papers bname in
  let '(avl_tree_root, rb_tree) :=
    fold_left
      (fun (st : trees) paper =>
         let title := title paper in
         let authors := split_on ", " (authors paper) in
         fold_left
           (fun (st : trees) author =>
              (AVL.insert st.1 title,
               rb_tree ← st.2; RB.insert rb_tree title author))
           authors st)
      papers (AVL.ANone, Some RB.new_RBTree) in
  (papers, avl_tree_root, rb_tree).

End Fetchers.

(** The loop of [search_papers] and of [advanced_search] in
    [src/app.py] that fills the two trees from the filtered papers. *)
Definition build_trees (filtered_papers : list paper) : trees :=
  fold_left
    (fun (st : trees) paper =>
       let title := title paper in
       let authors :=
         if negb (String.eqb (authors paper) "Authors Not Available")
         then split_on ", " (authors paper) else [] in
       let avl_root := AVL.insert st.1 title in
       fold_left
         (fun (st : trees) author =>
            if truthy (strip author)
            then (st.1, rb_tree ← st.2; RB.insert rb_tree title (strip author))
            else st)
         authors (avl_root, st.2))
    filtered_papers (AVL.ANone, Some RB.new_RBTree).

(** [unique_authors = rb_tree.list_unique_authors()] behind that loop. *)
Definition unique_authors (filtered_papers : list paper) : option (list string) :=
  rb_tree ← (build_trees filtered_papers).2; RB.list_unique_authors rb_tree.

(** One round of the filter loop of [search_papers] and of
    [advanced_search]: [Ok true] when the paper is appended.  The year
    range and the citation minimum are integers. *)
Definition basic_keep (year_min year_max min_citations : Z) (paper : paper)
  : result bool :=
  let year := year paper in
  let citations := citation_count paper in
  bind
    (if negb (eq_str year "Year Not Available") then
       except_value_type
         (bind (py_int year) (fun year_int =>
          Ok (negb ((year_int <? year_min) || (year_max <? year_int)))))
         true
     else Ok true)
    (fun in_range =>
       if in_range then
         if negb (eq_str citations "Citation Count Not Available") then
           except_value_type
             (bind (py_int citations) (fun citations_int =>
              Ok (negb (citations_int <? min_citations))))
             true
         else Ok true
       else Ok false).

Definition basic_filter (year_min year_max min_citations : Z)
    (papers : list paper) : result (list paper) :=
  select (basic_keep year_min year_max min_citations) papers.

(** The endpoint [autocomplete] of [src/app.py]: the titles of the
    papers of all cached results, the queries of the history, and the
    first 10 suggestions of the engine.  [cached_searches] holds the
    papers of the cached results in the order of the cache. *)
Definition autocomplete
    (get_close_matches : string -> list string -> nat -> Q -> list string)
    (cached_searches : list (list paper)) (search_engine : engine)
    (prefix : string) : list string :=
  let search_history := map query (search_history search_engine) in
  let all_titles := flat_map (map title) cached_searches in
  let suggestions :=
    smart_autocomplete get_close_matches prefix all_titles search_history in
  take 10 suggestions.

End Callers.

(** ** Properties of the callers *)

Module CallersFacts.
Import PyText Engine EngineFacts Trends TrendsFacts Callers.

(** The title and author of every insert the loop of
    [fetch_research_papers] makes. *)
Definition entries_of (papers : list paper) : list (string * string) :=
  flat_map (fun p => map (fun a => (title p, a)) (split_on ", " (authors p)))
    papers.

(** The pieces of all author strings. *)
Definition pieces_of (papers : list paper) : list string :=
  flat_map (fun p => split_on ", " (authors p)) papers.

(** The authors the loop of [src/app.py] inserts. *)
Definition stripped_authors (papers : list paper) : list string :=
  flat_map
    (fun p =>
       if String.eqb (authors p) "Authors Not Available" then []
       else List.filter truthy (map strip (split_on ", " (authors p))))
    papers.

(** The predicate of the basic filter. *)
Definition year_in_range (year_min year_max : Z) (p : paper) : bool :=
  match py_int (year p) with
  | Ok y => (year_min <=? y) && (y <=? year_max)
  | Raise _ => true
  end.

Definition cited_enough (min_citations : Z) (p : paper) : bool :=
  match py_int (citation_count p) with
  | Ok c => min_citations <=? c
  | Raise _ => true
  end.

Lemma split_from_not_nil sep s : forall skip cur, split_from sep s skip cur <> [].
Proof.
  induction s as [|c s IH]; intros skip cur; cbn [split_from]; [done|].
  destruct skip; [|apply IH]. case_match; [done|apply IH].
Qed.

Lemma split_on_not_nil sep s : split_on sep s <> [].
Proof. apply split_from_not_nil. Qed.

(** Both trees after a sequence of inserts of titles with authors. *)
Definition index_step (st : trees) (e : string * string) : trees :=
  (AVL.insert st.1 e.1, rb_tree ← st.2; RB.insert rb_tree e.1 e.2).

Lemma index_fold entries : forall st,
  fold_left index_step entries st
  = (fold_left AVL.insert entries.*1 st.1,
     foldl (fun rb e => rb ← rb; RB.insert rb e.1 e.2) st.2 entries).
Proof.
  induction entries as [|e entries IH]; intros [avl rb]; [done|].
  simpl. by rewrite IH.
Qed.

Lemma fetch_loop papers : forall st,
  fold_left
    (fun (st : trees) paper =>
       fold_left
         (fun (st : trees) author =>
            (AVL.insert st.1 (title paper),
             rb_tree ← st.2; RB.insert rb_tree (title paper) author))
         (split_on ", " (authors paper)) st)
    papers st
  = fold_left index_step (entries_of papers) st.
Proof.
  induction papers as [|p papers IH]; intros st; [done|].
  cbn [fold_left entries_of flat_map]. rewrite fold_left_app, IH. f_equal.
  generalize (split_on ", " (authors p)). intros l. revert st.
  induction l as [|a l IHl]; intros st; [done|]. simpl. by rewrite IHl.
Qed.

Lemma entries_titles papers :
  (entries_of papers).*1
  = flat_map (fun p => replicate (length (split_on ", " (authors p))) (title p))
      papers.
Proof.
  induction papers as [|p papers IH]; [done|].
  cbn [entries_of flat_map]. rewrite fmap_app. fold (entries_of papers).
  rewrite IH. f_equal.
  induction (split_on ", " (authors p)) as [|a l IHl]; [done|].
  simpl. by rewrite <- IHl.
Qed.

Lemma entries_authors papers : (entries_of papers).*2 = pieces_of papers.
Proof.
  induction papers as [|p papers IH]; [done|].
  cbn [entries_of pieces_of flat_map]. rewrite fmap_app.
  fold (entries_of papers). fold (pieces_of papers). rewrite IH. f_equal.
  induction (split_on ", " (authors p)) as [|a l IHl]; [done|].
  rewrite map_cons, fmap_cons. cbn [snd]. by rewrite IHl.
Qed.

Lemma autocomplete_fold ts prefix :
  AVL.autocomplete (fold_left AVL.insert ts AVL.ANone) prefix
  ≡ₚ List.filter (fun t => PyStr.startswith t prefix) ts.
Proof.
  rewrite AVLFacts.autocomplete_preorder.
  rewrite (AVLFacts.filter_perm _ _ _ (AVLFacts.preorder_titles _)).
  apply AVLFacts.filter_perm. apply AVLFacts.titles_insert_all.
Qed.

(** X14.  [fetch_research_papers] puts the three fetch results one after
    the other and inserts, for every piece of every author string, the
    title into the title tree and the piece into the author tree.  So
    the title tree holds the title of a paper once for each piece of its
    author string, at least once, and prefix search lists it that often;
    the inserts into the author tree all return, and its unique authors
    are exactly the pieces, in ascending order. *)
Theorem fetch_fills_both_trees
    (fetch_semantic_scholar_papers fetch_crossref_papers fetch_arxiv_papers
       : string -> list paper) (bname : string) :
  let out :=
    fetch_research_papers fetch_semantic_scholar_papers fetch_crossref_papers
      fetch_arxiv_papers bname in
  let papers := out.1.1 in
  let copies :=
    flat_map (fun p => replicate (length (split_on ", " (authors p))) (title p))
      papers in
  papers = fetch_semantic_scholar_papers bname ++ fetch_crossref_papers bname
             ++ fetch_arxiv_papers bname
  /\ AVL.titles out.1.2 ≡ₚ copies
  /\ (forall prefix,
        AVL.autocomplete out.1.2 prefix
        ≡ₚ List.filter (fun t => PyStr.startswith t prefix) copies)
  /\ (forall p, p ∈ papers -> title p ∈ AVL.autocomplete out.1.2 (title p))
  /\ exists rb_tree L,
       out.2 = Some rb_tree
       /\ RB.list_unique_authors rb_tree = Some L
       /\ StronglySorted RBFacts.str_lt L
       /\ forall x, x ∈ L <-> x ∈ pieces_of papers.
Proof.
  intros out papers copies. unfold out, fetch_research_papers.
  set (ps := fetch_semantic_scholar_papers bname ++ _) in *.
  rewrite (fetch_loop ps), index_fold. cbn [fst snd].
  assert (papers = ps) as Hps.
  { unfold papers, out, fetch_research_papers. fold ps.
    rewrite (fetch_loop ps), index_fold. done. }
  assert (copies = (entries_of ps).*1) as Hcopies.
  { unfold copies. by rewrite Hps, entries_titles. }
  rewrite Hps, Hcopies. split; [done|].
  split; [apply AVLFacts.titles_insert_all|].
  split; [intros prefix; apply autocomplete_fold|]. split.
  - intros p Hp. rewrite autocomplete_fold.
    apply elem_of_list_filter_bool. split; [|apply AVLMore.startswith_refl].
    rewrite entries_titles. apply list_elem_of_In, in_flat_map.
    exists p. split; [by apply list_elem_of_In|].
    apply list_elem_of_In. pose proof (split_on_not_nil ", " (authors p)) as Hne.
    destruct (split_on ", " (authors p)); [done|]. left.
  - destruct (RBFacts.insert_all_spec (entries_of ps))
      as (st & t & E & Hm & _ & Hk).
    destruct (RBFacts.list_unique_authors_models _ _ Hm) as (L & EL & Hs & Hin).
    exists st, L. split; [exact E|]. split; [done|]. split; [done|].
    intros x. by rewrite Hin, Hk, entries_authors.
Qed.

Lemma rstrip_cons blank c s :
  rstrip_with blank (String c s)
  = match rstrip_with blank s with
    | EmptyString => if blank c then EmptyString else String c EmptyString
    | r => String c r
    end.
Proof. done. Qed.

(** [strip] twice is [strip] once. *)
Lemma rstrip_idem blank s :
  rstrip_with blank (rstrip_with blank s) = rstrip_with blank s.
Proof.
  induction s as [|c s IH]; [done|]. rewrite rstrip_cons.
  destruct (rstrip_with blank s) as [|d r] eqn:E.
  - destruct (blank c) eqn:Ec; [done|]. rewrite rstrip_cons. simpl. by rewrite Ec.
  - rewrite rstrip_cons, IH. done.
Qed.

Lemma lstrip_rstrip blank s :
  match s with String c _ => blank c = false | EmptyString => True end ->
  lstrip_with blank (rstrip_with blank s) = rstrip_with blank s.
Proof.
  destruct s as [|c s]; [done|]. intros Hc. rewrite rstrip_cons.
  destruct (rstrip_with blank s); [rewrite Hc|]; cbn [lstrip_with]; by rewrite Hc.
Qed.

Lemma lstrip_head blank s :
  match lstrip_with blank s with
  | String c _ => blank c = false
  | EmptyString => True
  end.
Proof.
  induction s as [|c s IH]; [done|]. cbn [lstrip_with].
  destruct (blank c) eqn:E; [done|]. done.
Qed.

Lemma strip_idem s : strip (strip s) = strip s.
Proof.
  unfold strip, strip_with.
  rewrite (lstrip_rstrip _ _ (lstrip_head is_space s)). apply rstrip_idem.
Qed.

Lemma truthy_not_empty s : truthy s = true <-> s <> EmptyString.
Proof. by destruct s. Qed.

(** The authors one paper gives to the author tree in [src/app.py]. *)
Definition authors_in (p : paper) : list string :=
  if String.eqb (authors p) "Authors Not Available" then []
  else List.filter truthy (map strip (split_on ", " (authors p))).

Lemma app_inner_loop t l : forall (avl : AVL.node) (rb : option RB.RBTree),
  fold_left
    (fun (st : trees) author =>
       if truthy (strip author)
       then (st.1, rb_tree ← st.2; RB.insert rb_tree t (strip author))
       else st)
    l (avl, rb)
  = (avl,
     foldl (fun rb e => rb ← rb; RB.insert rb e.1 e.2) rb
       (map (fun a => (t, a)) (List.filter truthy (map strip l)))).
Proof.
  induction l as [|a l IH]; intros avl rb; [done|].
  cbn [fold_left map List.filter]. destruct (truthy (strip a)); by rewrite IH.
Qed.

Lemma app_loop papers : forall (avl : AVL.node) (rb : option RB.RBTree),
  fold_left
    (fun (st : trees) paper =>
       fold_left
         (fun (st : trees) author =>
            if truthy (strip author)
            then (st.1, rb_tree ← st.2; RB.insert rb_tree (title paper) (strip author))
            else st)
         (if negb (String.eqb (authors paper) "Authors Not Available")
          then split_on ", " (authors paper) else [])
         (AVL.insert st.1 (title paper), st.2))
    papers (avl, rb)
  = (fold_left AVL.insert (map title papers) avl,
     foldl (fun rb e => rb ← rb; RB.insert rb e.1 e.2) rb
       (flat_map (fun p => map (fun a => (title p, a)) (authors_in p)) papers)).
Proof.
  induction papers as [|p papers IH]; intros avl rb; [done|].
  cbn [fold_left map flat_map]. rewrite app_inner_loop, IH.
  f_equal. rewrite foldl_app. f_equal. unfold authors_in.
  by destruct (String.eqb (authors p) "Authors Not Available").
Qed.

Lemma app_entries_authors papers :
  (flat_map (fun p => map (fun a => (title p, a)) (authors_in p)) papers).*2
  = stripped_authors papers.
Proof.
  induction papers as [|p papers IH]; [done|].
  cbn [flat_map stripped_authors]. rewrite fmap_app.
  fold (stripped_authors papers). rewrite IH. f_equal.
  fold (authors_in p).
  induction (authors_in p) as [|a l IHl]; [done|].
  rewrite map_cons, fmap_cons. cbn [snd]. by rewrite IHl.
Qed.

Lemma stripped_authors_clean papers x :
  x ∈ stripped_authors papers -> x <> EmptyString /\ strip x = x.
Proof.
  unfold stripped_authors. rewrite list_elem_of_In, in_flat_map.
  intros (p & _ & Hx). apply list_elem_of_In in Hx.
  destruct (String.eqb (authors p) _); [by apply elem_of_nil in Hx|].
  apply elem_of_list_filter_bool in Hx as [Hx Ht].
  apply truthy_not_empty in Ht. split; [done|].
  apply list_elem_of_In, in_map_iff in Hx as (a & <- & _). apply strip_idem.
Qed.

(** X15.  The tree loop of [src/app.py] inserts every title once, so
    prefix search on its title tree lists a paper once however many
    authors it has; a paper whose author string is the placeholder gives
    no author, and of the other papers every piece is inserted stripped,
    blank pieces left out.  The inserts all return, and the unique
    authors are those stripped pieces in ascending order: none of them
    is empty or begins or ends with a blank. *)
Theorem app_trees_hold_stripped_authors (filtered_papers : list paper) :
  AVL.titles (build_trees filtered_papers).1 ≡ₚ map title filtered_papers
  /\ (forall prefix,
        AVL.autocomplete (build_trees filtered_papers).1 prefix
        ≡ₚ List.filter (fun t => PyStr.startswith t prefix)
             (map title filtered_papers))
  /\ exists L,
       unique_authors filtered_papers = Some L
       /\ StronglySorted RBFacts.str_lt L
       /\ (forall x, x ∈ L <-> x ∈ stripped_authors filtered_papers)
       /\ Forall (fun x => x <> EmptyString /\ strip x = x) L.
Proof.
  unfold unique_authors, build_trees. rewrite app_loop. cbn [fst snd].
  split; [apply AVLFacts.titles_insert_all|].
  split; [intros prefix; apply autocomplete_fold|].
  set (entries := flat_map _ filtered_papers).
  destruct (RBFacts.insert_all_spec entries) as (st & t & E & Hm & _ & Hk).
  destruct (RBFacts.list_unique_authors_models _ _ Hm) as (L & EL & Hs & Hin).
  unfold RB.insert_all in E. rewrite E. simpl. exists L.
  split; [done|]. split; [done|].
  assert (forall x, x ∈ L <-> x ∈ stripped_authors filtered_papers) as HL.
  { intros x. rewrite Hin, Hk. unfold entries. by rewrite app_entries_authors. }
  split; [done|]. apply Forall_forall. intros x Hx.
  by apply (stripped_authors_clean filtered_papers), HL.
Qed.

Lemma placeholder_citations_is_no_int v y :
  py_int v = Ok y -> eq_str v "Citation Count Not Available" = false.
Proof.
  destruct v as [|z|s]; simpl; try done.
  destruct (String.eqb_spec s "Citation Count Not Available") as [->|]; [|done].
  vm_compute. done.
Qed.

Lemma basic_keep_pure year_min year_max min_citations p :
  basic_keep year_min year_max min_citations p
  = Ok (year_in_range year_min year_max p && cited_enough min_citations p).
Proof.
  unfold basic_keep, year_in_range, cited_enough.
  assert (forall a b c : Z, negb ((a <? b) || (c <? a)) = (b <=? a) && (a <=? c))
    as Hrange by (intros; lia).
  assert (forall a b : Z, negb (a <? b) = (b <=? a)) as Hmin by (intros; lia).
  destruct (py_int (year p)) as [y|e] eqn:Ey.
  - rewrite (EngineMore.placeholder_year_is_no_int _ _ Ey). simpl.
    rewrite Hrange. destruct (_ && _); simpl; [|done].
    destruct (py_int (citation_count p)) as [c|e] eqn:Ec.
    + rewrite (placeholder_citations_is_no_int _ _ Ec). simpl. by rewrite Hmin.
    + destruct (eq_str (citation_count p) _); simpl; [done|].
      by destruct (py_int_raises _ _ Ec) as [-> | ->].
  - assert (bind
              (if negb (eq_str (year p) "Year Not Available")
               then except_value_type
                      (bind (Raise e) (fun year_int : Z =>
                       Ok (negb ((year_int <? year_min) || (year_max <? year_int)))))
                      true
               else Ok true)
              (fun in_range : bool =>
                 if in_range then
                   if negb (eq_str (citation_count p) "Citation Count Not Available")
                   then except_value_type
                          (bind (py_int (citation_count p)) (fun citations_int =>
                           Ok (negb (citations_int <? min_citations)))) true
                   else Ok true
                 else Ok false)
            = (if negb (eq_str (citation_count p) "Citation Count Not Available")
               then except_value_type
                      (bind (py_int (citation_count p)) (fun citations_int =>
                       Ok (negb (citations_int <? min_citations)))) true
               else Ok true)) as ->.
    { destruct (eq_str (year p) _); simpl; [done|].
      by destruct (py_int_raises _ _ Ey) as [-> | ->]. }
    simpl. destruct (py_int (citation_count p)) as [c|e'] eqn:Ec.
    + rewrite (placeholder_citations_is_no_int _ _ Ec). simpl. by rewrite Hmin.
    + destruct (eq_str (citation_count p) _); simpl; [done|].
      by destruct (py_int_raises _ _ Ec) as [-> | ->].
Qed.

(** X16.  The basic filter of [src/app.py] never raises and keeps, in
    their order, the papers whose year is in the range or does not read
    as an integer, and whose citation count reaches the minimum or does
    not read as an integer.  It so differs from the engine: a paper
    whose year does not read as an integer passes every year range here
    but fails every recency test there, and a paper whose citation count
    does not read as an integer passes every minimum here but counts as
    one with 0 citations there. *)
Theorem basic_filter_lets_unreadable_pass :
  (forall year_min year_max min_citations papers,
      basic_filter year_min year_max min_citations papers
      = Ok (List.filter
              (fun p => year_in_range year_min year_max p
                        && cited_enough min_citations p) papers))
  /\ (forall p e, py_int (year p) = Raise e ->
        (forall year_min year_max, year_in_range year_min year_max p = true)
        /\ (forall cutoff, _is_recent_paper p cutoff = Ok false))
  /\ (forall p e, py_int (citation_count p) = Raise e ->
        (forall min_citations, cited_enough min_citations p = true)
        /\ _get_citation_count p = Ok 0).
Proof.
  split; [|split].
  - intros year_min year_max min_citations papers. unfold basic_filter.
    apply select_pure, Forall_forall. intros p _. apply basic_keep_pure.
  - intros p e He. split.
    + intros year_min year_max. unfold year_in_range. by rewrite He.
    + intros cutoff. unfold _is_recent_paper.
      destruct (eq_str (year p) _); [done|]. rewrite He. simpl.
      by destruct (py_int_raises _ _ He) as [-> | ->].
  - intros p e He. split.
    + intros min_citations. unfold cited_enough. by rewrite He.
    + unfold _get_citation_count.
      destruct (eq_str (citation_count p) _); [done|]. rewrite He.
      by destruct (py_int_raises _ _ He) as [-> | ->].
Qed.

Lemma smart_autocomplete_short gcm prefix titles history :
  (length (smart_autocomplete gcm prefix titles history) <= 8)%nat.
Proof.
  unfold smart_autocomplete. destruct (fold_left _ _ _) as [seen uniq].
  rewrite length_take. lia.
Qed.

Lemma history_queries calls :
  map query (search_history (record_all calls))
  = last_n 1000 (queries_of calls).
Proof.
  rewrite history_of_calls. unfold last_n, queries_of. rewrite !length_map.
  assert (map query (map record_of calls) = map (fun c => c.1.2) calls) as <-.
  { induction calls as [|c calls IH]; [done|]. simpl. by rewrite IH. }
  generalize (map record_of calls). intros l.
  generalize (length calls - 1000)%nat. intros n. revert n.
  induction l as [|r l IH]; intros [|n]; simpl; done.
Qed.

(** X17.  The endpoint [autocomplete] returns what the engine suggests:
    its cut at 10 never removes a suggestion, since the engine gives at
    most 8.  After any sequence of recorded searches the history part of
    the suggestions is drawn from the queries of the last 1000 searches
    only. *)
Theorem autocomplete_endpoint_cut_is_idle
    (get_close_matches : string -> list string -> nat -> Q -> list string)
    (cached_searches : list (list paper)) (prefix : string) :
  (forall search_engine,
      autocomplete get_close_matches cached_searches search_engine prefix
      = smart_autocomplete get_close_matches prefix
          (flat_map (map title) cached_searches)
          (map query (search_history search_engine)))
  /\ (forall calls,
      autocomplete get_close_matches cached_searches (record_all calls) prefix
      = smart_autocomplete get_close_matches prefix
          (flat_map (map title) cached_searches)
          (last_n 1000 (queries_of calls)))
  /\ (forall search_engine,
      (length (autocomplete get_close_matches cached_searches search_engine
                 prefix) <= 8)%nat).
Proof.
  assert (forall search_engine,
      autocomplete get_close_matches cached_searches search_engine prefix
      = smart_autocomplete get_close_matches prefix
          (flat_map (map title) cached_searches)
          (map query (search_history search_engine))) as H.
  { intros e. unfold autocomplete. apply take_ge.
    pose proof (smart_autocomplete_short get_close_matches prefix
                  (flat_map (map title) cached_searches)
                  (map query (search_history e))). lia. }
  split; [done|]. split.
  - intros calls. by rewrite H, history_queries.
  - intros e. rewrite H. apply smart_autocomplete_short.
Qed.

End CallersFacts.

(** ** The arXiv fetcher of [src/main.py], as a function of the response *)

Module Arxiv.
Import PyText.

(** A record as [fetch_arxiv_papers] builds it: every value is a
    string. *)
Record record : Type := {
  source : string;
  title : string;
  authors : string;
  year : string;
  citation_count : string;
  doi : string;
  url : string
}.

(** [s.split(a)[1].split(b)[0]]; [None] is the [IndexError] of a missing
    second part. *)
Definition inner_text (a b s : string) : option string :=
  x ← split_on a s !! 1%nat; split_on b x !! 0%nat.

(** [s.replace(old, new)] for a non-empty [old] *)
Definition replace (old new s : string) : string :=
  join new (split_on old s).

(** The names of the author parts of an entry. *)
Definition entry_names (entry : string) : option (list string) :=
  let author_str := drop 1 (split_on "<author>" entry) in
  mapM (inner_text "<name>" "</name>") author_str.

(** One round of the loop over the entries. *)
Definition parse_entry (entry : string) : option record :=
  title ← (if contains entry "<title>"
           then inner_text "<title>" "</title>" entry
           else Some "Title Not Available"%string);
  names ← entry_names entry;
  let authors :=
    if Engine.truthy (join ", " names) then join ", " names
    else "Authors Not Available"%string in
  year ← (if contains entry "<published>"
          then inner_text "<published>" "-" entry
          else Some "Year Not Available"%string);
  doi ← (if contains entry "<id>"
         then replace "http://arxiv.org/abs/" "" <$> inner_text "<id>" "</id>" entry
         else Some "DOI Not Available"%string);
  Some {| source := "arXiv";
          title := title;
          authors := authors;
          year := year;
          citation_count := "Citation Count Not Available";
          doi := doi;
          url := if negb (String.eqb doi "DOI Not Available")
                 then ("http://arxiv.org/abs/" ++ doi)%string
                 else "URL Not Available"%string |}.

(** [fetch_arxiv_papers(query)] with the response of [requests.get] for
    the query as its argument: the status code and the text, or [None]
    when the request raises.  An exception in the loop ends the call
    with the empty list. *)
Definition fetch_arxiv_papers (response : option (Z * string)) : list record :=
  match response with
  | Some (status_code, text) =>
      if status_code =? 200 then
        let entries := split_on "<entry>" text in
        default [] (mapM parse_entry (drop 1 entries))
      else []
  | None => []
  end.

(** The record as the engine and the tree builders read it. *)
Definition as_paper (r : record) : Engine.paper :=
  {| Engine.title := title r;
     Engine.authors := authors r;
     Engine.year := PStr (year r);
     Engine.citation_count := PStr (citation_count r);
     Engine.venue := None |}.

End Arxiv.

(** ** Properties of the arXiv fetcher *)

Module ArxivFacts.
Import PyText Arxiv.

(** Every author part of the entry holds a name tag. *)
Definition names_tagged (entry : string) : Prop :=
  Forall (fun a => contains a "<name>" = true)
    (drop 1 (split_on "<author>" entry)).

Lemma startswith_empty_text sep :
  sep <> EmptyString -> PyStr.startswith EmptyString sep = false.
Proof. by destruct sep. Qed.

Lemma split_from_found sep s : forall cur,
  sep <> EmptyString -> contains s sep = true ->
  (2 <= length (split_from sep s 0 cur))%nat.
Proof.
  intros cur Hsep. revert cur. induction s as [|c s IH]; intros cur; cbn [contains].
  - by rewrite (startswith_empty_text _ Hsep).
  - cbn [split_from]. destruct (PyStr.startswith (String c s) sep).
    + intros _. cbn [length].
      pose proof (CallersFacts.split_from_not_nil sep s
                    (Nat.pred (String.length sep)) EmptyString) as Hne.
      destruct (split_from sep s _ _); [done|]. simpl. lia.
    + simpl. apply IH.
Qed.

Lemma split_from_absent sep s : forall cur,
  contains s sep = false -> split_from sep s 0 cur = [(cur ++ s)%string].
Proof.
  induction s as [|c s IH]; intros cur; cbn [contains split_from].
  - intros _. by rewrite TrendsFacts.append_empty.
  - intros [H1 H2]%orb_false_iff. rewrite H1, (IH _ H2). f_equal.
    clear. induction cur as [|d cur IHc]; [done|].
    change (String d ((cur ++ String c "") ++ s)%string
            = String d (cur ++ String c s)%string). by rewrite IHc.
Qed.

Lemma inner_text_found a b s :
  a <> EmptyString -> contains s a = true -> is_Some (inner_text a b s).
Proof.
  intros Ha Hs. unfold inner_text, split_on.
  pose proof (split_from_found a s EmptyString Ha Hs) as H2.
  destruct (split_from a s 0 "") as [|x [|y l]]; simpl in H2; try lia.
  simpl. pose proof (CallersFacts.split_from_not_nil b y 0 EmptyString) as Hne.
  destruct (split_from b y 0 ""); [done|]. by eexists.
Qed.

Lemma inner_text_absent a b s : contains s a = false -> inner_text a b s = None.
Proof.
  intros Hs. unfold inner_text, split_on. by rewrite (split_from_absent _ _ _ Hs).
Qed.

Lemma entry_names_tagged entry : names_tagged entry <-> is_Some (entry_names entry).
Proof.
  unfold names_tagged, entry_names. rewrite mapM_is_Some. split.
  - intros H. eapply Forall_impl; [exact H|]. intros a Ha.
    by apply inner_text_found.
  - intros H. eapply Forall_impl; [exact H|]. intros a [x Ha]. simpl in Ha.
    destruct (contains a "<name>") eqn:E; [done|].
    by rewrite (inner_text_absent _ _ _ E) in Ha.
Qed.

Lemma parse_entry_tagged entry : names_tagged entry <-> is_Some (parse_entry entry).
Proof.
  rewrite entry_names_tagged. unfold parse_entry.
  assert (forall a b (other : string),
            is_Some (if contains entry a then inner_text a b entry else Some other)
            \/ a = EmptyString) as Hopt.
  { intros a b other. destruct a as [|c a]; [by right|left].
    destruct (contains entry (String c a)) eqn:E; [|by eexists].
    by apply inner_text_found. }
  destruct (Hopt "<title>" "</title>" "Title Not Available")%string
    as [[t ->]|?]; [|done].
  destruct (Hopt "<published>" "-" "Year Not Available")%string
    as [[y Hy]|?]; [|done].
  destruct (Hopt "<id>" "</id>" "DOI Not Available")%string
    as [[d Hd]|?]; [|done].
  cbn [mbind option_bind]. destruct (entry_names entry) as [names|].
  - cbn [mbind option_bind]. rewrite Hy. cbn [mbind option_bind].
    destruct (contains entry "<id>").
    + rewrite Hd. simpl. split; eauto.
    + simpl. split; eauto.
  - simpl. split; intros [? ?]; done.
Qed.

Lemma parse_entry_fields entry r :
  parse_entry entry = Some r ->
  source r = "arXiv"%string
  /\ citation_count r = "Citation Count Not Available"%string
  /\ authors r <> EmptyString
  /\ url r = (if String.eqb (doi r) "DOI Not Available"
              then "URL Not Available" else "http://arxiv.org/abs/" ++ doi r)%string
  /\ exists names,
       entry_names entry = Some names
       /\ authors r = if Engine.truthy (join ", " names) then join ", " names
                      else "Authors Not Available"%string.
Proof.
  unfold parse_entry. intros H.
  destruct (if contains entry "<title>" then _ else _) as [t|]; [|done].
  cbn [mbind option_bind] in H.
  destruct (entry_names entry) as [names|]; [|done].
  cbn [mbind option_bind] in H.
  destruct (if contains entry "<published>" then _ else _) as [y|]; [|done].
  cbn [mbind option_bind] in H.
  destruct (if contains entry "<id>" then _ else _) as [d|]; [|done].
  cbn [mbind option_bind] in H. injection H as <-. cbn.
  repeat split; try done.
  - by destruct (join ", " names).
  - by destruct (String.eqb d "DOI Not Available").
  - by exists names.
Qed.

(** X18.  [fetch_arxiv_papers] is all or nothing.  A failed request or
    a status other than 200 gives no record.  With status 200 the text
    is cut at the entry tags: when every author part of every entry
    holds a name tag there is one record for each entry, and one author
    part without a name tag in any entry loses all of them.  Every
    record has the source arXiv, a non-empty author string, the link
    made of its identifier, and the placeholder as its citation count,
    which the engine counts as 0. *)
Theorem arxiv_fetch_is_all_or_nothing :
  fetch_arxiv_papers None = []
  /\ (forall status text, status <> 200 ->
        fetch_arxiv_papers (Some (status, text)) = [])
  /\ (forall text,
        Forall names_tagged (drop 1 (split_on "<entry>" text)) ->
        length (fetch_arxiv_papers (Some (200, text)))
        = length (drop 1 (split_on "<entry>" text)))
  /\ (forall text,
        ~ Forall names_tagged (drop 1 (split_on "<entry>" text)) ->
        fetch_arxiv_papers (Some (200, text)) = [])
  /\ (forall response,
        Forall (fun r =>
                  source r = "arXiv"%string
                  /\ citation_count r = "Citation Count Not Available"%string
                  /\ authors r <> EmptyString
                  /\ url r = (if String.eqb (doi r) "DOI Not Available"
                              then "URL Not Available"
                              else "http://arxiv.org/abs/" ++ doi r)%string
                  /\ Engine._get_citation_count (as_paper r) = Ok 0)
          (fetch_arxiv_papers response)).
Proof.
  split; [done|]. split.
  { intros status text Hs. unfold fetch_arxiv_papers.
    by destruct (Z.eqb_spec status 200). }
  split; [|split].
  - intros text Hall. unfold fetch_arxiv_papers. simpl.
    destruct (mapM parse_entry (drop 1 (split_on "<entry>" text))) as [rs|] eqn:E.
    + simpl. symmetry. by eapply length_mapM.
    + apply mapM_None, Exists_exists in E as (entry & Hin & Hnone).
      rewrite Forall_forall in Hall.
      apply Hall, parse_entry_tagged in Hin as [r Hr]. congruence.
  - intros text Hnot. unfold fetch_arxiv_papers. simpl.
    destruct (mapM parse_entry (drop 1 (split_on "<entry>" text))) as [rs|] eqn:E;
      [|done].
    exfalso. apply Hnot. apply Forall_forall. intros entry Hin.
    apply parse_entry_tagged.
    assert (is_Some (mapM parse_entry (drop 1 (split_on "<entry>" text)))) as Hs
      by (by rewrite E).
    apply mapM_is_Some in Hs. rewrite Forall_forall in Hs. by apply Hs.
  - intros [[status text]|]; [|constructor]. unfold fetch_arxiv_papers.
    destruct (status =? 200); [|constructor].
    destruct (mapM parse_entry (drop 1 (split_on "<entry>" text))) as [rs|] eqn:E;
      [|constructor].
    simpl. apply mapM_Some_1 in E. apply Forall_forall. intros r Hr.
    apply list_elem_of_lookup in Hr as [i Hi].
    destruct (Forall2_lookup_r _ _ _ _ _ E Hi) as (entry & _ & Hp).
    destruct (parse_entry_fields _ _ Hp) as (H1 & H2 & H3 & H4 & _).
    repeat split; try done.
    unfold Engine._get_citation_count, as_paper. simpl. by rewrite H2.
Qed.

Lemma append_snoc_assoc cur c s :
  ((cur ++ String c "") ++ s)%string = (cur ++ String c s)%string.
Proof.
  induction cur as [|d cur IH]; [done|].
  change (String d ((cur ++ String c "") ++ s)%string
          = String d (cur ++ String c s)%string). by rewrite IH.
Qed.

Lemma startswith_nil s : PyStr.startswith s "" = true.
Proof. by destruct s. Qed.

Lemma startswith_comma_blank c d s :
  PyStr.startswith (String c (String d s)) ", "
  = Ascii.eqb "," c && Ascii.eqb " " d.
Proof.
  cbn [PyStr.startswith]. rewrite startswith_nil.
  by destruct (Ascii.eqb "," c), (Ascii.eqb " " d).
Qed.

(** Splitting at the separator of the author strings gives back a piece
    that does not hold the separator. *)
Lemma split_from_piece x : forall rest cur,
  contains x ", " = false ->
  split_from ", " (x ++ ", " ++ rest)%string 0 cur
  = (cur ++ x)%string :: split_from ", " rest 0 EmptyString.
Proof.
  induction x as [|c x IH]; intros rest cur Hx.
  - change ("" ++ ", " ++ rest)%string with (String "," (String " " rest)).
    cbn [split_from]. rewrite startswith_comma_blank.
    cbn. by rewrite TrendsFacts.append_empty.
  - cbn [contains] in Hx. apply orb_false_iff in Hx as [H1 H2].
    change (String c x ++ ", " ++ rest)%string
      with (String c (x ++ ", " ++ rest)%string).
    cbn [split_from].
    assert (PyStr.startswith (String c (x ++ ", " ++ rest)%string) ", " = false)
      as ->.
    { destruct x as [|d x].
      - change ("" ++ ", " ++ rest)%string with (String "," (String " " rest)).
        rewrite startswith_comma_blank. apply andb_false_r.
      - change (String d x ++ ", " ++ rest)%string
          with (String d (x ++ ", " ++ rest)%string).
        by rewrite startswith_comma_blank in H1 |- *. }
    rewrite (IH _ _ H2). by rewrite append_snoc_assoc.
Qed.

Lemma split_join_names names :
  Forall (fun n => contains n ", " = false) names -> names <> [] ->
  split_on ", " (join ", " names) = names.
Proof.
  induction 1 as [|x names Hx Hall IH]; [done|]. intros _.
  destruct names as [|y names].
  - unfold split_on. cbn [join]. by rewrite split_from_absent.
  - unfold split_on in *. cbn [join]. rewrite split_from_piece by done.
    f_equal. by apply IH.
Qed.

(** An entry with two authors. *)
Definition two_author_entry : string :=
  "<id>http://arxiv.org/abs/1234.5678</id><published>2020-01-02</published><title>On trees</title><author><name>Ann Lee</name></author><author><name>Bob</name></author>".

(** X19.  The author string a fetched record carries reads back as the
    names the fetcher found: when no name holds the separator of comma
    and blank and the names do not join to the empty string, splitting
    the author string at the separator, as the tree builders do, gives
    exactly the names, in their order. *)
Theorem author_names_round_trip (entry : string) (r : record)
    (names : list string) :
  parse_entry entry = Some r ->
  entry_names entry = Some names ->
  Forall (fun n => contains n ", " = false) names ->
  join ", " names <> EmptyString ->
  authors r = join ", " names
  /\ split_on ", " (authors r) = names.
Proof.
  intros Hr Hn Hall Hj.
  destruct (parse_entry_fields _ _ Hr) as (_ & _ & _ & _ & names' & Hn' & Ha).
  rewrite Hn in Hn'. injection Hn' as <-.
  assert (authors r = join ", " names) as ->.
  { rewrite Ha. by destruct (join ", " names). }
  split; [done|]. apply split_join_names; [done|].
  intros ->. by apply Hj.
Qed.

Lemma author_names_round_trip_witness :
  exists r,
    parse_entry two_author_entry = Some r
    /\ authors r = "Ann Lee, Bob"%string
    /\ split_on ", " (authors r) = ["Ann Lee"; "Bob"]%string.
Proof.
  eexists. split; [vm_compute; reflexivity|].
  apply (author_names_round_trip two_author_entry _ ["Ann Lee"; "Bob"]%string).
  - vm_compute. reflexivity.
  - vm_compute. reflexivity.
  - repeat constructor.
  - vm_compute. discriminate.
Defined.

End ArxivFacts.
